(** * Pulse analysis pipeline ([functions.py]): model and properties

    A shallow embedding of the pulse analysis functions of [functions.py]:
    [peak_model], [noise_model], [psd], [optimal_filter], [resolving_power]
    and [fit_decaytime], with the helpers they call ([get_window],
    [supersample], [exp_decay]), and of the functions that prepare their
    input: [bin2mat], [smith_coord] and [coord_transformation].

    Numbers.  The Python code computes on IEEE doubles; the model computes on
    exact numbers.  Code paths that only add, multiply, divide and compare
    ([peak_model], [noise_model], [resolving_power]) are modelled over the
    rationals [Q] and run inside Rocq.  Code paths that need [sqrt], [cos],
    [sin] or [pi] (the FFT, [np.absolute], [np.sqrt]: [psd], [optimal_filter],
    [fit_decaytime], [bin2mat], [smith_coord], [coord_transformation]) are
    modelled over the reals [R].  Rounding error of the doubles is outside
    the model.

    Library calls.  [scipy.signal.find_peaks], [scipy.signal.welch],
    [scipy.signal.resample], [scipy.stats.gaussian_kde],
    [scipy.interpolate.interp1d], [scipy.optimize.curve_fit], [np.arctan2]
    and, in the rational model, [np.std] are not part of the repository:
    they enter as parameters of the functions that call them.  The discrete Fourier transform computed by [scipy.fft.fft] is
    defined from its formula. *)

From Stdlib Require Import List ZArith QArith Qround Bool Arith Lia Reals Lra.
Import ListNotations.

Set Implicit Arguments.

(** ** Exceptions and results *)

(** The exceptions the modelled code can raise.  The three explicit
    [raise Exception(...)] families carry the names the specification gives
    them; the others are raised by Python or by the libraries. *)
Inductive exn : Type :=
| InputShapeError        (* psd: rank other than 1 or 2 *)
| InsufficientDataError  (* no noise segment, empty distribution *)
| ConfigurationError     (* wrong selector or argument type *)
| ValueError             (* numpy/scipy: empty operand, shape mismatch *)
| ZeroDivisionError      (* Python scalar division by zero *)
| UnboundLocalError      (* local variable read before assignment *)
| FitConvergenceError    (* curve_fit did not converge *)
| OutOfFuel.             (* model only: loop bound exhausted *)

Inductive result (A : Type) : Type :=
| Ok (a : A)
| Raise (e : exn).

Arguments Ok {A} a.
Arguments Raise {A} e.

Definition bind {A B : Type} (r : result A) (k : A -> result B) : result B :=
  match r with
  | Ok a => k a
  | Raise e => Raise e
  end.

Notation "x <- r ;; k" := (bind r (fun x => k))
  (at level 61, r at next level, right associativity).

(** ** Array helpers shared by the components *)

(** Boolean-mask indexing [a[mask]]. *)
Fixpoint compress {A : Type} (mask : list bool) (a : list A) : list A :=
  match mask, a with
  | m :: mask', x :: a' => if m then x :: compress mask' a' else compress mask' a'
  | _, _ => []
  end.

(** Elementwise binary operation on two equally long arrays. *)
Fixpoint map2 {A B C : Type} (f : A -> B -> C) (a : list A) (b : list B) : list C :=
  match a, b with
  | x :: a', y :: b' => f x y :: map2 f a' b'
  | _, _ => []
  end.

(** Python's [int(x)] on a number: truncation toward zero. *)
Definition py_int (q : Q) : Z := Z.quot (Qnum q) (Z.pos (Qden q)).

(** Python's [round(x)]: to the nearest integer, ties to the even one. *)
Definition py_round (q : Q) : Z :=
  let f := Qfloor q in
  let r := (q - inject_Z f)%Q in
  match (r ?= 1 # 2)%Q with
  | Lt => f
  | Gt => (f + 1)%Z
  | Eq => if Z.even f then f else (f + 1)%Z
  end.

(** * Part I: the model *)

(** ** Pulse Detector and Aligner: [peak_model] *)

Module Detector.

Local Open Scope Z_scope.

Inductive window_type : Type := Box | Exp | OneOverT | OtherWindow.

(** What [peak_model] returns. *)
Record output : Type := {
  pulses_aligned : list (list Q);
  H : list Q;
  sel_locs : list Z;
  filtered_locs : list Z;
  pks_smoothed : list Q
}.

Definition empty_output : output :=
  {| pulses_aligned := []; H := []; sel_locs := []; filtered_locs := [];
     pks_smoothed := [] |}.

(** [np.convolve(a, v, mode='valid')]: both operands must be non-empty; the
    shorter one slides over the longer one, reversed. *)
Definition dot (a b : list Q) : Q :=
  fold_right Qplus 0%Q (map2 Qmult a b).

Fixpoint windows_of (n : nat) (w : nat) (a : list Q) : list (list Q) :=
  match n with
  | O => []
  | S n' => firstn w a :: windows_of n' w (tl a)
  end.

Definition convolve_valid (a v : list Q) : result (list Q) :=
  match a, v with
  | [], _ | _, [] => Raise ValueError
  | _, _ =>
      let (long, short) :=
        if (length v <=? length a)%nat then (a, v) else (v, a) in
      let n := (length long - length short + 1)%nat in
      Ok (map (dot (rev short)) (windows_of n (length short) long))
  end.

(** [get_window(type, M, tau)].  The exponential kernel needs [np.exp] and
    [np.log]; its normalized weights enter as [exp_window tau].  An unknown
    type leaves [y] unassigned. *)
Definition normalize (y : list Q) : list Q :=
  let s := fold_right Qplus 0%Q y in map (fun w => (w / s)%Q) y.

Definition get_window (exp_window : Z -> list Q)
    (type : window_type) (M tau : Z) : result (list Q) :=
  match type with
  | Box =>
      if tau <? 0 then Raise ValueError
      else Ok (repeat (1 / inject_Z tau)%Q (Z.to_nat tau))
  | Exp => Ok (exp_window tau)
  | OneOverT =>
      Ok (normalize (map (fun i => (1 / (1 + inject_Z (Z.of_nat i)))%Q) (seq 0 99)))
  | OtherWindow => Raise UnboundLocalError
  end.

(** Lines 165-170: the signal used for peak finding. *)
Definition smooth (exp_window : Z -> list Q)
    (signal : list Q) (pw sw : Z) (window : window_type) : result (list Q) :=
  if sw =? 0 then Ok signal
  else kernel <- get_window exp_window window pw sw ;;
       convolve_valid signal kernel.

(** Lines 185-187. *)
Definition buffer_samples (buffer : Q) (pw : Z) : Z :=
  py_int (buffer * inject_Z pw).

Definition buffer_len (buffer : Q) (pw : Z) : Z :=
  2 * buffer_samples buffer pw + pw.

(** Lines 190-193: the last candidate is dropped when its window would run
    past the end of the signal. *)
Definition drop_last_if_too_late {A : Type}
    (length_signal pw buffer : Z) (locs : list Z) (other : list A)
    : list Z * list A :=
  if length_signal <? last locs 0 + pw + buffer
  then (removelast locs, removelast other)
  else (locs, other).

(** Lines 196-197: [diff_locs] keeps the first location and replaces every
    other one by its distance to the previous location. *)
Definition diff_locs (locs : list Z) : list Z :=
  match locs with
  | [] => []
  | l0 :: rest => l0 :: map2 Z.sub rest (removelast locs)
  end.

(** Lines 198-200. *)
Definition filter_left (locs : list Z) (buffer_len : Z) : list bool :=
  map (fun d => buffer_len <? d) (diff_locs locs).

Definition filter_right (locs : list Z) (buffer_len : Z) : list bool :=
  tl (filter_left locs buffer_len) ++ [true].

Definition spacing_filter (locs : list Z) (buffer_len : Z) : list bool :=
  map2 andb (filter_left locs buffer_len) (filter_right locs buffer_len).

(** Line 204. *)
Definition perc_too_close (nr_far_enough nr_pulses : nat) : Z :=
  py_round (100 * (1 - inject_Z (Z.of_nat nr_far_enough)
                       / inject_Z (Z.of_nat nr_pulses)))%Q.

Section PeakModel.

(** [find_peaks x height prominence]: locations and heights of the peaks. *)
Variable find_peaks : list Q -> Q -> Q -> list (Z * Q).
Variable exp_window : Z -> list Q.

(** Lines 206-332: cutting, drift correction, supersampling, alignment on
    the rising edge and outlier rejection of the candidates that passed
    the spacing filter; this stage also reads [ssf], [rise_offset] and
    [filter_std], and calls [resample], [find_peaks] and [np.std].  It is
    not unfolded here.  Arguments: signal, smoothed signal, the surviving
    locations and smoothed heights, all detected locations, the percentage
    dropped as too close. *)
Variable align_and_reject :
  list Q -> list Q -> list Z -> list Q -> list Z -> Z -> result output.

Definition peak_model (signal : list Q) (mph mpp : Q) (pw sw : Z)
    (window : window_type) (buffer : Q) : result output :=
  smoothed_signal <- smooth exp_window signal pw sw window ;;
  let peaks := find_peaks smoothed_signal mph mpp in
  let locs_smoothed := map fst peaks in
  let pks := map snd peaks in
  let nr_pulses := length locs_smoothed in
  let det_locs := locs_smoothed in
  match nr_pulses with
  | O => Ok empty_output
  | S _ =>
      let b := buffer_samples buffer pw in
      let blen := buffer_len buffer pw in
      let (locs1, pks1) :=
        drop_last_if_too_late (Z.of_nat (length signal)) pw b locs_smoothed pks in
      let filter := spacing_filter locs1 blen in
      let locs2 := compress filter locs1 in
      let pks2 := compress filter pks1 in
      let nr_far_enough := length (List.filter (fun m => m) filter) in
      align_and_reject signal smoothed_signal locs2 pks2 det_locs
                       (perc_too_close nr_far_enough nr_pulses)
  end.

End PeakModel.

(** A reference detector in the manner of [scipy.signal.find_peaks] with
    [height] and [prominence]: strict local maxima (the middle of a flat
    top), at least [height] high, at least [prominence] above the higher of
    the two lowest points reached before a higher sample or the border.  It
    instantiates the parameter [find_peaks] on concrete signals. *)
Fixpoint first_different (v : Q) (rest : list Q) (j : nat) : option (nat * Q) :=
  match rest with
  | [] => None
  | y :: rest' =>
      if Qeq_bool y v then first_different v rest' (S j) else Some (j, y)
  end.

Fixpoint local_maxima_from (prev : Q) (x : list Q) (i : nat) : list nat :=
  match x with
  | [] => []
  | v :: rest =>
      (if Qle_bool v prev then []
       else match first_different v rest (S i) with
            | Some (j, y) => if Qle_bool v y then [] else [Nat.div (i + (j - 1)) 2]
            | None => []
            end) ++ local_maxima_from v rest (S i)
  end.

Definition local_maxima (x : list Q) : list nat :=
  match x with
  | [] => []
  | v :: rest => local_maxima_from v rest 1
  end.

(** Lowest sample met walking from the peak until a sample above it. *)
Fixpoint base_min (peak : Q) (walk : list Q) (m : Q) : Q :=
  match walk with
  | [] => m
  | y :: walk' =>
      if Qle_bool y peak
      then base_min peak walk' (if Qle_bool m y then m else y)
      else m
  end.

Definition prominence (x : list Q) (p : nat) : Q :=
  let v := nth p x 0%Q in
  let left_min := base_min v (rev (firstn p x)) v in
  let right_min := base_min v (skipn (S p) x) v in
  (v - (if Qle_bool left_min right_min then right_min else left_min))%Q.

Definition reference_find_peaks (x : list Q) (height prom : Q) : list (Z * Q) :=
  map (fun p => (Z.of_nat p, nth p x 0%Q))
      (List.filter (fun p => Qle_bool height (nth p x 0%Q)
                             && Qle_bool prom (prominence x p))
                   (local_maxima x)).

(** *** The cut around a candidate and its drift correction (lines 214-223)

    [signal] and [smoothed_signal] are numpy arrays of floats.  A slice
    [a[left:right]] is a view of [a]: [pulse -= offset] writes into the
    signal the caller passed.  Without smoothing (line 170)
    [smoothed_signal] is the very same array as [signal]. *)

(** Python's handling of a slice bound: a negative bound counts from the
    end, and both ends are clamped to the array. *)
Definition clamp_index (len i : Z) : Z :=
  if i <? 0 then Z.max 0 (len + i) else Z.min i len.

Definition slice_bounds {A : Type} (a : list A) (start stop : Z) : nat * nat :=
  let len := Z.of_nat (length a) in
  (Z.to_nat (clamp_index len start), Z.to_nat (clamp_index len stop)).

(** [a[start:stop]] *)
Definition py_slice {A : Type} (a : list A) (start stop : Z) : list A :=
  let (s, e) := slice_bounds a start stop in
  firstn (e - s) (skipn s a).

(** [a[start:stop] -= c], as seen in [a]. *)
Definition isub_slice (a : list Q) (start stop : Z) (c : Q) : list Q :=
  let (s, e) := slice_bounds a start stop in
  map (fun p => if ((s <=? fst p) && (fst p <? e))%nat
                then (snd p - c)%Q else snd p)
      (combine (seq 0 (length a)) a).

Definition np_mean (a : list Q) : Q :=
  (fold_right Qplus 0 a / inject_Z (Z.of_nat (length a)))%Q.

(** The arrays behind [signal] and [smoothed_signal]: one array under both
    names, or two. *)
Inductive timestreams : Type :=
| Shared (signal : list Q)
| Separate (signal smoothed_signal : list Q).

Definition signal_of (ts : timestreams) : list Q :=
  match ts with Shared s => s | Separate s _ => s end.

Definition smoothed_of (ts : timestreams) : list Q :=
  match ts with Shared s => s | Separate _ sm => sm end.

(** Lines 166-170, as arrays. *)
Definition timestreams_of (exp_window : Z -> list Q)
    (signal : list Q) (pw sw : Z) (window : window_type) : result timestreams :=
  if sw =? 0 then Ok (Shared signal)
  else kernel <- get_window exp_window window pw sw ;;
       smoothed <- convolve_valid signal kernel ;;
       Ok (Separate signal smoothed).

(** Line 221: the mean of the first and the last [buffer] samples of the
    cut ([pulse[-0:]] is the whole cut). *)
Definition drift_offset (pulse : list Q) (buffer : Z) : Q :=
  np_mean (py_slice pulse 0 buffer
           ++ py_slice pulse (- buffer) (Z.of_nat (length pulse))).

(** Lines 214-223 for the candidate at [loc]: the arrays afterwards and the
    offset. *)
Definition cut_and_correct (ts : timestreams) (loc align_shift buffer pw : Z)
    : timestreams * Q :=
  let left := loc - align_shift - buffer in
  let right := loc + (pw - align_shift) + buffer in
  let pulse := py_slice (signal_of ts) left right in
  let offset := drift_offset pulse buffer in
  (* pulse -= offset *)
  let ts1 :=
    match ts with
    | Shared s => Shared (isub_slice s left right offset)
    | Separate s sm => Separate (isub_slice s left right offset) sm
    end in
  (* smoothed_pulse -= offset *)
  let ts2 :=
    match ts1 with
    | Shared s => Shared (isub_slice s left right offset)
    | Separate s sm => Separate s (isub_slice sm left right offset)
    end in
  (ts2, offset).

(** *** [supersample] (lines 149-158) *)

Inductive supersample_type : Type := Interp1d | Resample | OtherSupersample.

(** [np.linspace(start, stop, num)] *)
Definition np_linspace (start stop : Q) (num : Z) : result (list Q) :=
  if num <? 0 then Raise ValueError
  else Ok (map (fun i => (start + inject_Z (Z.of_nat i)
                                  * ((stop - start) / inject_Z (num - 1)))%Q)
               (seq 0 (Z.to_nat num))).

Section Supersample.

(** [interp1d(x, y, axis=0)(x_new)] and [resample(x, num, axis=0)]. *)
Variable interp1d : list Q -> list Q -> list Q -> result (list Q).
Variable resample : list Q -> Z -> result (list Q).

Definition supersample (signal : list Q) (num : Z) (type : supersample_type)
    : result (list Q) :=
  match type with
  | Interp1d =>
      let l := Z.of_nat (length signal) in
      let x := map (fun i => inject_Z (Z.of_nat i)) (seq 0 (length signal)) in
      x_ss <- np_linspace 0 (inject_Z (l - 1)) num ;;
      interp1d x signal x_ss
  | Resample => resample signal num
  | OtherSupersample => Raise ConfigurationError
  end.

End Supersample.

(** *** Alignment and outlier rejection (lines 206-334)

    The stage [peak_model] runs on the candidates that passed the spacing
    filter, with [plot_pulse] off.  Besides the exceptions of its callees it
    can fail on an index out of range. *)

Inductive stage_exn : Type :=
| IndexError
| Raised (e : exn).

Inductive stage (A : Type) : Type :=
| Done (a : A)
| Failed (e : stage_exn).

Arguments Done {A} a.
Arguments Failed {A} e.

Definition stage_bind {A B : Type} (r : stage A) (k : A -> stage B) : stage B :=
  match r with
  | Done a => k a
  | Failed e => Failed e
  end.

Definition lift {A : Type} (r : result A) : stage A :=
  match r with
  | Ok a => Done a
  | Raise e => Failed (Raised e)
  end.

Notation "x <~ r ;; k" := (stage_bind r (fun x => k))
  (at level 61, r at next level, right associativity).

(** [a[i]]: a negative index counts from the end. *)
Definition py_index (a : list Q) (i : Z) : stage Q :=
  let len := Z.of_nat (length a) in
  if (0 <=? i) && (i <? len) then Done (nth (Z.to_nat i) a 0%Q)
  else if (- len <=? i) && (i <? 0) then Done (nth (Z.to_nat (len + i)) a 0%Q)
  else Failed IndexError.

(** [a[start::-1]]: from index [start] down to the first element. *)
Definition py_slice_down {A : Type} (a : list A) (start : Z) : list A :=
  let len := Z.of_nat (length a) in
  let s := if start <? 0 then Z.max (-1) (len + start)
           else Z.min start (len - 1) in
  rev (firstn (Z.to_nat (s + 1)) a).

(** [np.argmax] of a Boolean array: the first [True], or 0 when there is
    none; no value on an empty array. *)
Fixpoint first_true (m : list bool) (i : Z) : option Z :=
  match m with
  | [] => None
  | b :: m' => if b then Some i else first_true m' (i + 1)
  end.

Definition argmax_bool (m : list bool) : result Z :=
  match m with
  | [] => Raise ValueError
  | _ => Ok (match first_true m 0 with Some i => i | None => 0 end)
  end.

(** [np.setdiff1d(a, b)]: the sorted distinct values of [a] that are not in
    [b]. *)
Fixpoint insert_sorted (z : Z) (l : list Z) : list Z :=
  match l with
  | [] => [z]
  | y :: l' =>
      if z <? y then z :: l
      else if z =? y then l
      else y :: insert_sorted z l'
  end.

Definition np_unique (l : list Z) : list Z := fold_right insert_sorted [] l.

Definition np_setdiff1d (a b : list Z) : list Z :=
  filter (fun z => negb (existsb (Z.eqb z) b)) (np_unique a).

(** What one pass of the loop leaves: the arrays, [sel_locs[i]], and the
    aligned pulse with its height when the candidate is kept
    ([filter_diff[i]] stays true). *)
Record pass : Type := {
  arrays : timestreams;
  sel_loc : Z;
  kept : option (list Q * Q)
}.

(** [filter_diff[i]], and what the pass appends to [pulses_aligned] and
    [H]. *)
Definition is_kept (p : pass) : bool :=
  match kept p with Some _ => true | None => false end.

Definition appended_of (p : pass) : list (list Q * Q) :=
  match kept p with Some a => [a] | None => [] end.

Section Alignment.

Variable find_peaks : list Q -> Q -> Q -> list (Z * Q).
Variable interp1d : list Q -> list Q -> list Q -> result (list Q).
Variable resample : list Q -> Z -> result (list Q).
(** [np.std] of one column of the aligned pulses. *)
Variable np_std : list Q -> Q.

(** [pw]; [buffer] as line 185 leaves it; [align_shift] of line 187. *)
Variables pw buffer align_shift : Z.

(** Lines 226-230: the factor in force once the loop has run. *)
Definition effective_ssf (ssf : Z) : Z := if 1 <? ssf then ssf else 1.

(** Lines 259-273, with [ssf] the factor in force: the aligned pulse, or
    nothing when the candidate is dropped. *)
Definition align_on_rising_edge (ssf : Z) (pulse : list Q)
    (idx_max : Z) (full_max : Q) : result (option (list Q)) :=
  let len_pulse := (2 * buffer + pw) * ssf in
  let half_max := (full_max / 2)%Q in
  let back := py_slice_down pulse (- (len_pulse - idx_max)) in
  k <- argmax_bool (map (fun v => negb (Qle_bool half_max v)) back) ;;
  let rising_edge := idx_max - k in
  if align_shift <? rising_edge then
    let shift_start := rising_edge - align_shift * ssf in
    let shift_end := shift_start + pw * ssf in
    let aligned_pulse := py_slice pulse shift_start shift_end in
    if Z.of_nat (length aligned_pulse) =? pw * ssf
    then Ok (Some aligned_pulse)
    else Ok None
  else Ok None.

(** Lines 214-273: one pass of the loop, for the candidate at [loc] with
    the smoothed height [smoothed_peak]. *)
Definition align_candidate (ssf : Z) (ts : timestreams)
    (loc : Z) (smoothed_peak : Q) : stage pass :=
  let left := loc - align_shift - buffer in
  let right := loc + (pw - align_shift) + buffer in
  let ts := fst (cut_and_correct ts loc align_shift buffer pw) in
  let pulse := py_slice (signal_of ts) left right in
  let smoothed_pulse := py_slice (smoothed_of ts) left right in
  pulse <~ (if 1 <? ssf
            then lift (supersample interp1d resample pulse
                         ((2 * buffer + pw) * ssf) Resample)
            else Done pulse) ;;
  smoothed_pulse <~ (if 1 <? ssf
                     then lift (supersample interp1d resample smoothed_pulse
                                  ((2 * buffer + pw) * ssf) Resample)
                     else Done smoothed_pulse) ;;
  let ssf := effective_ssf ssf in
  let smoothed_loc := (buffer + align_shift) * ssf in
  unsmoothed_height <~ py_index pulse smoothed_loc ;;
  let min_height :=
    if Qle_bool unsmoothed_height smoothed_peak
    then smoothed_peak else unsmoothed_height in
  let finish (idx_max : Z) (full_max : Q) : stage pass :=
    aligned <~ lift (align_on_rising_edge ssf pulse idx_max full_max) ;;
    Done {| arrays := ts;
            sel_loc := left + idx_max;
            kept := option_map (fun a => (a, full_max)) aligned |} in
  match find_peaks (py_slice pulse smoothed_loc (Z.of_nat (length pulse)))
                   min_height 0%Q with
  | (loc_right, height_right) :: _ =>
      finish (smoothed_loc + loc_right) height_right
  | [] =>
      match find_peaks (py_slice pulse 0 smoothed_loc) min_height 0%Q with
      | [] => Done {| arrays := ts; sel_loc := loc; kept := None |}
      | ((_, height_left) :: _) as locs_left =>
          finish (fst (last locs_left (0, 0%Q))) height_left
      end
  end.

(** Lines 213-273: the loop over the candidates, a location and a smoothed
    height each. *)
Fixpoint align_loop (ssf : Z) (ts : timestreams) (cands : list (Z * Q))
    : stage (timestreams * list pass) :=
  match cands with
  | [] => Done (ts, [])
  | (loc, pk) :: rest =>
      p <~ align_candidate ssf ts loc pk ;;
      r <~ align_loop ssf (arrays p) rest ;;
      Done (fst r, p :: snd r)
  end.

Definition column (rows : list (list Q)) (j : nat) : list Q :=
  map (fun r => nth j r 0%Q) rows.

(** Lines 307-316: the mask of the pulses that lie, at every sample,
    strictly between mean minus and mean plus [filter_std] standard
    deviations. *)
Definition outliers (filter_std : Q) (ncols : nat) (rows : list (list Q))
    : list bool :=
  let mean_aligned_pulse := map (fun j => np_mean (column rows j)) (seq 0 ncols) in
  let std_aligned_pulse := map (fun j => np_std (column rows j)) (seq 0 ncols) in
  let max_aligned_pulse :=
    map2 (fun m s => (m + filter_std * s)%Q) mean_aligned_pulse std_aligned_pulse in
  let min_aligned_pulse :=
    map2 (fun m s => (m - filter_std * s)%Q) mean_aligned_pulse std_aligned_pulse in
  let outliers_above :=
    map (fun r => forallb (fun b => b)
                    (map2 (fun p m => negb (Qle_bool m p)) r max_aligned_pulse))
        rows in
  let outliers_below :=
    map (fun r => forallb (fun b => b)
                    (map2 (fun p m => negb (Qle_bool p m)) r min_aligned_pulse))
        rows in
  map2 andb outliers_above outliers_below.

(** Lines 206-334.  [ssf] is the argument of [peak_model]; the reshape of
    line 299 reads the variable as the loop has left it. *)
Definition align_and_reject_stage (ssf : Z) (filter_std : Q)
    (ts : timestreams) (cands : list (Z * Q)) (det_locs : list Z)
    : stage (timestreams * output) :=
  r <~ align_loop ssf ts cands ;;
  let passes := snd r in
  let ssf := match cands with [] => ssf | _ => effective_ssf ssf end in
  let filter_diff := map is_kept passes in
  let appended := flat_map appended_of passes in
  if pw * ssf <=? 0 then Failed (Raised ValueError)
  else
    let pulses := map fst appended in
    let heights := map snd appended in
    let sel := compress filter_diff (map sel_loc passes) in
    let locs := compress filter_diff (map fst cands) in
    let pks := compress filter_diff (map snd cands) in
    let mask := outliers filter_std (Z.to_nat (pw * ssf)) pulses in
    Done (fst r,
          {| pulses_aligned := compress mask pulses;
             H := compress mask heights;
             sel_locs := compress mask sel;
             filtered_locs := np_setdiff1d det_locs (compress mask locs);
             pks_smoothed := compress mask pks |}).

End Alignment.

(** A standard deviation in the manner of [np.std] to run the model with:
    the root of the mean squared deviation, exact where that root is
    rational. *)
Definition Qsqrt (q : Q) : Q :=
  let r := Qred q in Z.sqrt (Qnum r) # Pos.sqrt (Qden r).

Definition reference_std (a : list Q) : Q :=
  let m := np_mean a in
  Qsqrt (np_mean (map (fun v => ((v - m) * (v - m))%Q) a)).

(** A signal of 400 samples, zero except for unit spikes at 100, 140 and
    300. *)
Definition three_spikes : list Q :=
  map (fun i => if ((i =? 100) || (i =? 140) || (i =? 300))%nat then 1%Q else 0%Q)
      (seq 0 400).

End Detector.

(** ** Noise Estimator: [noise_model] *)

Module Noise.

Local Open Scope Q_scope.

(** What [noise_model] returns. *)
Record output : Type := {
  freqs : list Q;
  sxx : list Q;
  all_locs : list Z;
  photon_rate : Q
}.

(** The variables the [while] loop of lines 359-383 updates. *)
Record scan_state : Type := {
  nr_good_segments : nat;
  nr : nat;
  locs_so_far : list Z;
  sxx_segments : list Q;
  last_freqs : option (list Q)
}.

(** [signal[start:stop]] for [0 <= start <= stop]. *)
Definition slice {A : Type} (a : list A) (start stop : nat) : list A :=
  firstn (stop - start) (skipn start a).

(** [acc += v] on one-dimensional arrays: [v] must have the length of [acc]
    or length one. *)
Definition iadd (acc v : list Q) : result (list Q) :=
  if (length v =? length acc)%nat then Ok (map2 Qplus acc v)
  else match v with
       | [y] => Ok (map (fun a => a + y) acc)
       | _ => Raise ValueError
       end.

Definition QofN (n : nat) : Q := inject_Z (Z.of_nat n).

(** Lines 341-344: a supersample factor that is absent, zero or one counts
    as one. *)
Definition effective_ssf (ssf : nat) : nat :=
  if (1 <? ssf)%nat then ssf else 1%nat.

Section NoiseModel.

Variable find_peaks : list Q -> Q -> Q -> list (Z * Q).
(** [welch(x, fs, nperseg)] with a Hamming window: frequencies and PSD. *)
Variable welch : list Q -> Q -> nat -> result (list Q * list Q).
(** [supersample(signal, num)] by band-limited resampling. *)
Variable supersample : list Q -> nat -> result (list Q).

Variables (signal smoothed_signal : list Q) (pw : nat) (sf : Q) (ssf : nat)
          (nr_req_segments : nat) (mph mpp : Q).

(** Candidates found in segment number [i], as indices into the signal. *)
Definition segment_locs (i : nat) : list Z :=
  let start := (i * pw)%nat in
  map (fun p => (fst p + Z.of_nat start)%Z)
      (find_peaks (slice smoothed_signal start (start + pw)) mph mpp).

(** All candidates detected in the first [n] segments. *)
Definition detected (n : nat) : list Z := flat_map segment_locs (seq 0 n).

(** The loop of lines 363-383; [ssf] is the effective factor.  The loop
    goes on while segments are still required and the next segment ends
    before the end of the signal. *)
Definition continues (st : scan_state) : bool :=
  (nr_good_segments st <? nr_req_segments)%nat
  && (nr st * pw + pw <? length signal)%nat.

(** One iteration: the segment with pulses is skipped and its candidates
    recorded, the segment without is added to the accumulated PSD. *)
Definition scan_body (st : scan_state) : result scan_state :=
  let start := (nr st * pw)%nat in
  let stop := (start + pw)%nat in
  let next_segment := slice signal start stop in
  match segment_locs (nr st) with
  | (_ :: _) as locs =>
      Ok {| nr_good_segments := nr_good_segments st;
            nr := S (nr st);
            locs_so_far := locs_so_far st ++ locs;
            sxx_segments := sxx_segments st;
            last_freqs := last_freqs st |}
  | [] =>
      seg <- (if (1 <? ssf)%nat
              then supersample next_segment (pw * ssf)
              else Ok next_segment) ;;
      fs <- welch seg (sf * QofN ssf) (pw * ssf) ;;
      acc <- iadd (sxx_segments st) (snd fs) ;;
      Ok {| nr_good_segments := S (nr_good_segments st);
            nr := S (nr st);
            locs_so_far := locs_so_far st;
            sxx_segments := acc;
            last_freqs := Some (fst fs) |}
  end.

(** Every iteration scans one segment, so [fuel] bounds the number of
    segments scanned. *)
Fixpoint scan (fuel : nat) (st : scan_state) : result scan_state :=
  if continues st then
    match fuel with
    | O => Raise OutOfFuel
    | S fuel' => st' <- scan_body st ;; scan fuel' st'
    end
  else Ok st.

Definition initial_state (len_onesided : nat) : scan_state :=
  {| nr_good_segments := 0; nr := 0; locs_so_far := [];
     sxx_segments := repeat 0 len_onesided; last_freqs := None |}.

(** Lines 384-391. *)
Definition finish (st : scan_state) : result output :=
  if (nr_good_segments st =? 0)%nat then Raise InsufficientDataError
  else
    let sxx := map (fun s => s / QofN (nr_good_segments st)) (sxx_segments st) in
    if (pw * ssf =? 0)%nat then Raise ZeroDivisionError        (* df *)
    else if Qeq_bool sf 0 then Raise ZeroDivisionError
    else
      let elapsed := QofN (nr st) * QofN pw / sf in
      if Qeq_bool elapsed 0 then Raise ZeroDivisionError
      else
        match last_freqs st with
        | None => Raise UnboundLocalError
        | Some f =>
            Ok {| freqs := f; sxx := sxx; all_locs := locs_so_far st;
                  photon_rate := QofN (length (locs_so_far st)) / elapsed |}
        end.

End NoiseModel.

(** Lines 351-356: smoothing with a box kernel of [sw] samples. *)
Definition smooth (signal : list Q) (sw : nat) : result (list Q) :=
  match sw with
  | O => Ok signal
  | S _ => Detector.convolve_valid signal (repeat (1 / QofN sw) sw)
  end.

Definition noise_model
    (find_peaks : list Q -> Q -> Q -> list (Z * Q))
    (welch : list Q -> Q -> nat -> result (list Q * list Q))
    (supersample : list Q -> nat -> result (list Q))
    (signal : list Q) (pw : nat) (sf : Q) (ssf nr_req_segments : nat)
    (mph mpp : Q) (sw : nat) : result output :=
  let ssf := effective_ssf ssf in
  let len_onesided :=
    (Z.to_nat (py_round (QofN (pw * ssf) / 2)) + 1)%nat in
  smoothed_signal <- smooth signal sw ;;
  st <- scan find_peaks welch supersample signal smoothed_signal pw sf ssf
             nr_req_segments mph mpp
             (length signal) (initial_state len_onesided) ;;
  finish pw sf ssf st.

(** An instance of [welch] to run the model with: the frequency grid and a
    flat, zero spectrum of the one-sided length. *)
Definition flat_welch (x : list Q) (fs : Q) (nperseg : nat)
    : result (list Q * list Q) :=
  match nperseg with
  | O => Raise ValueError
  | S _ =>
      let n := (nperseg / 2 + 1)%nat in
      Ok (map (fun k => QofN k * fs / QofN nperseg) (seq 0 n), repeat 0 n)
  end.

(** A run of the model: twenty samples with one spike in the first window
    of six, two segments required, no smoothing, no supersampling. *)
Definition example_signal : list Q :=
  [0; 0; 0; 5; 0; 0;  0; 0; 0; 0; 0; 0;  0; 0; 0; 0; 0; 0;  0; 0].

Definition example_run : result output :=
  noise_model Detector.reference_find_peaks flat_welch (fun s _ => Ok s)
              example_signal 6 1 1 2 1 1 0.

Definition example_output : output :=
  Eval vm_compute in
    match example_run with
    | Ok out => out
    | Raise _ => {| freqs := []; sxx := []; all_locs := []; photon_rate := 0 |}
    end.

End Noise.

(** ** Resolving Power Estimator: [resolving_power] *)

Module Resolving.

Local Open Scope Q_scope.

Definition Qlt_bool (a b : Q) : bool := negb (Qle_bool b a).

(** The [range] argument: absent, a number, a pair, or anything else. *)
Inductive range_arg : Type :=
| RNone
| RScalar (r : Q)
| RInterval (lo hi : Q)
| ROther.

(** [np.amin], [np.amax] ([np.min], [np.max]): no value on an empty array. *)
Definition np_min (a : list Q) : result Q :=
  match a with
  | [] => Raise ValueError
  | v :: rest => Ok (fold_left (fun m y => if Qlt_bool y m then y else m) rest v)
  end.

Definition np_max (a : list Q) : result Q :=
  match a with
  | [] => Raise ValueError
  | v :: rest => Ok (fold_left (fun m y => if Qlt_bool m y then y else m) rest v)
  end.

(** [np.argmax]: index of the first occurrence of the maximum. *)
Fixpoint argmax_from (a : list Q) (i best_i : nat) (best : Q) : nat :=
  match a with
  | [] => best_i
  | y :: rest =>
      if Qlt_bool best y then argmax_from rest (S i) i y
      else argmax_from rest (S i) best_i best
  end.

Definition np_argmax (a : list Q) : nat :=
  match a with
  | [] => 0%nat
  | v :: rest => argmax_from rest 1 0 v
  end.

(** [np.arange(start, stop, step)]: [ceil((stop - start) / step)] values. *)
Definition np_arange (start stop step : Q) : result (list Q) :=
  if Qeq_bool step 0 then Raise ValueError
  else
    let n := Z.to_nat (Qceiling ((stop - start) / step)) in
    Ok (map (fun i => start + inject_Z (Z.of_nat i) * step) (seq 0 n)).

(** Lines 472-479: the restriction of the distribution.  [if range:] skips
    an absent range and the number zero. *)
Definition restrict (dist : list Q) (range : range_arg) : result (list Q) :=
  match range with
  | RNone => Ok dist
  | RScalar r =>
      if Qeq_bool r 0 then Ok dist
      else Ok (filter (fun d => Qlt_bool r d) dist)
  | RInterval lo hi =>
      Ok (filter (fun d => Qlt_bool lo d && Qlt_bool d hi) dist)
  | ROther => Raise ConfigurationError
  end.

Section ResolvingPower.

(** [gaussian_kde(dist, bw_method='scott').evaluate(x)]. *)
Variable kde_evaluate : list Q -> list Q -> result (list Q).
(** [interp1d(xs, ys)(v)]: linear interpolation of [ys] over [xs] at [v]. *)
Variable interp1d : list Q -> list Q -> Q -> result Q.

(** Lines 499-505. *)
Definition right_crossing (x pdf : list Q) (x_max pdf_max : Q) : result Q :=
  let hm := pdf_max / 2 in
  let idx_right :=
    map2 (fun p xi => Qlt_bool (pdf_max / 4) p && Qlt_bool x_max xi) pdf x in
  let pdf_right := compress idx_right pdf in
  let x_right := compress idx_right x in
  lo <- np_min pdf_right ;;
  hi <- np_max pdf_right ;;
  if Qlt_bool lo hm && Qlt_bool hm hi
  then interp1d pdf_right x_right hm
  else np_max pdf_right.

(** Lines 507-513. *)
Definition left_crossing (x pdf : list Q) (x_max pdf_max f_right : Q)
    : result Q :=
  let hm := pdf_max / 2 in
  let idx_left :=
    map2 (fun p xi => Qlt_bool (pdf_max / 4) p && Qlt_bool xi x_max
                      && Qlt_bool (x_max - 2 * (f_right - x_max)) xi) pdf x in
  let x_left := compress idx_left x in
  let pdf_left := compress idx_left pdf in
  lo <- np_min pdf_left ;;
  hi <- np_max pdf_left ;;
  if Qlt_bool lo hm && Qlt_bool hm hi
  then interp1d pdf_left x_left hm
  else np_min pdf_left.

(** The function returns the resolving power, the rescaled density and
    the grid. *)
Definition resolving_power (dist : list Q) (histbin : Q) (range : range_arg)
    : result (Q * list Q * list Q) :=
  dist <- restrict dist range ;;
  match dist with
  | [] => Raise InsufficientDataError
  | _ =>
      lo <- np_min dist ;;
      hi <- np_max dist ;;
      x <- np_arange lo hi (histbin / 10) ;;
      let nr_peaks := inject_Z (Z.of_nat (length dist)) in
      pdf <- kde_evaluate dist x ;;
      pdf_max <- np_max pdf ;;
      let pdf_max_idx := np_argmax pdf in
      let x_max := nth pdf_max_idx x 0 in
      f_right <- right_crossing x pdf x_max pdf_max ;;
      f_left <- left_crossing x pdf x_max pdf_max f_right ;;
      let resolving_power := x_max / (f_right - f_left) in
      let total := fold_right Qplus 0 pdf in
      let pdf' :=
        map (fun p => p * histbin * nr_peaks / (total * histbin / 10)) pdf in
      Ok (resolving_power, pdf', x)
  end.

End ResolvingPower.

(** What the specification asks of the right crossing when the half maximum
    is not bracketed by the densities right of the peak: the boundary of the
    grid on that side, the largest sampled position of the region. *)
Definition boundary_right (x pdf : list Q) (x_max pdf_max : Q) : result Q :=
  let idx_right :=
    map2 (fun p xi => Qlt_bool (pdf_max / 4) p && Qlt_bool x_max xi) pdf x in
  np_max (compress idx_right x).

Fixpoint same_values (a b : list Q) : bool :=
  match a, b with
  | [], [] => true
  | x :: a', y :: b' => Qeq_bool x y && same_values a' b'
  | _, _ => false
  end.

(** The density [gaussian_kde] gives the heights [0, 1, 2] on the grid
    [0, 0.5, 1, 1.5], to four decimals (Scott bandwidth [3^(-1/5)]); no
    other input is tabulated. *)
Definition kde_of_0_1_2 (dist x : list Q) : result (list Q) :=
  if same_values dist [0; 1; 2] && same_values x [0; 1 # 2; 1; 3 # 2]
  then Ok [2493 # 10000; 3018 # 10000; 3182 # 10000; 3018 # 10000]
  else Raise ValueError.

(** Linear interpolation between neighbouring points, for ascending [xs]. *)
Fixpoint linear_interp (xs ys : list Q) (v : Q) : result Q :=
  match xs, ys with
  | x0 :: ((x1 :: _) as xs'), y0 :: ((y1 :: _) as ys') =>
      if Qle_bool x0 v && Qle_bool v x1
      then Ok (y0 + (v - x0) * (y1 - y0) / (x1 - x0))
      else linear_interp xs' ys' v
  | _, _ => Raise ValueError
  end.

(** Two more instances to run the model with: a kernel density with a
    triangular kernel of half-width [h], and linear interpolation that
    accepts its nodes in ascending or in descending order. *)
Definition triangular_kde (h : Q) (dist x : list Q) : result (list Q) :=
  match dist with
  | [] => Raise ValueError
  | _ =>
      Ok (map (fun xi =>
                 fold_right Qplus 0
                   (map (fun d =>
                           let dx := if Qle_bool d xi then xi - d else d - xi in
                           let u := 1 - dx / h in
                           if Qle_bool 0 u then u else 0) dist)
                 / (inject_Z (Z.of_nat (length dist)) * h)) x)
  end.

Fixpoint linear_interp_any (xs ys : list Q) (v : Q) : result Q :=
  match xs, ys with
  | x0 :: ((x1 :: _) as xs'), y0 :: ((y1 :: _) as ys') =>
      if (Qle_bool x0 v && Qle_bool v x1) || (Qle_bool x1 v && Qle_bool v x0)
      then Ok (y0 + (v - x0) * (y1 - y0) / (x1 - x0))
      else linear_interp_any xs' ys' v
  | _, _ => Raise ValueError
  end.

(** Heights with a cluster around 5 and one stray value on each side. *)
Definition example_heights : list Q := [0; 4; 5; 5; 5; 6; 10].

Definition example_resolving_power : result (Q * list Q * list Q) :=
  resolving_power (triangular_kde 2) linear_interp_any example_heights 5 RNone.

End Resolving.

(** ** Spectral Estimator and Optimal Filter: [psd], [optimal_filter] *)

Module Spectral.

Local Open Scope R_scope.

(** *** Complex numbers *)

Definition C : Type := (R * R)%type.

Definition RtoC (x : R) : C := (x, 0).
Definition Cre (z : C) : R := fst z.
Definition Cplus (a b : C) : C := (fst a + fst b, snd a + snd b).
Definition Cmult (a b : C) : C :=
  (fst a * fst b - snd a * snd b, fst a * snd b + snd a * fst b).
Definition Cscale (x : R) (z : C) : C := (x * fst z, x * snd z).
Definition Cconj (z : C) : C := (fst z, - snd z).
Definition Cdiv (a b : C) : C :=
  let d := fst b * fst b + snd b * snd b in
  ((fst a * fst b + snd a * snd b) / d, (snd a * fst b - fst a * snd b) / d).

(** [np.absolute] on a complex number. *)
Definition Cabs (z : C) : R := sqrt (fst z * fst z + snd z * snd z).

Definition Csum (l : list C) : C := fold_right Cplus (0, 0) l.
Definition Rsum (l : list R) : R := fold_right Rplus 0 l.

(** *** The discrete Fourier transform of [scipy.fft.fft] *)

(** [exp(-2 pi i k n / N)]. *)
Definition twiddle (N k n : nat) : C :=
  let theta := 2 * PI * INR k * INR n / INR N in (cos theta, - sin theta).

(** Bin [k]: the sum over [n] of [x[n] * exp(-2 pi i k n / N)]. *)
Definition dft_bin (x : list R) (k : nat) : C :=
  Csum (map (fun p => Cscale (snd p) (twiddle (length x) k (fst p)))
            (combine (seq 0 (length x)) x)).

Definition dft (x : list R) : list C :=
  map (dft_bin x) (seq 0 (length x)).

(** [fft(x)] refuses an empty sequence. *)
Definition fft (x : list R) : result (list C) :=
  match x with
  | [] => Raise ValueError
  | _ => Ok (dft x)
  end.

(** [fft(a, axis=-1)] on a two-dimensional array of [ncols] columns. *)
Definition fft_rows (ncols : nat) (rows : list (list R)) : result (list (list C)) :=
  match ncols with
  | O => Raise ValueError
  | S _ => Ok (map dft rows)
  end.

(** *** Arrays by rank *)

(** A numpy array of reals: rank 0, 1, 2 (rows of [ncols] entries each), or
    rank [3 + length more]. *)
Inductive ndarray : Type :=
| Array0 (x : R)
| Array1 (v : list R)
| Array2 (ncols : nat) (rows : list (list R))
| ArrayN (d0 d1 d2 : nat) (more : list nat) (data : list R).

Definition ndim (a : ndarray) : nat :=
  match a with
  | Array0 _ => 0
  | Array1 _ => 1
  | Array2 _ _ => 2
  | ArrayN _ _ _ more _ => 3 + length more
  end.

(** Length of the sequences an array holds along its last axis. *)
Definition sequence_length (a : ndarray) : nat :=
  match a with
  | Array0 _ => 0
  | Array1 v => length v
  | Array2 ncols _ => ncols
  | ArrayN d0 d1 d2 more _ => last more d2
  end.

(** *** [psd] *)

(** [round(len_pulse / 2) + 1]. *)
Definition len_onesided_of (len_pulse : nat) : nat :=
  (Z.to_nat (py_round (inject_Z (Z.of_nat len_pulse) / 2)) + 1)%nat.

(** Python's [a / b] on scalars ([fs] is a Python float). *)
Definition py_div (a b : R) : result R :=
  if Req_dec_T b 0 then Raise ZeroDivisionError else Ok (a / b).

(** [a[1:-1] *= 2]: every entry but the first and the last is doubled. *)
Definition double_inner (a : list R) : list R :=
  map (fun p => if ((1 <=? fst p) && (S (fst p) <? length a))%nat
                then 2 * snd p else snd p)
      (combine (seq 0 (length a)) a).

Definition psd (array : ndarray) (fs : R) : result ndarray :=
  match array with
  | Array1 v =>
      let len_pulse := length v in
      let len_onesided := len_onesided_of len_pulse in
      fft_array <- fft v ;;
      let fft_onesided := firstn len_onesided fft_array in
      scale <- py_div 1 (INR len_pulse * fs) ;;
      let psd_array := map (fun z => scale * Cabs z ^ 2) fft_onesided in
      Ok (Array1 (double_inner psd_array))
  | Array2 ncols rows =>
      let len_pulse := ncols in
      let len_onesided := len_onesided_of len_pulse in
      fft_array <- fft_rows ncols rows ;;
      let fft_onesided := map (firstn len_onesided) fft_array in
      scale <- py_div 1 (INR len_pulse * fs) ;;
      let psd_array :=
        map (map (fun z => scale * Cabs z ^ 2)) fft_onesided in
      Ok (Array2 (Nat.min len_onesided ncols) (map double_inner psd_array))
  | _ => Raise InputShapeError
  end.

(** *** [optimal_filter] *)

Definition effective_ssf (ssf : nat) : nat :=
  if (1 <? ssf)%nat then ssf else 1%nat.

Definition np_amax (a : list R) : result R :=
  match a with
  | [] => Raise ValueError
  | v :: rest => Ok (fold_left Rmax rest v)
  end.

(** Elementwise operation with numpy broadcasting on one axis: equal
    lengths, or one operand of length one. *)
Definition broadcast {A B D : Type} (f : A -> B -> D)
    (a : list A) (b : list B) : result (list D) :=
  if (length a =? length b)%nat then Ok (map2 f a b)
  else match a, b with
       | [x], _ => Ok (map (f x) b)
       | _, [y] => Ok (map (fun x => f x y) a)
       | _, _ => Raise ValueError
       end.

Definition compatible (n m : nat) : bool :=
  ((n =? m) || (n =? 1) || (m =? 1))%nat.

Fixpoint map_result {A B : Type} (f : A -> result B) (l : list A)
    : result (list B) :=
  match l with
  | [] => Ok []
  | x :: l' => y <- f x ;; ys <- map_result f l' ;; Ok (y :: ys)
  end.

(** Rank 2 (rows of [ncols] entries) against rank 1, row by row. *)
Definition broadcast_rows {A B D : Type} (f : A -> B -> D)
    (ncols : nat) (rows : list (list A)) (b : list B)
    : result (list (list D)) :=
  if compatible ncols (length b)
  then map_result (fun r => broadcast f r b) rows
  else Raise ValueError.

Definition vector_of (a : ndarray) : result (list R) :=
  match a with Array1 v => Ok v | _ => Raise ValueError end.

Definition rows_of (a : ndarray) : result (nat * list (list R)) :=
  match a with Array2 n rows => Ok (n, rows) | _ => Raise ValueError end.

(** [a[1:-1]] *)
Definition inner {A : Type} (a : list A) : list A := removelast (tl a).

Definition mean (a : list R) : R := Rsum a / INR (length a).

(** [np.mean(a, axis=0)] on rows of [ncols] entries. *)
Definition mean_axis0 (ncols : nat) (rows : list (list R)) : list R :=
  map (fun j => mean (map (fun r => nth j r 0) rows)) (seq 0 ncols).

(** The function returns the heights, the resolving power and the mean PSD
    of the pulses. *)
Definition optimal_filter (pulses : ndarray) (pulse_model : list R)
    (sf : R) (ssf : nat) (Nxx : list R) : result (list R * R * list R) :=
  let ssf := effective_ssf ssf in
  shape <- rows_of pulses ;;
  let len_pulse := fst shape in
  let rows := snd shape in
  let pw := (len_pulse / ssf)%nat in
  let len_onesided := len_onesided_of pw in
  (* normalized pulse model *)
  top <- np_amax pulse_model ;;
  let norm_pulse_model := map (fun v => v / top) pulse_model in
  (* step 1 *)
  Mxx <- (p <- psd (Array1 norm_pulse_model) (sf * INR ssf) ;; vector_of p) ;;
  Mf_full <- fft norm_pulse_model ;;
  let Mf := firstn len_onesided Mf_full in
  let Mf_conj := map Cconj Mf in
  let Mf_abs := map Cabs Mf in
  (* step 2 *)
  Df_full <- fft_rows len_pulse rows ;;
  let Df := map (firstn len_onesided) Df_full in
  let Df_cols := Nat.min len_onesided len_pulse in
  Dxx <- (p <- psd pulses (sf * INR ssf) ;; rows_of p) ;;
  let mean_Dxx := mean_axis0 (fst Dxx) (snd Dxx) in
  (* step 3 *)
  let Nxx_cut := firstn len_onesided Nxx in
  prod <- broadcast_rows (fun d m => Cmult m d) Df_cols Df
            (firstn len_onesided Mf_conj) ;;
  numerator <- broadcast_rows (fun z n => Cdiv z (RtoC n))
                 (Nat.max Df_cols (length (firstn len_onesided Mf_conj)))
                 prod Nxx_cut ;;
  denominator <- broadcast (fun a n => a ^ 2 / n)
                   (firstn len_onesided Mf_abs) Nxx_cut ;;
  let int_numerator := map (fun r => Csum (skipn 1 r)) numerator in
  let int_denominator := Rsum (skipn 1 denominator) in
  let H := map (fun z => Cre (Cdiv z (RtoC int_denominator))) int_numerator in
  (* step 4 *)
  ratio <- broadcast (fun n m => 2 * n / m) Nxx_cut (firstn len_onesided Mxx) ;;
  let NEP :=
    map (fun h => map (fun r => sqrt ((1 / h) ^ 2 * r)) ratio) H in
  let dE :=
    map (fun row => 2 * sqrt (2 * ln 2)
                    * / sqrt (Rsum (map (fun v => 4 / v ^ 2) (inner row)))) NEP in
  let R_sn := mean (map (fun d => 1 / d) dE) in
  Ok (H, R_sn, mean_Dxx).

(** The height the specification states for one pulse: the sums run over the
    bins [1 .. bins - 1] of the spectra [M] of the template and [D] of the
    pulse, weighted by the noise [N]. *)
Definition spec_height (bins : nat) (M D : list C) (N : list R) : R :=
  let ks := seq 1 (bins - 1) in
  Cre (Csum (map (fun k => Cscale (/ nth k N 0)
                             (Cmult (Cconj (nth k M (0, 0))) (nth k D (0, 0))))
                 ks))
  / Rsum (map (fun k => Cabs (nth k M (0, 0)) ^ 2 / nth k N 0) ks).

(** The template divided by its largest sample. *)
Definition peak_normalized (pulse_model : list R) : list R :=
  map (fun v => v / fold_left Rmax (tl pulse_model) (hd 0 pulse_model)) pulse_model.

End Spectral.

(** ** Decay Fitter: [fit_decaytime] *)

Module Decay.

Local Open Scope R_scope.

(** The [fit_T] argument: a number, a pair, or anything else. *)
Inductive fit_T_arg : Type :=
| TScalar (t0 : R)
| TInterval (t0 t1 : R)
| TOther.

(** [exp_decay(x, a, b)], lines 556-560. *)
Definition exp_decay (x a b : R) : R := a * exp (- b * x).

Definition Rlt_bool (a b : R) : bool :=
  if Rlt_dec a b then true else false.

(** [np.linspace(0, pw, l)] *)
Definition linspace0 (pw : R) (l : nat) : list R :=
  map (fun i => INR i * (pw / INR (l - 1))) (seq 0 l).

(** Lines 533-540: the samples of the tail. *)
Definition select_tail (pulse : list R) (pw : R) (fit_T : fit_T_arg)
    : result (list R) :=
  let t := linspace0 pw (length pulse) in
  match fit_T with
  | TScalar t0 => Ok (compress (map (fun ti => Rlt_bool t0 ti) t) pulse)
  | TInterval t0 t1 =>
      Ok (compress (map (fun ti => Rlt_bool t0 ti && Rlt_bool ti t1) t) pulse)
  | TOther => Raise ConfigurationError
  end.

(** The fitted parameters [(a, b)] and the covariance matrix, by rows. *)
Definition fit : Type := ((R * R) * ((R * R) * (R * R)))%type.

Section FitDecaytime.

(** [curve_fit(f, xdata, ydata)] *)
Variable curve_fit : (R -> R -> R -> R) -> list R -> list R -> result fit.

(** The function returns [tau_qp], [dtau_qp] and [popt]. *)
Definition fit_decaytime (pulse : list R) (pw : nat) (fit_T : fit_T_arg)
    : result (R * R * (R * R)) :=
  let l := length pulse in
  match pw with
  | O => Raise ZeroDivisionError
  | S _ =>
      let ssf := (l / pw)%nat in
      fit_pulse <- select_tail pulse (INR pw) fit_T ;;
      let fit_x := map INR (seq 0 (length fit_pulse)) in
      res <- curve_fit exp_decay fit_x fit_pulse ;;
      let popt := fst res in
      let pcov := snd res in
      let perr := (sqrt (fst (fst pcov)), sqrt (snd (snd pcov))) in
      let tau_qp := 1 / snd popt / INR ssf in
      let dtau_qp := snd perr in
      Ok (tau_qp, dtau_qp, popt)
  end.

End FitDecaytime.

(** The one-standard-deviation error of [tau = 1 / (b * ssf)] that follows
    from the standard deviation [sigma_b] of the rate [b] by first-order
    propagation: [|d tau / d b| * sigma_b]. *)
Definition tau_error (b sigma_b : R) (ssf : nat) : R :=
  sigma_b / (b * b * INR ssf).

End Decay.

(** ** Coordinates: [bin2mat], [smith_coord], [coord_transformation] *)

Module Coord.

Import Spectral.
Local Open Scope R_scope.

(** [data.reshape((-1, 2))]: rows of two values; an odd number of values
    cannot be reshaped. *)
Fixpoint reshape_pairs (data : list R) : result (list (R * R)) :=
  match data with
  | [] => Ok []
  | [_] => Raise ValueError
  | i :: q :: rest => rows <- reshape_pairs rest ;; Ok ((i, q) :: rows)
  end.

(** [x % m] on floats, for [m > 0]: [x - m * floor(x / m)]. *)
Definition py_mod (x m : R) : R := x - m * IZR (Int_part (x / m)).

Section Bin2mat.

(** [np.arctan2(y, x)] *)
Variable arctan2 : R -> R -> R.

(** Lines 39-53, on the values [np.fromfile] has read.  The function
    returns the radius [R] and the phase [P]. *)
Definition bin2mat (data : list R) : result (list R * list R) :=
  rows <- reshape_pairs data ;;
  let I := map fst rows in
  let Q := map snd rows in
  let r := map2 (fun i q => sqrt (i ^ 2 + q ^ 2)) I Q in
  let R := map (fun v => v / mean r) r in
  let P := map2 arctan2 Q I in
  let P := map (fun p => PI - py_mod p (2 * PI)) P in
  Ok (R, P).

End Bin2mat.

Definition Cminus (a b : C) : C := (fst a - fst b, snd a - snd b).

(** Lines 82-98; [radius] is the argument [R]. *)
Definition smith_coord (P radius : list R) : result (list R * list R) :=
  I_r <- broadcast (fun p r => - cos p * r) P radius ;;
  Q_r <- broadcast (fun p r => sin p * r) P radius ;;
  let G := map2 (fun i q => (i, q)) I_r Q_r in
  let z := map (fun g => Cdiv (Cplus (RtoC 1) g) (Cminus (RtoC 1) g)) G in
  let R_smith := map fst z in
  let X_smith := map snd z in
  Ok (map (fun v => v - mean R_smith) R_smith,
      map (fun v => v - mean X_smith) X_smith).

(** The [coord] and [response] selectors: the strings the code compares
    with, and any other value. *)
Inductive coord_type : Type := Smith | Circle | OtherCoord.

Inductive response_type : Type :=
| ResponseR | ResponseX | ResponsePhase | ResponseAmp | OtherResponse.

Definition overshoot : R := - (5 / 10) * PI.

(** [phase[phase <= overshoot] += 2 * np.pi], written into [phase]. *)
Definition unwrap (phase : list R) : list R :=
  map (fun p => if Rle_dec p overshoot then p + 2 * PI else p) phase.

(** What a call leaves behind and gives back: the arrays [phase] and
    [dark_phase] of the caller after the call, and the value returned, the
    signal alone or with the dark signal. *)
Record outcome : Type := {
  phase_after : list R;
  dark_phase_after : list R;
  returned : result (list R * option (list R))
}.

(** Lines 101-146. *)
Definition coord_transformation (response : response_type) (coord : coord_type)
    (phase amp dark_phase dark_amp : list R) : outcome :=
  let dark_too := negb (length dark_phase =? 0)%nat in
  let phase := unwrap phase in
  let dark_phase := if dark_too then unwrap dark_phase else dark_phase in
  {| phase_after := phase;
     dark_phase_after := dark_phase;
     returned :=
       match coord with
       | Smith =>
           RX <- smith_coord phase amp ;;
           dark <- (if dark_too
                    then d <- smith_coord dark_phase dark_amp ;; Ok (Some d)
                    else Ok None) ;;
           match response with
           | ResponseR => Ok (fst RX, option_map fst dark)
           | ResponseX => Ok (snd RX, option_map snd dark)
           | _ => Raise ConfigurationError
           end
       | Circle =>
           match response with
           | ResponsePhase =>
               Ok (map (fun p => p - mean phase) phase,
                   if dark_too
                   then Some (map (fun p => p - mean dark_phase) dark_phase)
                   else None)
           | ResponseAmp =>
               let a := map (fun v => 1 - v) amp in
               let d := map (fun v => 1 - v) dark_amp in
               Ok (map (fun v => v - mean a) a,
                   if dark_too then Some (map (fun v => v - mean d) d) else None)
           | _ => Raise ConfigurationError
           end
       | OtherCoord => Raise ConfigurationError
       end |}.

(** The selections lines 115-141 accept. *)
Definition accepted (coord : coord_type) (response : response_type) : bool :=
  match coord, response with
  | Smith, ResponseR | Smith, ResponseX
  | Circle, ResponsePhase | Circle, ResponseAmp => true
  | _, _ => false
  end.

End Coord.

(** * Part II: properties *)

(** ** Pulse Detector and Aligner *)

Section DetectorFacts.

Import Detector.
Local Open Scope Z_scope.

Lemma map2_length {A B D : Type} (f : A -> B -> D) (a : list A) (b : list B) :
  length (map2 f a b) = Nat.min (length a) (length b).
Proof.
  revert b; induction a as [|x a IH]; intros [|y b]; simpl; auto.
Qed.

Lemma map2_nth {A B D : Type} (f : A -> B -> D) (a : list A) (b : list B)
    (i : nat) (da : A) (db : B) (dd : D) :
  (i < length a)%nat -> (i < length b)%nat ->
  nth i (map2 f a b) dd = f (nth i a da) (nth i b db).
Proof.
  revert b i; induction a as [|x a IH]; intros [|y b] [|i]; simpl;
    try lia; auto.
  intros Ha Hb. apply IH; lia.
Qed.

Lemma removelast_length {A : Type} (l : list A) :
  length (removelast l) = pred (length l).
Proof.
  induction l as [|x l IH]; simpl; auto.
  destruct l as [|y l]; simpl in *; auto.
Qed.

Lemma diff_locs_length (locs : list Z) :
  length (diff_locs locs) = length locs.
Proof.
  destruct locs as [|l0 rest]; auto.
  unfold diff_locs. cbn [length].
  rewrite map2_length, removelast_length. cbn [length]. lia.
Qed.

(** The first entry of [diff_locs] is the first location itself: its
    distance to the start of the signal. *)
Lemma diff_locs_first (l0 : Z) (rest : list Z) :
  nth 0 (diff_locs (l0 :: rest)) 0 = l0.
Proof. reflexivity. Qed.

Lemma removelast_nth (l : list Z) (i : nat) :
  (S i < length l)%nat -> nth i (removelast l) 0 = nth i l 0.
Proof.
  revert i; induction l as [|x l IH]; intros i Hi; simpl in *; [lia|].
  destruct l as [|y l]; simpl in *; [lia|].
  destruct i as [|i]; auto.
  apply IH. lia.
Qed.

(** Every other entry is the distance to the previous location. *)
Lemma diff_locs_next (locs : list Z) (i : nat) :
  (S i < length locs)%nat ->
  nth (S i) (diff_locs locs) 0 = nth (S i) locs 0 - nth i locs 0.
Proof.
  destruct locs as [|l0 rest]; [simpl; lia|].
  intros Hi. cbn [length] in Hi. unfold diff_locs.
  change (nth (S i) (l0 :: map2 Z.sub rest (removelast (l0 :: rest))) 0)
    with (nth i (map2 Z.sub rest (removelast (l0 :: rest))) 0).
  rewrite (@map2_nth _ _ _ Z.sub rest (removelast (l0 :: rest)) i 0 0 0).
  - rewrite removelast_nth by (cbn [length]; lia). reflexivity.
  - lia.
  - rewrite removelast_length. cbn [length]. lia.
Qed.

(** The mask of the spacing filter, entry by entry: a candidate is kept
    exactly when its distance to the previous one (for the first: to the
    start of the signal) and the distance of the next one to it both exceed
    [buffer_len]. *)
Lemma spacing_filter_nth (locs : list Z) (blen : Z) (i : nat) :
  (i < length locs)%nat ->
  nth i (spacing_filter locs blen) false =
    (blen <? nth i (diff_locs locs) 0)
    && (if (S i <? length locs)%nat
        then blen <? nth (S i) (diff_locs locs) 0 else true).
Proof.
  intros Hi. unfold spacing_filter, filter_right, filter_left.
  set (d := diff_locs locs).
  assert (Hd : length d = length locs) by apply diff_locs_length.
  set (m := map (fun x => blen <? x) d).
  assert (Hm : length m = length locs) by (unfold m; rewrite length_map; auto).
  rewrite (@map2_nth _ _ _ andb m (tl m ++ [true]) i false true false).
  - f_equal.
    + unfold m. rewrite (nth_indep _ false (blen <? 0)) by (rewrite length_map; lia).
      apply (map_nth (fun x => blen <? x)).
    + destruct (S i <? length locs)%nat eqn:E.
      * apply Nat.ltb_lt in E.
        rewrite app_nth1.
        2:{ destruct m; simpl in *; lia. }
        replace (nth i (tl m) true) with (nth (S i) m true)
          by (destruct m; simpl in *; [lia | reflexivity]).
        unfold m. rewrite (nth_indep _ true (blen <? 0)) by (rewrite length_map; lia).
        apply (map_nth (fun x => blen <? x)).
      * apply Nat.ltb_ge in E.
        rewrite app_nth2.
        2:{ destruct m; simpl in *; lia. }
        replace (i - length (tl m))%nat with 0%nat
          by (destruct m; simpl in *; lia).
        reflexivity.
  - lia.
  - rewrite length_app. destruct m; simpl in *; lia.
Qed.

(** C10.  The first candidate is dropped by the spacing filter whenever its
    location is at most [2 * buffer + pw]: the mask starts with [false], so
    the survivors are drawn from the other candidates only, and a candidate
    that is alone is dropped all the same. *)
Theorem first_candidate_near_start_dropped
    (l0 : Z) (rest : list Z) (buffer : Q) (pw : Z) :
  l0 <= 2 * buffer_samples buffer pw + pw ->
  let mask := spacing_filter (l0 :: rest) (buffer_len buffer pw) in
  hd true mask = false
  /\ compress mask (l0 :: rest) = compress (tl mask) rest
  /\ compress (spacing_filter [l0] (buffer_len buffer pw)) [l0] = [].
Proof.
  intros Hl0 mask.
  assert (Hleft : (buffer_len buffer pw <? l0) = false)
    by (apply Z.ltb_ge; unfold buffer_len; lia).
  assert (Hmask : exists t, mask = false :: t).
  { unfold mask, spacing_filter, filter_right, filter_left, diff_locs.
    cbn [map tl]. rewrite Hleft.
    destruct (map _ _); simpl; eauto. }
  destruct Hmask as [t Ht].
  repeat split.
  - rewrite Ht. reflexivity.
  - rewrite Ht. reflexivity.
  - unfold spacing_filter, filter_right, filter_left. simpl.
    rewrite Hleft. reflexivity.
Qed.

Lemma first_candidate_near_start_dropped_witness :
  let mask := spacing_filter [30; 500] (buffer_len (1 # 2) 20) in
  hd true mask = false
  /\ compress mask [30; 500] = compress (tl mask) [500]
  /\ compress (spacing_filter [30] (buffer_len (1 # 2) 20)) [30] = [].
Proof.
  apply (@first_candidate_near_start_dropped 30 [500] (1 # 2) 20).
  vm_compute. discriminate.
Defined.

(** C4.  A signal with spikes at 100, 140 and 300, [pw = 20] and
    [buffer = 0.5] ([2 * buffer + pw = 40]): the three spikes are detected,
    none is too close to the end, the first two are exactly 40 apart and the
    spacing filter drops both. *)
Theorem equal_spacing_is_dropped :
  reference_find_peaks three_spikes (1 # 2) (1 # 2)
    = [(100, 1%Q); (140, 1%Q); (300, 1%Q)]
  /\ buffer_len (1 # 2) 20 = 40
  /\ drop_last_if_too_late (Z.of_nat (length three_spikes)) 20
                           (buffer_samples (1 # 2) 20) [100; 140; 300] [1%Q; 1%Q; 1%Q]
     = ([100; 140; 300], [1%Q; 1%Q; 1%Q])
  /\ diff_locs [100; 140; 300] = [100; 40; 160]
  /\ spacing_filter [100; 140; 300] (buffer_len (1 # 2) 20) = [false; false; true]
  /\ compress (spacing_filter [100; 140; 300] (buffer_len (1 # 2) 20))
              [100; 140; 300] = [300].
Proof. split; [vm_compute; reflexivity|]. repeat split. Qed.

(** Candidates closer than [2 * buffer + pw] are both dropped. *)
Lemma close_pair_dropped (locs : list Z) (blen : Z) (i : nat) :
  (S i < length locs)%nat ->
  nth (S i) locs 0 - nth i locs 0 <= blen ->
  nth i (spacing_filter locs blen) false = false
  /\ nth (S i) (spacing_filter locs blen) false = false.
Proof.
  intros Hi Hclose.
  assert (Hd : (blen <? nth (S i) (diff_locs locs) 0) = false)
    by (rewrite diff_locs_next by lia; apply Z.ltb_ge; lia).
  split.
  - rewrite spacing_filter_nth by lia.
    replace (S i <? length locs)%nat with true
      by (symmetry; apply Nat.ltb_lt; lia).
    rewrite Hd. apply andb_false_r.
  - rewrite spacing_filter_nth by lia. rewrite Hd. reflexivity.
Qed.

(** A constant signal has no strict local maximum. *)
Lemma local_maxima_constant (c : Q) (n i : nat) :
  local_maxima_from c (repeat c n) i = [].
Proof.
  revert i; induction n as [|n IH]; intros i; simpl; auto.
  assert (H : Qle_bool c c = true) by (apply Qle_bool_iff; apply Qle_refl).
  rewrite H. simpl. apply IH.
Qed.

Lemma reference_find_peaks_constant (c : Q) (n : nat) (height prom : Q) :
  reference_find_peaks (repeat c n) height prom = [].
Proof.
  unfold reference_find_peaks, local_maxima.
  destruct n as [|n]; simpl; auto.
  rewrite local_maxima_constant. reflexivity.
Qed.

(** C9.  When the detection on the smoothed signal finds no candidate,
    [peak_model] returns the empty ensemble and empty arrays, whatever the
    other arguments. *)
Theorem no_candidate_gives_empty_output
    (find_peaks : list Q -> Q -> Q -> list (Z * Q))
    (exp_window : Z -> list Q)
    (align_and_reject :
       list Q -> list Q -> list Z -> list Q -> list Z -> Z -> result output)
    (signal smoothed : list Q) (mph mpp : Q) (pw sw : Z)
    (window : window_type) (buffer : Q) :
  smooth exp_window signal pw sw window = Ok smoothed ->
  find_peaks smoothed mph mpp = [] ->
  peak_model find_peaks exp_window align_and_reject
             signal mph mpp pw sw window buffer
  = Ok {| pulses_aligned := []; H := []; sel_locs := [];
          filtered_locs := []; pks_smoothed := [] |}.
Proof.
  intros Hs Hp. unfold peak_model. rewrite Hs. simpl. rewrite Hp. reflexivity.
Qed.

Lemma no_candidate_gives_empty_output_witness :
  peak_model reference_find_peaks (fun _ => [])
             (fun _ _ _ _ _ _ => Raise ValueError)
             (repeat 0%Q 50) 1%Q 1%Q 20 0 Box (1 # 2)
  = Ok {| pulses_aligned := []; H := []; sel_locs := [];
          filtered_locs := []; pks_smoothed := [] |}.
Proof.
  apply (@no_candidate_gives_empty_output reference_find_peaks (fun _ => [])
           (fun _ _ _ _ _ _ => Raise ValueError)
           (repeat 0%Q 50) (repeat 0%Q 50)).
  - reflexivity.
  - apply reference_find_peaks_constant.
Defined.

End DetectorFacts.

(** ** Pulse Detector and Aligner: the filters, the kernels, the cut *)

Section DetectorFilters.

Import Detector.
Local Open Scope Z_scope.

Lemma increasing_nth (l : list Z) :
  (forall k, (S k < length l)%nat -> nth k l 0 < nth (S k) l 0) ->
  forall a b, (a < b)%nat -> (b < length l)%nat -> nth a l 0 < nth b l 0.
Proof.
  intros Hstep a b Hab. induction Hab as [|b Hab IH]; intros Hb.
  - apply Hstep. assumption.
  - apply Z.lt_trans with (nth b l 0); [apply IH; lia | apply Hstep; assumption].
Qed.

Lemma compress_nth_in {A : Type} (mask : list bool) (a : list A) (d : A) :
  forall i, nth i mask false = true -> (i < length a)%nat ->
            In (nth i a d) (compress mask a).
Proof.
  revert a; induction mask as [|m mask IH]; intros a i Hm Hi.
  - destruct i; discriminate.
  - destruct a as [|x a]; [simpl in Hi; lia|].
    destruct i as [|i]; simpl in *.
    + subst m. left. reflexivity.
    + destruct m; [right|]; apply IH; auto; lia.
Qed.

(** X1.  A candidate that passes the spacing filter lies more than [buffer_len]
    after the start of the signal and more than [buffer_len] away from every
    other candidate that entered the filter (the locations ascend, as
    [find_peaks] returns them). *)
Theorem survivor_is_isolated (locs : list Z) (blen : Z) (i j : nat) :
  (forall k, (S k < length locs)%nat -> nth k locs 0 < nth (S k) locs 0) ->
  0 <= nth 0 locs 0 ->
  (i < length locs)%nat -> (j < length locs)%nat -> i <> j ->
  nth i (spacing_filter locs blen) false = true ->
  blen < nth i locs 0 /\ blen < Z.abs (nth j locs 0 - nth i locs 0).
Proof.
  intros Hinc H0 Hi Hj Hij Hkept.
  rewrite spacing_filter_nth in Hkept by assumption.
  apply andb_true_iff in Hkept. destruct Hkept as [Hl Hr].
  apply Z.ltb_lt in Hl.
  assert (Hmono := increasing_nth locs Hinc).
  assert (Hself : blen < nth i locs 0).
  { destruct i as [|i'].
    - destruct locs as [|l0 rest]; [simpl in Hi; lia|].
      rewrite diff_locs_first in Hl. exact Hl.
    - rewrite diff_locs_next in Hl by lia.
      assert (nth 0 locs 0 <= nth i' locs 0).
      { destruct i' as [|i'']; [lia|]. apply Z.lt_le_incl, Hmono; lia. }
      lia. }
  split; [exact Hself|].
  destruct (Nat.lt_ge_cases i j) as [Hlt|Hge].
  - replace (S i <? length locs)%nat with true in Hr
      by (symmetry; apply Nat.ltb_lt; lia).
    apply Z.ltb_lt in Hr. rewrite diff_locs_next in Hr by lia.
    assert (nth (S i) locs 0 <= nth j locs 0).
    { destruct (Nat.eq_dec (S i) j) as [E|E]; [subst; lia|].
      apply Z.lt_le_incl, Hmono; lia. }
    lia.
  - destruct i as [|i']; [lia|].
    rewrite diff_locs_next in Hl by lia.
    assert (nth j locs 0 <= nth i' locs 0).
    { destruct (Nat.eq_dec j i') as [E|E]; [subst; lia|].
      apply Z.lt_le_incl, Hmono; lia. }
    lia.
Qed.

Lemma survivor_is_isolated_witness :
  40 < nth 1 [50; 100; 200] 0
  /\ 40 < Z.abs (nth 2 [50; 100; 200] 0 - nth 1 [50; 100; 200] 0).
Proof.
  apply (@survivor_is_isolated [50; 100; 200] 40 1 2).
  - intros k Hk. destruct k as [|[|k]]; simpl in *; lia.
  - simpl. lia.
  - simpl. lia.
  - simpl. lia.
  - lia.
  - reflexivity.
Defined.

Lemma close_pair_dropped_witness :
  nth 0 (spacing_filter [100; 120; 300] 40) false = false
  /\ nth 1 (spacing_filter [100; 120; 300] 40) false = false.
Proof.
  apply (@close_pair_dropped [100; 120; 300] 40 0).
  - simpl. lia.
  - simpl. lia.
Defined.

Lemma last_three {A : Type} (pre : list A) (p x y d : A) :
  last (pre ++ [p; x; y]) d = y
  /\ removelast (pre ++ [p; x; y]) = pre ++ [p; x].
Proof.
  split.
  - change (pre ++ [p; x; y]) with (pre ++ [p; x] ++ [y]).
    rewrite app_assoc. apply last_last.
  - change (pre ++ [p; x; y]) with (pre ++ [p; x] ++ [y]).
    rewrite app_assoc. apply removelast_last.
Qed.

(** X2.  The check against the end of the signal looks at the last candidate
    only.  When the last candidate is dropped there, the one before it is
    passed on whatever its own location, and it passes the spacing filter as
    well when it is more than [buffer_len] after its predecessor: the
    dropped candidate no longer counts as a neighbour. *)
Theorem end_check_covers_last_candidate_only
    (pre : list Z) (p x y : Z) (length_signal pw buffer blen : Z)
    (pks : list Q) :
  length_signal < y + pw + buffer ->
  blen < x - p ->
  let locs1 :=
    fst (drop_last_if_too_late length_signal pw buffer (pre ++ [p; x; y]) pks) in
  locs1 = pre ++ [p; x]
  /\ In x (compress (spacing_filter locs1 blen) locs1).
Proof.
  intros Hlate Hfar locs1.
  destruct (last_three pre p x y 0) as [Hlast Hrem].
  assert (Hlocs : locs1 = pre ++ [p; x]).
  { unfold locs1, drop_last_if_too_late. rewrite Hlast.
    replace (length_signal <? y + pw + buffer) with true
      by (symmetry; apply Z.ltb_lt; assumption).
    simpl. exact Hrem. }
  split; [exact Hlocs|]. rewrite Hlocs.
  set (n := length pre).
  assert (Hlen : length (pre ++ [p; x]) = (n + 2)%nat)
    by (rewrite length_app; reflexivity).
  assert (Hx : nth (S n) (pre ++ [p; x]) 0 = x).
  { rewrite app_nth2 by (unfold n; lia).
    replace (S n - length pre)%nat with 1%nat by (unfold n; lia). reflexivity. }
  assert (Hp : nth n (pre ++ [p; x]) 0 = p).
  { rewrite app_nth2 by (unfold n; lia).
    replace (n - length pre)%nat with 0%nat by (unfold n; lia). reflexivity. }
  rewrite <- Hx at 1. apply compress_nth_in; [|lia].
  rewrite spacing_filter_nth by lia.
  rewrite diff_locs_next by lia. rewrite Hx, Hp, Hlen.
  replace (S (S n) <? n + 2)%nat with false
    by (symmetry; apply Nat.ltb_ge; lia).
  rewrite andb_true_r. apply Z.ltb_lt. exact Hfar.
Qed.

Lemma end_check_covers_last_candidate_only_witness :
  let locs1 :=
    fst (drop_last_if_too_late 100 20 10 ([] ++ [41; 85; 95]) [1%Q; 1%Q; 1%Q]) in
  100 < 85 + 20 + 10
  /\ locs1 = [] ++ [41; 85]
  /\ In 85 (compress (spacing_filter locs1 40) locs1).
Proof.
  split; [lia|].
  apply (@end_check_covers_last_candidate_only [] 41 85 95 100 20 10 40
           [1%Q; 1%Q; 1%Q]); lia.
Defined.

End DetectorFilters.

Section DetectorKernels.

Import Detector.
Local Open Scope Q_scope.

Lemma sum_repeat (c : Q) (n : nat) :
  fold_right Qplus 0 (repeat c n) == inject_Z (Z.of_nat n) * c.
Proof.
  induction n as [|n IH].
  - simpl. ring.
  - cbn [repeat fold_right]. rewrite IH, Nat2Z.inj_succ.
    unfold Z.succ. rewrite inject_Z_plus. ring.
Qed.

Lemma sum_map_div (s : Q) (y : list Q) :
  fold_right Qplus 0 (map (fun w => w / s) y) == fold_right Qplus 0 y / s.
Proof.
  induction y as [|w y IH]; simpl.
  - unfold Qdiv. ring.
  - rewrite IH. unfold Qdiv. ring.
Qed.

Lemma sum_positive (y : list Q) :
  y <> [] -> (forall w, In w y -> 0 < w) -> 0 < fold_right Qplus 0 y.
Proof.
  induction y as [|w y IH]; intros Hne Hpos; [congruence|].
  simpl. destruct y as [|w' y].
  - simpl. rewrite Qplus_0_r. apply Hpos. left. reflexivity.
  - assert (0 < w) by (apply Hpos; left; reflexivity).
    assert (0 < fold_right Qplus 0 (w' :: y))
      by (apply IH; [discriminate | intros v Hv; apply Hpos; right; exact Hv]).
    apply Qlt_le_trans with w; [assumption|].
    rewrite <- (Qplus_0_r w) at 1. apply Qplus_le_r.
    apply Qlt_le_weak. assumption.
Qed.

(** A kernel divided by its sum sums to one. *)
Lemma normalize_sums_to_one (y : list Q) :
  ~ fold_right Qplus 0 y == 0 -> fold_right Qplus 0 (normalize y) == 1.
Proof.
  intros Hs. unfold normalize. rewrite sum_map_div. field. exact Hs.
Qed.

(** X3.  The box kernel for [tau > 0] has [tau] weights that sum to one; the 1/t
    kernel has 99 weights that sum to one, whatever [M] and [tau] are. *)
Theorem box_and_one_over_t_kernels_are_normalized
    (exp_window : Z -> list Q) (M tau : Z) :
  ((0 < tau)%Z ->
   exists y, get_window exp_window Box M tau = Ok y
     /\ length y = Z.to_nat tau
     /\ fold_right Qplus 0 y == 1)
  /\ exists y, get_window exp_window OneOverT M tau = Ok y
       /\ length y = 99%nat
       /\ fold_right Qplus 0 y == 1.
Proof.
  split.
  - intros Htau. unfold get_window.
    replace (tau <? 0)%Z with false by (symmetry; apply Z.ltb_ge; lia).
    eexists. split; [reflexivity|]. split; [apply repeat_length|].
    rewrite sum_repeat, Z2Nat.id by lia.
    field. intros H. apply (inject_Z_injective tau 0) in H. lia.
  - eexists. split; [reflexivity|]. split.
    + unfold normalize. rewrite !length_map, length_seq. reflexivity.
    + apply normalize_sums_to_one. intros H.
      assert (Hpos : 0 < fold_right Qplus 0
                (map (fun i : nat => 1 / (1 + inject_Z (Z.of_nat i))) (seq 0 99))).
      { apply sum_positive; [discriminate|].
        intros w Hw. apply in_map_iff in Hw. destruct Hw as [i [Hw _]]. subst w.
        apply Qlt_shift_div_l.
        - assert (0 <= inject_Z (Z.of_nat i))
            by (unfold Qle; simpl; lia).
          apply Qlt_le_trans with (1 + 0); [reflexivity|].
          apply Qplus_le_r. assumption.
        - rewrite Qmult_0_l. reflexivity. }
      rewrite H in Hpos. apply (Qlt_irrefl 0). exact Hpos.
Qed.

Lemma box_and_one_over_t_kernels_are_normalized_witness :
  exists y, get_window (fun _ => []) Box 30 5 = Ok y
    /\ length y = Z.to_nat 5
    /\ fold_right Qplus 0 y == 1.
Proof.
  apply (proj1 (box_and_one_over_t_kernels_are_normalized (fun _ => []) 30 5)).
  lia.
Defined.

(** X4.  The smoothing type is looked at only when smoothing is on: with
    [sw = 0] every type gives the same result, and with smoothing on an
    unknown type ends in [UnboundLocalError]. *)
Theorem window_type_matters_only_when_smoothing
    (find_peaks : list Q -> Q -> Q -> list (Z * Q))
    (exp_window : Z -> list Q)
    (align_and_reject :
       list Q -> list Q -> list Z -> list Q -> list Z -> Z -> result output)
    (signal : list Q) (mph mpp : Q) (pw sw : Z) (buffer : Q) :
  (forall w1 w2,
     peak_model find_peaks exp_window align_and_reject
                signal mph mpp pw 0 w1 buffer
     = peak_model find_peaks exp_window align_and_reject
                  signal mph mpp pw 0 w2 buffer)
  /\ (sw <> 0%Z ->
      peak_model find_peaks exp_window align_and_reject
                 signal mph mpp pw sw OtherWindow buffer
      = Raise UnboundLocalError).
Proof.
  split.
  - intros w1 w2. reflexivity.
  - intros Hsw. unfold peak_model, smooth.
    replace (sw =? 0)%Z with false by (symmetry; apply Z.eqb_neq; assumption).
    reflexivity.
Qed.

Lemma window_type_matters_only_when_smoothing_witness :
  peak_model reference_find_peaks (fun _ => [])
             (fun _ _ _ _ _ _ => Raise ValueError)
             three_spikes (1 # 2) (1 # 2) 20 5 OtherWindow (1 # 2)
  = Raise UnboundLocalError.
Proof.
  apply (proj2 (@window_type_matters_only_when_smoothing
                  reference_find_peaks (fun _ => [])
                  (fun _ _ _ _ _ _ => Raise ValueError)
                  three_spikes (1 # 2) (1 # 2) 20 5 (1 # 2))).
  discriminate.
Defined.

End DetectorKernels.

Section DetectorCut.

Import Detector.
Local Open Scope Q_scope.

Lemma isub_slice_length (a : list Q) (start stop : Z) (c : Q) :
  length (isub_slice a start stop c) = length a.
Proof.
  unfold isub_slice. destruct (slice_bounds a start stop) as [s e].
  rewrite length_map, length_combine, length_seq. lia.
Qed.

Lemma combine_seq_nth_Q (a : list Q) (s i : nat) :
  (i < length a)%nat ->
  nth i (combine (seq s (length a)) a) (0%nat, 0) = ((s + i)%nat, nth i a 0).
Proof.
  revert s i; induction a as [|x a IH]; intros s i Hi; simpl in *; [lia|].
  destruct i as [|i].
  - f_equal. lia.
  - rewrite IH by lia. f_equal. lia.
Qed.

Lemma isub_slice_nth (a : list Q) (start stop : Z) (c : Q) (i : nat) :
  (i < length a)%nat ->
  nth i (isub_slice a start stop c) 0 =
    if ((fst (slice_bounds a start stop) <=? i)
        && (i <? snd (slice_bounds a start stop)))%nat
    then nth i a 0 - c else nth i a 0.
Proof.
  intros Hi. unfold isub_slice.
  destruct (slice_bounds a start stop) as [s e]. cbn [fst snd].
  set (f := fun p : nat * Q =>
              if ((s <=? fst p) && (fst p <? e))%nat then snd p - c else snd p).
  rewrite (nth_indep _ 0 (f (0%nat, 0)))
    by (rewrite length_map, length_combine, length_seq; lia).
  rewrite (map_nth f), combine_seq_nth_Q by assumption.
  unfold f. cbn [fst snd]. rewrite Nat.add_0_l. reflexivity.
Qed.

Lemma slice_bounds_isub (a : list Q) (start stop : Z) (c : Q) (start' stop' : Z) :
  slice_bounds (isub_slice a start stop c) start' stop'
  = slice_bounds a start' stop'.
Proof.
  unfold slice_bounds. rewrite isub_slice_length. reflexivity.
Qed.

(** X5.  The drift correction writes into the arrays it was given.  Without
    smoothing the signal and the smoothed signal are one array, and the cut
    [left .. right) of the signal ends up lowered by twice the offset; with
    smoothing the cut of each array is lowered once.  Outside the cut
    nothing changes, and the offset is the one measured before any
    subtraction. *)
Theorem drift_correction_is_written_into_the_signal
    (exp_window : Z -> list Q) (window : window_type)
    (signal smoothed : list Q) (loc align_shift buffer pw : Z) :
  let left := (loc - align_shift - buffer)%Z in
  let right := (loc + (pw - align_shift) + buffer)%Z in
  let offset := drift_offset (py_slice signal left right) buffer in
  let inside (a : list Q) (i : nat) :=
    ((fst (slice_bounds a left right) <=? i)
     && (i <? snd (slice_bounds a left right)))%nat in
  timestreams_of exp_window signal pw 0 window = Ok (Shared signal)
  /\ (exists s',
     cut_and_correct (Shared signal) loc align_shift buffer pw
       = (Shared s', offset)
     /\ length s' = length signal
     /\ forall i, (i < length signal)%nat ->
          nth i s' 0 = if inside signal i
                       then nth i signal 0 - offset - offset
                       else nth i signal 0)
  /\ (exists s' sm',
        cut_and_correct (Separate signal smoothed) loc align_shift buffer pw
          = (Separate s' sm', offset)
        /\ length s' = length signal /\ length sm' = length smoothed
        /\ (forall i, (i < length signal)%nat ->
              nth i s' 0 = if inside signal i
                           then nth i signal 0 - offset
                           else nth i signal 0)
        /\ (forall i, (i < length smoothed)%nat ->
              nth i sm' 0 = if inside smoothed i
                            then nth i smoothed 0 - offset
                            else nth i smoothed 0)).
Proof.
  intros left right offset inside. split; [reflexivity|]. split.
  - eexists. split; [reflexivity|]. split.
    + rewrite !isub_slice_length. reflexivity.
    + intros i Hi. unfold inside.
      rewrite isub_slice_nth by (rewrite isub_slice_length; assumption).
      rewrite slice_bounds_isub.
      rewrite isub_slice_nth by assumption.
      destruct ((_ <=? i) && (i <? _))%nat; reflexivity.
  - eexists. eexists. split; [reflexivity|].
    split; [apply isub_slice_length|]. split; [apply isub_slice_length|].
    split; intros i Hi; unfold inside; apply isub_slice_nth; assumption.
Qed.

End DetectorCut.

(** ** Noise Estimator *)

Section NoiseFacts.

Import Noise.
Local Open Scope Q_scope.

Variable find_peaks : list Q -> Q -> Q -> list (Z * Q).
Variable welch : list Q -> Q -> nat -> result (list Q * list Q).
Variable supersample : list Q -> nat -> result (list Q).
Variables (signal smoothed_signal : list Q) (pw : nat) (sf : Q) (ssf : nat)
          (nr_req_segments : nat) (mph mpp : Q).

Local Abbreviation segment_locs := (segment_locs find_peaks smoothed_signal pw mph mpp).
Local Abbreviation scan_body :=
  (scan_body find_peaks welch supersample signal smoothed_signal pw sf ssf mph mpp).
Local Abbreviation scan :=
  (scan find_peaks welch supersample signal smoothed_signal pw sf ssf
        nr_req_segments mph mpp).
Local Abbreviation continues := (continues signal pw nr_req_segments).

Local Abbreviation detected := (detected find_peaks smoothed_signal pw mph mpp).

Lemma detected_succ (n : nat) :
  detected (S n) = detected n ++ segment_locs n.
Proof.
  unfold detected. rewrite seq_S, flat_map_app. simpl.
  rewrite app_nil_r. reflexivity.
Qed.

(** One iteration scans exactly one more segment and records exactly the
    candidates of that segment. *)
Lemma scan_body_step (st st' : scan_state) :
  scan_body st = Ok st' ->
  nr st' = S (nr st)
  /\ locs_so_far st' = locs_so_far st ++ segment_locs (nr st)
  /\ (nr_good_segments st <= nr_good_segments st')%nat.
Proof.
  unfold Noise.scan_body.
  destruct segment_locs as [|l locs] eqn:E.
  - destruct (if (1 <? ssf)%nat then _ else _) as [seg|e]; simpl; [|discriminate].
    destruct (welch seg _ _) as [fs|e]; simpl; [|discriminate].
    destruct (iadd _ _) as [acc|e]; simpl; [|discriminate].
    intros H; inversion H; subst; clear H; simpl.
    rewrite app_nil_r. repeat split; auto; lia.
  - intros H; inversion H; subst; clear H; simpl. repeat split; auto; lia.
Qed.

(** The loop keeps the recorded candidates equal to those of the segments
    scanned so far, and never drops below the count of good segments. *)
Lemma scan_invariant (fuel : nat) : forall st st',
  scan fuel st = Ok st' ->
  locs_so_far st = detected (nr st) ->
  locs_so_far st' = detected (nr st')
  /\ (nr st <= nr st')%nat
  /\ (nr_good_segments st <= nr_good_segments st')%nat.
Proof.
  induction fuel as [|fuel IH]; intros st st' Hscan Hinv; simpl in Hscan.
  - destruct (continues st); [discriminate|].
    inversion Hscan; subst. auto.
  - destruct (continues st).
    + destruct (scan_body st) as [st1|e] eqn:Hbody; simpl in Hscan; [|discriminate].
      apply scan_body_step in Hbody. destruct Hbody as (Hnr & Hlocs & Hgood).
      destruct (IH st1 st' Hscan) as (H1 & H2 & H3).
      * rewrite Hlocs, Hnr, detected_succ, Hinv. reflexivity.
      * repeat split; auto; lia.
    + inversion Hscan; subst. auto.
Qed.

(** With a window of at least one sample the loop ends by itself: its
    result does not depend on the fuel once the fuel covers the signal. *)
Lemma scan_fuel_irrelevant (f1 : nat) : forall f2 st,
  (1 <= pw)%nat ->
  (length signal <= nr st + f1)%nat ->
  (length signal <= nr st + f2)%nat ->
  scan f1 st = scan f2 st.
Proof.
  induction f1 as [|f1 IH]; intros f2 st Hpw H1 H2.
  - assert (Hc : continues st = false).
    { unfold Noise.continues. apply andb_false_iff. right.
      apply Nat.ltb_ge. nia. }
    destruct f2; simpl; rewrite Hc; reflexivity.
  - simpl. destruct (continues st) eqn:Hc.
    + destruct f2 as [|f2].
      * exfalso. unfold Noise.continues in Hc.
        apply andb_true_iff in Hc. destruct Hc as [_ Hc].
        apply Nat.ltb_lt in Hc. nia.
      * simpl. rewrite Hc.
        destruct (scan_body st) as [st1|e] eqn:Hbody; simpl; auto.
        apply scan_body_step in Hbody. destruct Hbody as (Hnr & _ & _).
        apply IH; auto; lia.
    + destruct f2; simpl; rewrite Hc; reflexivity.
Qed.

(** So, unless the library calls themselves report it, the loop never stops
    for lack of fuel when it is given the length of the signal. *)
Lemma scan_ends (fuel : nat) : forall st,
  (1 <= pw)%nat ->
  (length signal <= nr st + fuel)%nat ->
  (forall x fs n, welch x fs n <> Raise OutOfFuel) ->
  (forall x n, supersample x n <> Raise OutOfFuel) ->
  scan fuel st <> Raise OutOfFuel.
Proof.
  induction fuel as [|fuel IH]; intros st Hpw Hlen Hw Hss; simpl.
  - assert (Hc : continues st = false).
    { unfold Noise.continues. apply andb_false_iff. right.
      apply Nat.ltb_ge. nia. }
    rewrite Hc. discriminate.
  - destruct (continues st); [|discriminate].
    destruct (scan_body st) as [st1|e] eqn:Hbody; simpl.
    + apply scan_body_step in Hbody. destruct Hbody as (Hnr & _ & _).
      apply IH; auto. lia.
    + intros He. inversion He; subst e. revert Hbody.
      unfold Noise.scan_body.
      destruct segment_locs; [|discriminate].
      destruct (1 <? ssf)%nat.
      * destruct (supersample _ _) as [seg|e] eqn:Es; simpl.
        -- destruct (welch seg _ _) as [fs|e] eqn:Ew; simpl.
           ++ unfold iadd.
              destruct (_ =? _)%nat; [discriminate|].
              destruct (snd fs) as [|y [|y' l]]; discriminate.
           ++ intros H; inversion H; subst e. apply (Hw _ _ _ Ew).
        -- intros H; inversion H; subst e. apply (Hss _ _ Es).
      * simpl. destruct (welch _ _ _) as [fs|e] eqn:Ew; simpl.
        -- unfold iadd.
           destruct (_ =? _)%nat; [discriminate|].
           destruct (snd fs) as [|y [|y' l]]; discriminate.
        -- intros H; inversion H; subst e. apply (Hw _ _ _ Ew).
Qed.

End NoiseFacts.

Section NoiseRate.

Import Noise.
Local Open Scope Q_scope.

Lemma QofN_pos (n : nat) : (1 <= n)%nat -> 0 < QofN n.
Proof.
  intros H. unfold QofN, Qlt. simpl. lia.
Qed.

(** C7.  When [noise_model] returns, at least one segment was scanned, the
    locations it returns are the candidates detected in the scanned
    segments, and the event rate is their count divided by the scanned
    duration [nr * pw / sf]; when the detector finds no candidate anywhere
    the event rate is zero. *)
Theorem event_rate_is_count_over_scanned_duration
    (find_peaks : list Q -> Q -> Q -> list (Z * Q))
    (welch : list Q -> Q -> nat -> result (list Q * list Q))
    (supersample : list Q -> nat -> result (list Q))
    (signal : list Q) (pw : nat) (sf : Q) (ssf nr_req_segments : nat)
    (mph mpp : Q) (sw : nat) (out : output) :
  noise_model find_peaks welch supersample signal pw sf ssf nr_req_segments
              mph mpp sw = Ok out ->
  exists (smoothed : list Q) (scanned : nat),
    smooth signal sw = Ok smoothed
    /\ (1 <= scanned)%nat
    /\ all_locs out = detected find_peaks smoothed pw mph mpp scanned
    /\ photon_rate out
       = QofN (length (all_locs out)) / (QofN scanned * QofN pw / sf)
    /\ ((forall i, (i < scanned)%nat ->
                    segment_locs find_peaks smoothed pw mph mpp i = []) ->
        photon_rate out == 0).
Proof.
  unfold noise_model. intros Hrun.
  destruct (smooth signal sw) as [smoothed|e] eqn:Hs; simpl in Hrun; [|discriminate].
  match type of Hrun with
  | bind (Noise.scan ?a ?b ?c ?d ?e ?f ?g ?h ?i ?j ?k ?l ?m) _ = _ =>
      destruct (Noise.scan a b c d e f g h i j k l m) as [st|e0] eqn:Hscan;
      simpl in Hrun; [|discriminate]
  end.
  apply scan_invariant in Hscan; [|reflexivity].
  destruct Hscan as (Hlocs & _ & Hgood).
  unfold finish in Hrun.
  destruct (nr_good_segments st =? 0)%nat eqn:Hg; [discriminate|].
  destruct (pw * effective_ssf ssf =? 0)%nat; [discriminate|].
  destruct (Qeq_bool sf 0); [discriminate|].
  destruct (Qeq_bool _ 0) eqn:Hel; [discriminate|].
  destruct (last_freqs st) as [f|]; [|discriminate].
  inversion Hrun; subst; clear Hrun. simpl.
  exists smoothed, (nr st).
  apply Nat.eqb_neq in Hg.
  assert (Hnr : (1 <= nr st)%nat).
  { destruct (nr st) as [|n] eqn:En; [|lia].
    exfalso. apply Qeq_bool_neq in Hel. apply Hel.
    unfold QofN. simpl. unfold Qdiv. rewrite !Qmult_0_l. reflexivity. }
  repeat split; auto.
  intros Hnone.
  rewrite Hlocs. unfold detected.
  assert (Hall : forall n,
             (forall i, (i < n)%nat ->
                        segment_locs find_peaks smoothed pw mph mpp i = []) ->
             flat_map (segment_locs find_peaks smoothed pw mph mpp) (seq 0 n) = []).
  { induction n as [|n IH]; intros Hn; [reflexivity|].
    rewrite seq_S, flat_map_app, IH by (intros i Hi; apply Hn; lia).
    simpl. rewrite Hn by lia. reflexivity. }
  rewrite (Hall _ Hnone). simpl. unfold Qdiv. apply Qmult_0_l.
Qed.

Lemma event_rate_is_count_over_scanned_duration_witness :
  example_run = Ok example_output
  /\ all_locs example_output = [3%Z]
  /\ photon_rate example_output == 1 # 18
  /\ exists (smoothed : list Q) (scanned : nat),
       smooth example_signal 0 = Ok smoothed
       /\ (1 <= scanned)%nat
       /\ all_locs example_output
          = detected Detector.reference_find_peaks smoothed 6 1 1 scanned
       /\ photon_rate example_output
          = QofN (length (all_locs example_output))
            / (QofN scanned * QofN 6 / 1)
       /\ ((forall i, (i < scanned)%nat ->
                      segment_locs Detector.reference_find_peaks smoothed 6 1 1 i
                      = []) ->
           photon_rate example_output == 0).
Proof.
  assert (Hrun : example_run = Ok example_output) by (vm_compute; reflexivity).
  split; [exact Hrun|].
  split; [reflexivity|].
  split; [reflexivity|].
  exact (@event_rate_is_count_over_scanned_duration
           Detector.reference_find_peaks flat_welch (fun s _ => Ok s)
           example_signal 6 1 1 2 1 1 0 example_output Hrun).
Defined.

End NoiseRate.

(** ** Noise Estimator: smoothing, short signals, window lengths, locations *)

Section NoiseSmoothing.

Import Noise.
Local Open Scope Q_scope.

Lemma windows_of_length (n w : nat) (a : list Q) :
  length (Detector.windows_of n w a) = n.
Proof.
  revert a; induction n as [|n IH]; intros a; simpl; auto.
Qed.

Lemma map2_repeat (x c : Q) (k : nat) :
  map2 Qmult (repeat x k) (repeat c k) = repeat (x * c) k.
Proof.
  induction k as [|k IH]; simpl; [reflexivity|]. rewrite IH. reflexivity.
Qed.

Lemma rev_repeat_Q (x : Q) (k : nat) : rev (repeat x k) = repeat x k.
Proof.
  induction k as [|k IH]; simpl; [reflexivity|].
  rewrite IH. clear IH.
  induction k as [|k IH]; simpl; [reflexivity|]. rewrite IH. reflexivity.
Qed.

Lemma firstn_repeat_Q (c : Q) : forall w n,
  firstn w (repeat c n) = repeat c (Nat.min w n).
Proof.
  induction w as [|w IH]; intros n; [reflexivity|].
  destruct n as [|n]; [reflexivity|]. simpl. rewrite IH. reflexivity.
Qed.

Lemma windows_of_constant (c : Q) (w : nat) : forall k n,
  (k + w <= n + 1)%nat ->
  Forall (fun win => win = repeat c w)
         (Detector.windows_of k w (repeat c n)).
Proof.
  induction k as [|k IH]; intros n Hk; simpl; [constructor|].
  constructor.
  - rewrite firstn_repeat_Q. f_equal. lia.
  - destruct n as [|n]; simpl.
    + apply (IH 0%nat). lia.
    + apply IH. lia.
Qed.

Lemma convolve_valid_length (a v : list Q) :
  a <> [] -> v <> [] ->
  exists s, Detector.convolve_valid a v = Ok s
    /\ length s
       = (Nat.max (length a) (length v) - Nat.min (length a) (length v) + 1)%nat.
Proof.
  intros Ha Hv. unfold Detector.convolve_valid.
  destruct a as [|x a]; [congruence|]. destruct v as [|y v]; [congruence|].
  destruct (length (y :: v) <=? length (x :: a))%nat eqn:E;
    eexists; (split; [reflexivity|]);
    rewrite length_map, windows_of_length;
    [apply Nat.leb_le in E | apply Nat.leb_gt in E]; lia.
Qed.

(** X10.  Box smoothing with a window of [sw >= 1] samples turns a signal of
    [n >= 1] samples into one of [max n sw - min n sw + 1] samples (with
    [sw <= n]: [n - sw + 1]), refuses an empty signal, and leaves the value
    of a constant signal as it is. *)
Theorem box_smoothing_shortens_and_keeps_constants
    (signal : list Q) (sw : nat) (c : Q) (n : nat) :
  (1 <= sw)%nat ->
  (signal <> [] ->
   exists s, smooth signal sw = Ok s
     /\ length s
        = (Nat.max (length signal) sw - Nat.min (length signal) sw + 1)%nat)
  /\ smooth [] sw = Raise ValueError
  /\ ((sw <= n)%nat ->
      exists s, smooth (repeat c n) sw = Ok s
        /\ length s = (n - sw + 1)%nat
        /\ Forall (fun v => v == c) s).
Proof.
  intros Hsw. destruct sw as [|k]; [lia|]. split; [|split].
  - intros Hne. unfold smooth.
    destruct (@convolve_valid_length signal (repeat (1 / QofN (S k)) (S k)))
      as [s [Hs Hlen]]; [assumption | discriminate |].
    exists s. split; [exact Hs|]. rewrite Hlen, repeat_length. reflexivity.
  - reflexivity.
  - intros Hn. unfold smooth, Detector.convolve_valid.
    destruct n as [|n]; [lia|].
    cbn [repeat].
    change (c :: repeat c n) with (repeat c (S n)).
    change (1 / QofN (S k) :: repeat (1 / QofN (S k)) k)
      with (repeat (1 / QofN (S k)) (S k)).
    rewrite !repeat_length.
    replace (S k <=? S n)%nat with true by (symmetry; apply Nat.leb_le; lia).
    eexists. split; [reflexivity|]. split.
    + rewrite length_map, windows_of_length, !repeat_length. lia.
    + apply Forall_forall. intros v Hv.
      apply in_map_iff in Hv. destruct Hv as [win [Hv Hwin]]. subst v.
      rewrite !repeat_length in Hwin.
      pose proof (@windows_of_constant c (S k) (S n - S k + 1) (S n)
                    ltac:(lia)) as Hall.
      rewrite Forall_forall in Hall. rewrite (Hall win Hwin).
      unfold Detector.dot. rewrite rev_repeat_Q, map2_repeat, sum_repeat.
      unfold QofN. field.
      intros H. apply (inject_Z_injective (Z.of_nat (S k)) 0) in H. lia.
Qed.

Lemma box_smoothing_shortens_and_keeps_constants_witness :
  exists s, smooth (repeat 3 10) 4 = Ok s
    /\ length s = (10 - 4 + 1)%nat
    /\ Forall (fun v => v == 3) s.
Proof.
  apply (proj2 (proj2 (@box_smoothing_shortens_and_keeps_constants
                         [] 4 3 10 ltac:(lia)))).
  lia.
Defined.

End NoiseSmoothing.

Section NoiseEdges.

Import Noise.
Local Open Scope Q_scope.

Variable find_peaks : list Q -> Q -> Q -> list (Z * Q).
Variable welch : list Q -> Q -> nat -> result (list Q * list Q).
Variable supersample : list Q -> nat -> result (list Q).

(** X11.  A signal of at most [pw] samples (a window that ends at the last sample
    is not scanned), or a request for zero segments, ends in
    [InsufficientDataError] once the smoothing has gone through. *)
Theorem short_signal_has_no_noise_segment
    (signal smoothed : list Q) (pw : nat) (sf : Q) (ssf nr_req_segments : nat)
    (mph mpp : Q) (sw : nat) :
  (length signal <= pw)%nat \/ nr_req_segments = 0%nat ->
  smooth signal sw = Ok smoothed ->
  noise_model find_peaks welch supersample signal pw sf ssf nr_req_segments
              mph mpp sw = Raise InsufficientDataError.
Proof.
  intros Hshort Hs. unfold noise_model. rewrite Hs. cbn [bind].
  set (st0 := initial_state _).
  assert (Hc : continues signal pw nr_req_segments st0 = false).
  { unfold continues, st0, initial_state. cbn [nr_good_segments nr].
    apply andb_false_iff. destruct Hshort as [H|H].
    - right. apply Nat.ltb_ge. lia.
    - left. apply Nat.ltb_ge. lia. }
  destruct (length signal) as [|fuel]; simpl; rewrite Hc; reflexivity.
Qed.

Variables (signal smoothed_signal : list Q) (pw : nat) (sf : Q) (ssf : nat)
          (nr_req_segments : nat) (mph mpp : Q).

Local Abbreviation scan_body :=
  (scan_body find_peaks welch supersample signal smoothed_signal pw sf ssf mph mpp).
Local Abbreviation scan :=
  (scan find_peaks welch supersample signal smoothed_signal pw sf ssf
        nr_req_segments mph mpp).

(** When the accumulator is one longer than what [welch] returns, a segment
    without pulses cannot be added: an iteration that succeeds has skipped a
    segment with pulses. *)
Lemma scan_body_shape_mismatch (st st' : scan_state) :
  (forall x fs k f s, welch x fs k = Ok (f, s) -> length s = (k / 2 + 1)%nat) ->
  (3 <= pw * ssf)%nat ->
  length (sxx_segments st) = (pw * ssf / 2 + 2)%nat ->
  scan_body st = Ok st' ->
  nr_good_segments st' = nr_good_segments st
  /\ sxx_segments st' = sxx_segments st.
Proof.
  intros Hw Hn Hlen. unfold Noise.scan_body.
  destruct (segment_locs _ _ _ _ _ _) as [|l locs].
  - destruct (if (1 <? ssf)%nat then _ else _) as [seg|e]; simpl; [|discriminate].
    destruct (welch seg _ _) as [[f s]|e] eqn:Ew; simpl; [|discriminate].
    apply Hw in Ew. unfold iadd.
    replace (length s =? length (sxx_segments st))%nat with false
      by (symmetry; apply Nat.eqb_neq; lia).
    assert (2 <= length s)%nat.
    { rewrite Ew. pose proof (Nat.div_mod_eq (pw * ssf) 2).
      pose proof (Nat.mod_upper_bound (pw * ssf) 2 ltac:(lia)). lia. }
    destruct s as [|y [|y' s]]; simpl in *; try lia; discriminate.
  - intros H; inversion H; subst; simpl. auto.
Qed.

Lemma scan_shape_mismatch (fuel : nat) : forall st st',
  (forall x fs k f s, welch x fs k = Ok (f, s) -> length s = (k / 2 + 1)%nat) ->
  (3 <= pw * ssf)%nat ->
  length (sxx_segments st) = (pw * ssf / 2 + 2)%nat ->
  scan fuel st = Ok st' ->
  nr_good_segments st' = nr_good_segments st.
Proof.
  induction fuel as [|fuel IH]; intros st st' Hw Hn Hlen Hscan; simpl in Hscan.
  - destruct (continues _ _ _ st); [discriminate|]. inversion Hscan; auto.
  - destruct (continues _ _ _ st); [|inversion Hscan; auto].
    destruct (scan_body st) as [st1|e] eqn:Hbody; simpl in Hscan; [|discriminate].
    destruct (scan_body_shape_mismatch st Hw Hn Hlen Hbody) as [Hg Hs].
    rewrite <- Hg. apply IH; auto. rewrite Hs. exact Hlen.
Qed.

(** Segments scanned so far all end before the last sample of the signal. *)
Lemma scan_stays_inside (fuel : nat) : forall st st',
  scan fuel st = Ok st' ->
  (forall i, (i < nr st)%nat -> (i * pw + pw < length signal)%nat) ->
  forall i, (i < nr st')%nat -> (i * pw + pw < length signal)%nat.
Proof.
  induction fuel as [|fuel IH]; intros st st' Hscan Hin; simpl in Hscan.
  - destruct (continues _ _ _ st); [discriminate|]. inversion Hscan; subst; auto.
  - destruct (continues _ _ _ st) eqn:Hc; [|inversion Hscan; subst; auto].
    destruct (scan_body st) as [st1|e] eqn:Hbody; simpl in Hscan; [|discriminate].
    apply scan_body_step in Hbody. destruct Hbody as (Hnr & _ & _).
    apply (IH st1 st' Hscan).
    intros i Hi. rewrite Hnr in Hi.
    destruct (Nat.eq_dec i (nr st)) as [E|E].
    + subst i. unfold continues in Hc. apply andb_true_iff in Hc.
      destruct Hc as [_ Hc]. apply Nat.ltb_lt in Hc. exact Hc.
    + apply Hin. lia.
Qed.

End NoiseEdges.

Section NoiseEdgesExample.

Import Noise.
Local Open Scope Q_scope.

Lemma short_signal_has_no_noise_segment_witness :
  noise_model Detector.reference_find_peaks flat_welch (fun s _ => Ok s)
              [0; 0; 0; 0; 0; 0] 6 1 1 2 1 1 0 = Raise InsufficientDataError.
Proof.
  apply (@short_signal_has_no_noise_segment
           Detector.reference_find_peaks flat_welch (fun s _ => Ok s)
           [0; 0; 0; 0; 0; 0] [0; 0; 0; 0; 0; 0] 6 1 1 2 1 1 0).
  - left. simpl. lia.
  - reflexivity.
Defined.

End NoiseEdgesExample.

(** ** Resolving Power Estimator *)

Section ResolvingFacts.

Import Resolving.
Local Open Scope Q_scope.

(** When the half maximum is not strictly between the lowest and the
    highest density right of the peak, [right_crossing] returns the highest
    of those densities: a value of the density, not a position. *)
Lemma right_crossing_unbracketed
    (interp1d : list Q -> list Q -> Q -> result Q)
    (x pdf : list Q) (x_max pdf_max lo hi : Q) :
  let idx_right :=
    map2 (fun p xi => Qlt_bool (pdf_max / 4) p && Qlt_bool x_max xi) pdf x in
  np_min (compress idx_right pdf) = Ok lo ->
  np_max (compress idx_right pdf) = Ok hi ->
  Qlt_bool lo (pdf_max / 2) && Qlt_bool (pdf_max / 2) hi = false ->
  right_crossing interp1d x pdf x_max pdf_max = Ok hi.
Proof.
  intros idx_right Hlo Hhi Hout. unfold right_crossing.
  fold idx_right. rewrite Hlo. simpl. rewrite Hhi. simpl.
  rewrite Hout. reflexivity.
Qed.

(** C3.  Heights [0, 1, 2] with bin width 5: the grid is [0, 0.5, 1, 1.5],
    the density peaks at [x_max = 1], and right of the peak only the point
    [1.5] remains, whose density is above the half maximum.  The right
    crossing comes out as that density, [0.3018], where the boundary of the
    grid is [1.5]; the left window then is empty and the call raises. *)
Theorem right_crossing_is_a_density_value :
  let x := [0; 1 # 2; 1; 3 # 2] in
  let pdf := [2493 # 10000; 3018 # 10000; 3182 # 10000; 3018 # 10000] in
  right_crossing linear_interp x pdf 1 (3182 # 10000) = Ok (3018 # 10000)
  /\ boundary_right x pdf 1 (3182 # 10000) = Ok (3 # 2)
  /\ left_crossing linear_interp x pdf 1 (3182 # 10000) (3018 # 10000)
     = Raise ValueError
  /\ np_arange 0 2 (5 / 10) = Ok [0 + 0 * (5 / 10); 0 + 1 * (5 / 10);
                                   0 + 2 * (5 / 10); 0 + 3 * (5 / 10)]
  /\ kde_of_0_1_2 [0; 1; 2] [0 + 0 * (5 / 10); 0 + 1 * (5 / 10);
                             0 + 2 * (5 / 10); 0 + 3 * (5 / 10)] = Ok pdf
  /\ resolving_power kde_of_0_1_2 linear_interp [0; 1; 2] 5 RNone
     = Raise ValueError.
Proof. repeat split. Qed.

End ResolvingFacts.

(** ** Resolving Power Estimator: range, grid and density *)

Section ResolvingEdges.

Import Resolving.
Local Open Scope Q_scope.

Variable kde_evaluate : list Q -> list Q -> result (list Q).
Variable interp1d : list Q -> list Q -> Q -> result Q.



End ResolvingEdges.

Section ResolvingGrid.

Import Resolving.
Local Open Scope Q_scope.


Lemma arange_empty (lo hi step : Q) (x : list Q) :
  lo == hi -> np_arange lo hi step = Ok x -> x = [].
Proof.
  intros Heq. unfold np_arange.
  destruct (Qeq_bool step 0); [discriminate|].
  assert (H0 : (hi - lo) / step == 0).
  { rewrite Heq. unfold Qdiv. ring. }
  rewrite (Qceiling_comp _ _ H0). intros H. inversion H. reflexivity.
Qed.

(** X15.  Heights that are all equal never give a resolving power: the grid from
    the smallest to the largest height is empty, and the maximum of an empty
    density cannot be taken.  (The density has one value per grid point.) *)
Theorem equal_heights_give_no_resolving_power
    (kde_evaluate : list Q -> list Q -> result (list Q))
    (interp1d : list Q -> list Q -> Q -> result Q)
    (dist : list Q) (histbin : Q) (range : range_arg)
    (out : Q * list Q * list Q) :
  (forall d x pdf, kde_evaluate d x = Ok pdf -> length pdf = length x) ->
  (forall d lo hi, restrict dist range = Ok d ->
                   np_min d = Ok lo -> np_max d = Ok hi -> lo == hi) ->
  resolving_power kde_evaluate interp1d dist histbin range <> Ok out.
Proof.
  intros Hkde Hflat Hrun. unfold resolving_power in Hrun.
  destruct (restrict dist range) as [d|e] eqn:Hr; cbn [bind] in Hrun; [|discriminate].
  destruct d as [|d0 d]; [discriminate|].
  destruct (np_min (d0 :: d)) as [lo|e] eqn:Hlo; cbn [bind] in Hrun; [|discriminate].
  destruct (np_max (d0 :: d)) as [hi|e] eqn:Hhi; cbn [bind] in Hrun; [|discriminate].
  destruct (np_arange lo hi (histbin / 10)) as [x|e] eqn:Hx;
    cbn [bind] in Hrun; [|discriminate].
  apply arange_empty in Hx; [|apply (Hflat _ _ _ eq_refl Hlo Hhi)]. subst x.
  destruct (kde_evaluate (d0 :: d) []) as [pdf|e] eqn:Hk;
    cbn [bind] in Hrun; [|discriminate].
  apply Hkde in Hk. destruct pdf; [|discriminate]. discriminate.
Qed.

Lemma equal_heights_give_no_resolving_power_witness :
  resolving_power (triangular_kde 2) linear_interp_any [5; 5; 5] 1 RNone
  <> Ok (0, [], []).
Proof.
  apply (@equal_heights_give_no_resolving_power
           (triangular_kde 2) linear_interp_any [5; 5; 5] 1 RNone).
  - intros d x pdf H. unfold triangular_kde in H.
    destruct d; [discriminate|]. inversion H. apply length_map.
  - intros d lo hi Hd Hlo Hhi. inversion Hd; subst d.
    inversion Hlo; subst lo. inversion Hhi; subst hi. reflexivity.
Defined.

Lemma arange_inside (lo hi step : Q) (x : list Q) :
  0 < step -> np_arange lo hi step = Ok x ->
  forall xi, In xi x -> lo <= xi /\ xi < hi.
Proof.
  intros Hstep. unfold np_arange.
  destruct (Qeq_bool step 0); [discriminate|].
  intros H. inversion H; subst x; clear H.
  intros xi Hxi. apply in_map_iff in Hxi. destruct Hxi as [i [Hxi Hi]].
  apply in_seq in Hi. subst xi.
  assert (Hi0 : 0 <= inject_Z (Z.of_nat i)) by (unfold Qle; simpl; lia).
  split.
  - rewrite <- (Qplus_0_r lo) at 1. apply Qplus_le_r.
    apply Qmult_le_0_compat; [assumption | apply Qlt_le_weak; assumption].
  - set (q := (hi - lo) / step) in *.
    assert (Hlt : inject_Z (Z.of_nat i) < q).
    { apply Qle_lt_trans with (inject_Z (Qceiling q - 1)).
      - rewrite <- Zle_Qle. lia.
      - apply Qceiling_lt. }
    assert (Hm : inject_Z (Z.of_nat i) * step < q * step)
      by (apply Qmult_lt_compat_r; assumption).
    assert (Hq : q * step == hi - lo).
    { unfold q. field. intros E. rewrite E in Hstep.
      apply (Qlt_irrefl 0). exact Hstep. }
    rewrite Hq in Hm.
    apply Qlt_minus_iff in Hm. apply Qlt_minus_iff.
    setoid_replace (hi + - (lo + inject_Z (Z.of_nat i) * step))
      with (hi - lo + - (inject_Z (Z.of_nat i) * step)) by ring.
    exact Hm.
Qed.

(** X16.  For a positive bin width the grid that is returned starts at the
    smallest height of the restricted distribution and stays below the
    largest one: the largest height itself is never a grid point. *)
Theorem grid_lies_between_smallest_and_largest_height
    (kde_evaluate : list Q -> list Q -> result (list Q))
    (interp1d : list Q -> list Q -> Q -> result Q)
    (dist : list Q) (histbin : Q) (range : range_arg)
    (rp : Q) (pdf' x : list Q) :
  0 < histbin ->
  resolving_power kde_evaluate interp1d dist histbin range = Ok (rp, pdf', x) ->
  exists d lo hi,
    restrict dist range = Ok d /\ np_min d = Ok lo /\ np_max d = Ok hi
    /\ nth 0 x lo == lo
    /\ forall xi, In xi x -> lo <= xi /\ xi < hi.
Proof.
  intros Hh Hrun. unfold resolving_power in Hrun.
  destruct (restrict dist range) as [d|e] eqn:Hr; cbn [bind] in Hrun; [|discriminate].
  destruct d as [|d0 d]; [discriminate|].
  destruct (np_min (d0 :: d)) as [lo|e] eqn:Hlo; cbn [bind] in Hrun; [|discriminate].
  destruct (np_max (d0 :: d)) as [hi|e] eqn:Hhi; cbn [bind] in Hrun; [|discriminate].
  destruct (np_arange lo hi (histbin / 10)) as [x0|e] eqn:Hx;
    cbn [bind] in Hrun; [|discriminate].
  destruct (kde_evaluate (d0 :: d) x0) as [pdf|e]; cbn [bind] in Hrun; [|discriminate].
  destruct (np_max pdf) as [pm|e]; cbn [bind] in Hrun; [|discriminate].
  destruct (right_crossing _ _ _ _ _) as [fr|e]; cbn [bind] in Hrun; [|discriminate].
  destruct (left_crossing _ _ _ _ _ _) as [fl|e]; cbn [bind] in Hrun; [|discriminate].
  inversion Hrun; subst; clear Hrun.
  exists (d0 :: d), lo, hi.
  split; [reflexivity|]. split; [exact Hlo|]. split; [exact Hhi|]. split.
  - unfold np_arange in Hx. destruct (Qeq_bool (histbin / 10) 0); [discriminate|].
    inversion Hx. destruct (Z.to_nat _); [reflexivity|].
    simpl. ring.
  - apply (@arange_inside lo hi (histbin / 10) x); [|exact Hx].
    apply Qlt_shift_div_l; [reflexivity|]. rewrite Qmult_0_l. exact Hh.
Qed.

Lemma grid_lies_between_smallest_and_largest_height_witness :
  exists rp pdf' x d lo hi,
    example_resolving_power = Ok (rp, pdf', x)
    /\ restrict example_heights RNone = Ok d
    /\ np_min d = Ok lo /\ np_max d = Ok hi
    /\ nth 0 x lo == lo
    /\ forall xi, In xi x -> lo <= xi /\ xi < hi.
Proof.
  destruct example_resolving_power as [[[rp pdf'] x]|e] eqn:Hrun;
    [|vm_compute in Hrun; discriminate].
  exists rp, pdf', x.
  destruct (@grid_lies_between_smallest_and_largest_height
              (triangular_kde 2) linear_interp_any example_heights 5 RNone
              rp pdf' x ltac:(reflexivity) Hrun)
    as (d & lo & hi & H).
  exists d, lo, hi. split; [reflexivity|]. exact H.
Defined.

End ResolvingGrid.
Section ResolvingDensity.

Import Resolving.
Local Open Scope Q_scope.

Lemma sum_rescaled (h n D : Q) (l : list Q) :
  fold_right Qplus 0 (map (fun p => p * h * n / D) l)
  == fold_right Qplus 0 l * h * n / D.
Proof.
  induction l as [|p l IH]; simpl.
  - unfold Qdiv. ring.
  - rewrite IH. unfold Qdiv. ring.
Qed.

(** X17.  The density curve that is returned is the kernel density rescaled so
    that its area over the grid (sum times the grid step [histbin / 10]) is
    that of a histogram of the heights with bins of width [histbin]: number
    of heights times [histbin]. *)
Theorem returned_density_has_the_area_of_the_histogram
    (kde_evaluate : list Q -> list Q -> result (list Q))
    (interp1d : list Q -> list Q -> Q -> result Q)
    (dist : list Q) (histbin : Q) (range : range_arg)
    (rp : Q) (pdf' x : list Q) :
  resolving_power kde_evaluate interp1d dist histbin range = Ok (rp, pdf', x) ->
  exists d pdf,
    restrict dist range = Ok d /\ kde_evaluate d x = Ok pdf
    /\ length pdf' = length pdf
    /\ (~ fold_right Qplus 0 pdf == 0 ->
        fold_right Qplus 0 pdf' * (histbin / 10)
        == inject_Z (Z.of_nat (length d)) * histbin).
Proof.
  intros Hrun. unfold resolving_power in Hrun.
  destruct (restrict dist range) as [d|e] eqn:Hr; cbn [bind] in Hrun; [|discriminate].
  destruct d as [|d0 d]; [discriminate|].
  destruct (np_min (d0 :: d)) as [lo|e] eqn:Hlo; cbn [bind] in Hrun; [|discriminate].
  destruct (np_max (d0 :: d)) as [hi|e] eqn:Hhi; cbn [bind] in Hrun; [|discriminate].
  destruct (np_arange lo hi (histbin / 10)) as [x0|e] eqn:Hx;
    cbn [bind] in Hrun; [|discriminate].
  destruct (kde_evaluate (d0 :: d) x0) as [pdf|e] eqn:Hk;
    cbn [bind] in Hrun; [|discriminate].
  destruct (np_max pdf) as [pm|e]; cbn [bind] in Hrun; [|discriminate].
  destruct (right_crossing _ _ _ _ _) as [fr|e]; cbn [bind] in Hrun; [|discriminate].
  destruct (left_crossing _ _ _ _ _ _) as [fl|e]; cbn [bind] in Hrun; [|discriminate].
  inversion Hrun; subst; clear Hrun.
  exists (d0 :: d), pdf.
  split; [reflexivity|]. split; [exact Hk|]. split; [apply length_map|].
  intros Hsum.
  assert (Hh : ~ histbin == 0).
  { intros E. unfold np_arange in Hx.
    replace (Qeq_bool (histbin / 10) 0) with true in Hx; [discriminate|].
    symmetry. apply Qeq_bool_iff. rewrite E. reflexivity. }
  change (inject_Z (Z.of_nat (length (d0 :: d))))
    with (inject_Z (Z.pos (Pos.of_succ_nat (length d)))).
  generalize (inject_Z (Z.pos (Pos.of_succ_nat (length d)))). intros n.
  rewrite sum_rescaled. field. split; assumption.
Qed.

Lemma returned_density_has_the_area_of_the_histogram_witness :
  exists rp pdf' x d pdf,
    example_resolving_power = Ok (rp, pdf', x)
    /\ restrict example_heights RNone = Ok d
    /\ triangular_kde 2 d x = Ok pdf
    /\ length pdf' = length pdf
    /\ (~ fold_right Qplus 0 pdf == 0 ->
        fold_right Qplus 0 pdf' * (5 / 10)
        == inject_Z (Z.of_nat (length d)) * 5).
Proof.
  destruct example_resolving_power as [[[rp pdf'] x]|e] eqn:Hrun;
    [|vm_compute in Hrun; discriminate].
  exists rp, pdf', x.
  destruct (@returned_density_has_the_area_of_the_histogram
              (triangular_kde 2) linear_interp_any example_heights 5 RNone
              rp pdf' x Hrun)
    as (d & pdf & H).
  exists d, pdf. split; [reflexivity|]. exact H.
Defined.

End ResolvingDensity.

(** ** Spectral Estimator *)

Section SpectralFacts.

Import Spectral.
Local Open Scope R_scope.

(** *** Rounding of half-integers *)

Lemma py_round_half (z : Z) :
  py_round (inject_Z z / 2) =
    (if (z mod 4 =? 3)%Z then z / 2 + 1 else z / 2)%Z.
Proof.
  unfold py_round.
  assert (Hf : Qfloor (inject_Z z / 2) = (z / 2)%Z).
  { unfold Qfloor, Qdiv, Qmult, Qinv, inject_Z. simpl. f_equal. lia. }
  rewrite Hf. clear Hf.
  unfold Qcompare, Qminus, Qplus, Qopp, Qdiv, Qmult, Qinv, inject_Z. simpl.
  pose proof (Zmod_even (z / 2)) as Hm.
  destruct (Z.compare_spec ((z * 1 * 1 + - (z / 2) * 2) * 2) 2) as [H|H|H];
    destruct (Z.eqb_spec (z mod 4) 3); destruct (Z.even (z / 2));
    try reflexivity; exfalso; Z.div_mod_to_equations; lia.
Qed.

(** [round(n / 2) + 1] is [n // 2 + 1], except that a length of the form
    [4 q + 3] gives one more. *)
Lemma len_onesided_of_spec (n : nat) :
  len_onesided_of n = (n / 2 + (if (n mod 4 =? 3)%nat then 2 else 1))%nat.
Proof.
  unfold len_onesided_of. rewrite py_round_half.
  change 2%Z with (Z.of_nat 2). change 4%Z with (Z.of_nat 4).
  rewrite <- Nat2Z.inj_div, <- Nat2Z.inj_mod.
  destruct (Nat.eqb_spec (n mod 4) 3);
    destruct (Z.eqb_spec (Z.of_nat (n mod 4)) 3); lia.
Qed.

(** *** Complex numbers and the transform *)

Lemma Cabs_sq (z : C) : Cabs z ^ 2 = fst z * fst z + snd z * snd z.
Proof. unfold Cabs. apply pow2_sqrt. nra. Qed.

Lemma Cabs_sq_nonneg (z : C) : 0 <= Cabs z ^ 2.
Proof. apply pow2_ge_0. Qed.

Lemma dft_length (x : list R) : length (dft x) = length x.
Proof. unfold dft. rewrite length_map, length_seq. reflexivity. Qed.

Lemma dft_nth (x : list R) (k : nat) :
  (k < length x)%nat -> nth k (dft x) (0, 0) = dft_bin x k.
Proof.
  intros Hk. unfold dft.
  rewrite (nth_indep _ (0, 0) (dft_bin x 0)) by (rewrite length_map, length_seq; lia).
  rewrite (map_nth (dft_bin x)). rewrite seq_nth by lia. reflexivity.
Qed.

Lemma Csum_zero_samples (N k s m : nat) :
  Csum (map (fun p => Cscale (snd p) (twiddle N k (fst p)))
            (combine (seq s m) (repeat 0 m))) = (0, 0).
Proof.
  revert s; induction m as [|m IH]; intros s; simpl; auto.
  rewrite IH. unfold Cplus, Cscale. simpl. f_equal; ring.
Qed.

(** The transform of a single sample at index zero is flat. *)
Lemma dft_bin_delta (a : R) (m k : nat) :
  dft_bin (a :: repeat 0 m) k = (a, 0).
Proof.
  unfold dft_bin. cbn [length seq combine map Csum fold_right fst snd].
  rewrite repeat_length.
  change (fold_right Cplus (0, 0)
            (map (fun p => Cscale (snd p) (twiddle (S m) k (fst p)))
                 (combine (seq 1 m) (repeat 0 m))))
    with (Csum (map (fun p => Cscale (snd p) (twiddle (S m) k (fst p)))
                    (combine (seq 1 m) (repeat 0 m)))).
  rewrite Csum_zero_samples.
  unfold Cplus, Cscale, twiddle. cbn [fst snd]. change (INR 0) with 0.
  replace (2 * PI * INR k * 0 / INR (S m)) with 0
    by (unfold Rdiv; ring).
  rewrite cos_0, sin_0. f_equal; ring.
Qed.

(** *** [psd] on one sequence *)

Lemma double_inner_length (a : list R) :
  length (double_inner a) = length a.
Proof.
  unfold double_inner.
  rewrite length_map, length_combine, length_seq. lia.
Qed.

Lemma combine_seq_nth (a : list R) (s i : nat) :
  (i < length a)%nat ->
  nth i (combine (seq s (length a)) a) (0%nat, 0) = ((s + i)%nat, nth i a 0).
Proof.
  revert s i; induction a as [|x a IH]; intros s i Hi; simpl in *; [lia|].
  destruct i as [|i].
  - f_equal. lia.
  - rewrite IH by lia. f_equal. lia.
Qed.

(** [a[1:-1] *= 2], entry by entry. *)
Lemma double_inner_nth (a : list R) (i : nat) :
  (i < length a)%nat ->
  nth i (double_inner a) 0 =
    if ((1 <=? i) && (S i <? length a))%nat then 2 * nth i a 0 else nth i a 0.
Proof.
  intros Hi. unfold double_inner.
  set (f := fun p : nat * R =>
              if ((1 <=? fst p) && (S (fst p) <? length a))%nat
              then 2 * snd p else snd p).
  rewrite (nth_indep _ 0 (f (0%nat, 0)))
    by (rewrite length_map, length_combine, length_seq; lia).
  rewrite (map_nth f), combine_seq_nth by lia.
  unfold f. simpl. reflexivity.
Qed.

Lemma double_inner_nonneg (a : list R) :
  Forall (fun v => 0 <= v) a -> Forall (fun v => 0 <= v) (double_inner a).
Proof.
  intros Ha. unfold double_inner. apply Forall_forall.
  intros v Hv. apply in_map_iff in Hv. destruct Hv as [[i y] [Hv Hin]].
  apply in_combine_r in Hin. rewrite Forall_forall in Ha.
  specialize (Ha y Hin). cbn [fst snd] in Hv. cbv beta in Ha.
  destruct ((1 <=? i) && (S i <? length a))%nat; subst; lra.
Qed.

(** The one-sided values [psd] computes for a sequence [v] at rate [fs]. *)
Lemma psd_rank1 (v : list R) (fs : R) :
  v <> [] -> fs <> 0 ->
  psd (Array1 v) fs =
    Ok (Array1 (double_inner
                  (map (fun z => 1 / (INR (length v) * fs) * Cabs z ^ 2)
                       (firstn (len_onesided_of (length v)) (dft v))))).
Proof.
  intros Hv Hfs. unfold psd, fft.
  destruct v as [|x v]; [congruence|]. cbn [bind].
  unfold py_div.
  destruct (Req_dec_T (INR (length (x :: v)) * fs) 0) as [E|E].
  - exfalso. apply Rmult_integral in E. destruct E as [E|E]; [|auto].
    revert E. apply not_0_INR. simpl. lia.
  - reflexivity.
Qed.

Lemma psd_rank1_length (v : list R) (fs : R) :
  v <> [] -> fs <> 0 ->
  exists p, psd (Array1 v) fs = Ok (Array1 p)
    /\ length p
       = (length v / 2 + (if (length v mod 4 =? 3)%nat then 2 else 1))%nat.
Proof.
  intros Hv Hfs. eexists. split; [apply psd_rank1; assumption|].
  rewrite double_inner_length, length_map, length_firstn, dft_length.
  rewrite len_onesided_of_spec.
  assert (Hn : (1 <= length v)%nat) by (destruct v; [congruence|simpl; lia]).
  pose proof (Nat.div_mod_eq (length v) 2) as H2.
  pose proof (Nat.mod_upper_bound (length v) 2 ltac:(lia)) as B2.
  destruct (Nat.eqb_spec (length v mod 4) 3) as [E|E]; [|lia].
  pose proof (Nat.div_mod_eq (length v) 4) as H4. lia.
Qed.

(** On a non-empty sequence at a positive rate no value of the PSD is
    negative. *)
Lemma psd_rank1_nonneg (v : list R) (fs : R) :
  v <> [] -> 0 < fs ->
  exists p, psd (Array1 v) fs = Ok (Array1 p) /\ Forall (fun y => 0 <= y) p.
Proof.
  intros Hv Hfs. eexists. split; [apply psd_rank1; [assumption|lra]|].
  apply double_inner_nonneg. apply Forall_forall.
  intros y Hy. apply in_map_iff in Hy. destruct Hy as [z [Hy _]]. subst y.
  assert (Hn : 0 < INR (length v)).
  { apply lt_0_INR. destruct v; [congruence|simpl; lia]. }
  apply Rmult_le_pos; [|apply Cabs_sq_nonneg].
  unfold Rdiv. rewrite Rmult_1_l. left. apply Rinv_0_lt_compat.
  apply Rmult_lt_0_compat; assumption.
Qed.

(** For a length that is not of the form [4 q + 3] the PSD has
    [N // 2 + 1] values. *)
Lemma psd_rank1_length_regular (v : list R) (fs : R) :
  v <> [] -> fs <> 0 -> (length v mod 4 <> 3)%nat ->
  exists p, psd (Array1 v) fs = Ok (Array1 p)
    /\ length p = (length v / 2 + 1)%nat.
Proof.
  intros Hv Hfs Hmod.
  destruct (psd_rank1_length Hv Hfs) as [p [Hp Hlen]].
  exists p. split; [assumption|].
  rewrite Hlen. destruct (Nat.eqb_spec (length v mod 4) 3); [contradiction|lia].
Qed.

(** C2.  Three samples at rate 1: the PSD comes out with three values, one
    more than [3 // 2 + 1 = 2]. *)
Theorem psd_of_three_samples_has_three_values :
  exists p, psd (Array1 [1; 2; 3]) 1 = Ok (Array1 p)
    /\ length p = 3%nat
    /\ (3 / 2 + 1 = 2)%nat.
Proof.
  destruct (@psd_rank1_length [1; 2; 3] 1) as [p [Hp Hlen]];
    [discriminate | lra |].
  exists p. repeat split; assumption.
Qed.

(** Value by value: bin [k] is [|FFT[k]|^2 / (N fs)], doubled when it is
    neither the first nor the last value returned. *)
Lemma psd_rank1_bin (v : list R) (fs : R) (k : nat) :
  v <> [] -> fs <> 0 ->
  exists p, psd (Array1 v) fs = Ok (Array1 p)
    /\ ((k < length p)%nat ->
        nth k p 0 =
          (if ((1 <=? k) && (S k <? length p))%nat then 2 else 1)
          * (1 / (INR (length v) * fs) * Cabs (dft_bin v k) ^ 2)).
Proof.
  intros Hv Hfs. eexists. split; [apply psd_rank1; assumption|].
  intros Hk.
  assert (Hk' := Hk). rewrite double_inner_length in Hk'.
  rewrite double_inner_nth by assumption.
  rewrite double_inner_length.
  set (f := fun z : C => 1 / (INR (length v) * fs) * Cabs z ^ 2).
  assert (Hnth : nth k (map f (firstn (len_onesided_of (length v)) (dft v))) 0
                 = f (dft_bin v k)).
  { rewrite length_map in Hk'.
    rewrite (nth_indep _ 0 (f (0, 0))) by (rewrite length_map; assumption).
    rewrite (map_nth f).
    rewrite length_firstn, dft_length in Hk'.
    rewrite nth_firstn.
    replace (k <? len_onesided_of (length v))%nat with true
      by (symmetry; apply Nat.ltb_lt; lia).
    rewrite dft_nth by lia. reflexivity. }
  rewrite Hnth. unfold f.
  destruct ((1 <=? k) && (S k <? _))%nat; ring.
Qed.

(** For an even length the values returned are the bins [0 .. N/2]: all are
    doubled except DC and Nyquist. *)
Lemma psd_rank1_even (v : list R) (fs : R) (k : nat) :
  v <> [] -> fs <> 0 -> (length v mod 2 = 0)%nat -> (k <= length v / 2)%nat ->
  exists p, psd (Array1 v) fs = Ok (Array1 p)
    /\ length p = (length v / 2 + 1)%nat
    /\ nth k p 0 =
         (if ((1 <=? k) && (k <? length v / 2))%nat then 2 else 1)
         * (1 / (INR (length v) * fs) * Cabs (dft_bin v k) ^ 2).
Proof.
  intros Hv Hfs Heven Hk.
  destruct (psd_rank1_bin k Hv Hfs) as [p [Hp Hbin]].
  destruct (psd_rank1_length Hv Hfs) as [p' [Hp' Hlen]].
  rewrite Hp in Hp'. inversion Hp'; subst p'. clear Hp'.
  assert (Hlen' : length p = (length v / 2 + 1)%nat).
  { rewrite Hlen. destruct (Nat.eqb_spec (length v mod 4) 3) as [E|E]; [|lia].
    exfalso. pose proof (Nat.div_mod_eq (length v) 4).
    pose proof (Nat.div_mod_eq (length v) 2). lia. }
  exists p. repeat split; auto.
  rewrite Hbin by lia. rewrite Hlen'.
  replace (S k <? length v / 2 + 1)%nat with (k <? length v / 2)%nat; auto.
  destruct (Nat.ltb_spec k (length v / 2)); symmetry;
    [apply Nat.ltb_lt | apply Nat.ltb_ge]; lia.
Qed.

(** C5.  Five samples [1, 0, 0, 0, 0] at rate 1.  Every bin of the FFT is 1,
    so [|FFT[k]|^2 / (N fs) = 1/5]; there is no Nyquist bin, and bin 2 is
    returned as [1/5], not doubled. *)
Theorem psd_of_odd_length_leaves_last_bin_single :
  psd (Array1 [1; 0; 0; 0; 0]) 1 = Ok (Array1 [1 / 5; 2 / 5; 1 / 5])
  /\ Cabs (dft_bin [1; 0; 0; 0; 0] 2) ^ 2 / (5 * 1) = 1 / 5.
Proof.
  assert (Hbin : forall k, dft_bin [1; 0; 0; 0; 0] k = (1, 0))
    by (intros k; apply (dft_bin_delta 1 4 k)).
  split.
  - rewrite psd_rank1 by (try discriminate; lra).
    assert (Hlen : len_onesided_of (length [1; 0; 0; 0; 0]) = 3%nat)
      by (rewrite len_onesided_of_spec; reflexivity).
    assert (Hdft : dft [1; 0; 0; 0; 0] = repeat (1, 0) 5)
      by (unfold dft; simpl; rewrite !Hbin; reflexivity).
    rewrite Hlen, Hdft.
    set (f := fun z : C => 1 / (INR (length [1; 0; 0; 0; 0]) * 1) * Cabs z ^ 2).
    assert (Hval : f (1, 0) = 1 / 5)
      by (unfold f; rewrite Cabs_sq; simpl; field).
    change (map f (firstn 3 (repeat (1, 0) 5)))
      with [f (1, 0); f (1, 0); f (1, 0)].
    rewrite Hval. unfold double_inner. simpl.
    replace (2 * (1 / 5)) with (2 / 5) by field. reflexivity.
  - rewrite Hbin, Cabs_sq. cbn [fst snd]. field.
Qed.

(** On rows of at least one sample and at a non-zero rate, [psd] returns a
    rank-2 array. *)
Lemma psd_rank2 (ncols : nat) (rows : list (list R)) (fs : R) :
  (1 <= ncols)%nat -> fs <> 0 ->
  exists n r, psd (Array2 ncols rows) fs = Ok (Array2 n r).
Proof.
  intros Hn Hfs. destruct ncols as [|n]; [lia|].
  unfold psd, fft_rows. cbn [bind]. unfold py_div.
  destruct (Req_dec_T (INR (S n) * fs) 0) as [E|E].
  - exfalso. apply Rmult_integral in E. destruct E as [E|E]; [|auto].
    revert E. apply not_0_INR. lia.
  - eexists. eexists. reflexivity.
Qed.

(** C8, refuting input: a rank-0 array is
    rejected with the shape error although its rank is not above two. *)
Lemma psd_rank0_raises_shape_error :
  ~ (psd (Array0 1) 1 = Raise InputShapeError <-> (2 < ndim (Array0 1))%nat).
Proof.
  intros [H _]. specialize (H eq_refl). simpl in H. lia.
Qed.

(** C8.  [psd] raises the shape error exactly when the rank is neither one
    nor two; on rank one or two, with at least one sample per sequence and a
    non-zero rate, it returns an array of the same rank. *)
Theorem psd_rank_check (a : ndarray) (fs : R) :
  (psd a fs = Raise InputShapeError <-> (ndim a <> 1 /\ ndim a <> 2)%nat)
  /\ ((ndim a = 1 \/ ndim a = 2)%nat ->
      (1 <= sequence_length a)%nat -> fs <> 0 ->
      exists p, psd a fs = Ok p /\ ndim p = ndim a).
Proof.
  split.
  - destruct a as [x|v|ncols rows|d0 d1 d2 more data]; simpl.
    + split; [intros _; lia | reflexivity].
    + split; [|lia]. intros H. exfalso.
      destruct v as [|x v]; simpl in H; [discriminate|].
      unfold py_div in H. destruct (Req_dec_T _ 0); discriminate.
    + split; [|lia]. intros H. exfalso.
      destruct ncols as [|n]; simpl in H; [discriminate|].
      unfold py_div in H. destruct (Req_dec_T _ 0); discriminate.
    + split; [intros _; lia | reflexivity].
  - intros Hrank Hlen Hfs.
    destruct a as [x|v|ncols rows|d0 d1 d2 more data]; simpl in Hrank, Hlen;
      try lia.
    + eexists. split; [apply psd_rank1; [|assumption]|reflexivity].
      destruct v; [simpl in Hlen; lia|discriminate].
    + destruct (@psd_rank2 ncols rows fs Hlen Hfs) as [n [r Hp]].
      exists (Array2 n r). split; [assumption|reflexivity].
Qed.

Lemma psd_rank_check_witness :
  exists p, psd (Array1 [1; 2]) 1 = Ok p /\ ndim p = ndim (Array1 [1; 2]).
Proof.
  apply (proj2 (psd_rank_check (Array1 [1; 2]) 1)).
  - left. reflexivity.
  - simpl. lia.
  - lra.
Defined.

End SpectralFacts.

(** ** Optimal Filter *)

Section OptimalFilterFacts.

Import Spectral.
Local Open Scope R_scope.

Lemma broadcast_same {A B D : Type} (f : A -> B -> D) (a : list A) (b : list B) :
  length a = length b -> broadcast f a b = Ok (map2 f a b).
Proof.
  intros H. unfold broadcast. rewrite H, Nat.eqb_refl. reflexivity.
Qed.

Lemma map_result_ok {A B : Type} (f : A -> result B) (g : A -> B) (l : list A) :
  (forall x, In x l -> f x = Ok (g x)) -> map_result f l = Ok (map g l).
Proof.
  induction l as [|x l IH]; intros H; simpl; auto.
  rewrite (H x) by (left; reflexivity). simpl.
  rewrite IH by (intros y Hy; apply H; right; assumption). reflexivity.
Qed.

Lemma broadcast_rows_same {A B D : Type} (f : A -> B -> D)
    (ncols : nat) (rows : list (list A)) (b : list B) :
  ncols = length b ->
  (forall r, In r rows -> length r = ncols) ->
  broadcast_rows f ncols rows b = Ok (map (fun r => map2 f r b) rows).
Proof.
  intros Hn Hrows. unfold broadcast_rows, compatible.
  rewrite Hn, Nat.eqb_refl. simpl.
  apply map_result_ok. intros r Hr. apply broadcast_same.
  rewrite (Hrows r Hr). assumption.
Qed.

Lemma list_as_map_nth {A : Type} (d : A) (l : list A) :
  l = map (fun k => nth k l d) (seq 0 (length l)).
Proof.
  induction l as [|x l IH]; simpl; auto.
  f_equal. rewrite <- seq_shift, map_map. exact IH.
Qed.

(** [a[1:]] as the entries at the indices [1 .. len - 1]. *)
Lemma skipn1_as_map_nth {A : Type} (d : A) (l : list A) :
  skipn 1 l = map (fun k => nth k l d) (seq 1 (length l - 1)).
Proof.
  destruct l as [|x l]; simpl; auto.
  rewrite Nat.sub_0_r, <- seq_shift, map_map. apply list_as_map_nth.
Qed.

Lemma Cdiv_real (z : C) (n : R) :
  n <> 0 -> Cdiv z (RtoC n) = Cscale (/ n) z.
Proof.
  intros Hn. unfold Cdiv, Cscale, RtoC. simpl. f_equal; field; assumption.
Qed.

Lemma len_onesided_of_le (L s : nat) :
  (1 <= L)%nat -> (1 <= s)%nat -> (len_onesided_of (L / s) <= L)%nat.
Proof.
  intros HL Hs. rewrite len_onesided_of_spec.
  assert (Hpw : (L / s <= L)%nat) by (apply Nat.Div0.div_le_upper_bound; nia).
  pose proof (Nat.div_mod_eq (L / s) 2) as H2.
  pose proof (Nat.mod_upper_bound (L / s) 2 ltac:(lia)) as B2.
  destruct (Nat.eqb_spec ((L / s) mod 4) 3) as [E|E].
  - pose proof (Nat.div_mod_eq (L / s) 4) as H4. lia.
  - lia.
Qed.

Lemma nth_firstn_lt {A : Type} (k m : nat) (l : list A) (d : A) :
  (k < m)%nat -> nth k (firstn m l) d = nth k l d.
Proof.
  intros Hk. rewrite nth_firstn.
  replace (k <? m)%nat with true by (symmetry; apply Nat.ltb_lt; assumption).
  reflexivity.
Qed.

(** [(f(a, b))[1:]] for two arrays of [n] entries, index by index. *)
Lemma skipn1_map2 {A B D : Type} (f : A -> B -> D)
    (a : list A) (b : list B) (da : A) (db : B) (n : nat) :
  length a = n -> length b = n ->
  skipn 1 (map2 f a b)
  = map (fun k => f (nth k a da) (nth k b db)) (seq 1 (n - 1)).
Proof.
  intros Ha Hb.
  rewrite (skipn1_as_map_nth (f da db)), map2_length, Ha, Hb, Nat.min_id.
  apply map_ext_in. intros k Hk. apply in_seq in Hk.
  apply map2_nth; lia.
Qed.

Lemma len_onesided_of_mono (a b : nat) :
  (a <= b)%nat -> (len_onesided_of a <= len_onesided_of b)%nat.
Proof.
  intros Hab. rewrite !len_onesided_of_spec.
  pose proof (Nat.div_mod_eq a 2). pose proof (Nat.div_mod_eq b 2).
  pose proof (Nat.div_mod_eq a 4). pose proof (Nat.div_mod_eq b 4).
  pose proof (Nat.mod_upper_bound a 2 ltac:(lia)).
  pose proof (Nat.mod_upper_bound b 2 ltac:(lia)).
  pose proof (Nat.mod_upper_bound a 4 ltac:(lia)).
  pose proof (Nat.mod_upper_bound b 4 ltac:(lia)).
  destruct (Nat.eqb_spec (a mod 4) 3); destruct (Nat.eqb_spec (b mod 4) 3); lia.
Qed.

Lemma effective_ssf_pos (ssf : nat) : (1 <= effective_ssf ssf)%nat.
Proof.
  unfold effective_ssf. destruct (Nat.ltb_spec 1 ssf); lia.
Qed.

Lemma peak_normalized_eq (x : R) (pm : list R) :
  map (fun v => v / fold_left Rmax pm x) (x :: pm) = peak_normalized (x :: pm).
Proof. reflexivity. Qed.

(** The heights [optimal_filter] returns, with [m = round(pw / 2) + 1] bins
    of the spectra taken into account. *)
Lemma optimal_filter_heights
    (L : nat) (rows : list (list R)) (pulse_model Nxx : list R)
    (sf : R) (ssf : nat) :
  let m := len_onesided_of (L / effective_ssf ssf) in
  let M := dft (peak_normalized pulse_model) in
  (1 <= L)%nat ->
  (forall r, In r rows -> length r = L) ->
  length pulse_model = L ->
  sf <> 0 ->
  (m <= length Nxx)%nat ->
  (forall k, (k < m)%nat -> nth k Nxx 0 <> 0) ->
  Rsum (map (fun k => Cabs (nth k M (0, 0)) ^ 2 / nth k Nxx 0)
            (seq 1 (m - 1))) <> 0 ->
  exists H R_sn mean_Dxx,
    optimal_filter (Array2 L rows) pulse_model sf ssf Nxx
      = Ok (H, R_sn, mean_Dxx)
    /\ H = map (fun row => spec_height m M (dft row) Nxx) rows.
Proof.
  intros m M HL Hrows Hpm Hsf HN HN0 Hden.
  pose proof (effective_ssf_pos ssf) as Hs.
  assert (HmL : (m <= L)%nat) by (apply len_onesided_of_le; assumption).
  unfold optimal_filter. cbn [rows_of bind fst snd].
  fold m.
  destruct pulse_model as [|x pm]; [simpl in Hpm; lia|].
  cbn [np_amax bind]. rewrite peak_normalized_eq.
  set (norm := peak_normalized (x :: pm)).
  assert (Hnorm : length norm = L)
    by (unfold norm, peak_normalized; rewrite length_map; assumption).
  assert (Hnorm0 : norm <> []) by (destruct norm; [simpl in Hnorm; lia|discriminate]).
  assert (Hfs : sf * INR (effective_ssf ssf) <> 0).
  { apply Rmult_integral_contrapositive. split; [assumption|].
    apply not_0_INR. lia. }
  destruct (psd_rank1_length Hnorm0 Hfs) as [Mxx [HMxx HMlen]].
  rewrite HMxx. cbn [bind vector_of].
  assert (Hfft : fft norm = Ok (dft norm))
    by (unfold fft; destruct norm; [congruence|reflexivity]).
  rewrite Hfft. cbn [bind].
  assert (Hfftr : fft_rows L rows = Ok (map dft rows))
    by (unfold fft_rows; destruct L; [lia|reflexivity]).
  rewrite Hfftr. cbn [bind].
  destruct (@psd_rank2 L rows _ HL Hfs) as [n [Dxx HDxx]].
  rewrite HDxx. cbn [bind rows_of fst snd].
  assert (HMf : length (firstn m (map Cconj (firstn m (dft norm)))) = m)
    by (rewrite length_firstn, length_map, length_firstn, dft_length; lia).
  assert (HMa : length (firstn m (map Cabs (firstn m (dft norm)))) = m)
    by (rewrite length_firstn, length_map, length_firstn, dft_length; lia).
  assert (HNc : length (firstn m Nxx) = m) by (rewrite length_firstn; lia).
  rewrite broadcast_rows_same.
  2:{ rewrite HMf. lia. }
  2:{ intros r Hr. apply in_map_iff in Hr. destruct Hr as [d [Hd Hr]].
      apply in_map_iff in Hr. destruct Hr as [row [Hrow Hr]]. subst.
      rewrite length_firstn, dft_length, (Hrows row Hr). reflexivity. }
  cbn [bind]. rewrite HMf.
  rewrite broadcast_rows_same.
  2:{ rewrite HNc. lia. }
  2:{ intros r Hr. apply in_map_iff in Hr. destruct Hr as [d [Hd Hr]].
      apply in_map_iff in Hr. destruct Hr as [d' [Hd' Hr]].
      apply in_map_iff in Hr. destruct Hr as [row [Hrow Hr]]. subst.
      rewrite map2_length, HMf, length_firstn, dft_length, (Hrows row Hr). lia. }
  cbn [bind].
  rewrite broadcast_same by (rewrite HMa, HNc; reflexivity).
  cbn [bind].
  rewrite broadcast_same.
  2:{ rewrite HNc, length_firstn, HMlen, <- len_onesided_of_spec, Hnorm.
      assert ((m <= len_onesided_of L)%nat).
      { apply len_onesided_of_mono. apply Nat.Div0.div_le_upper_bound. nia. }
      lia. }
  cbn [bind].
  eexists. eexists. eexists. split; [reflexivity|].
  rewrite !map_map. apply map_ext_in. intros row Hrow.
  assert (HDf : length (firstn m (dft row)) = m)
    by (rewrite length_firstn, dft_length, (Hrows row Hrow); lia).
  rewrite (skipn1_map2 _ _ _ 0 0 HMa HNc).
  rewrite (@skipn1_map2 _ _ _ (fun (z : C) (n0 : R) => Cdiv z (RtoC n0))
             _ _ (0, 0) 0 m).
  2:{ rewrite map2_length, HDf, HMf. lia. }
  2:{ exact HNc. }
  assert (Hd : map (fun k => nth k (firstn m (map Cabs (firstn m (dft norm)))) 0 ^ 2
                             / nth k (firstn m Nxx) 0) (seq 1 (m - 1))
               = map (fun k => Cabs (nth k M (0, 0)) ^ 2 / nth k Nxx 0)
                     (seq 1 (m - 1))).
  { apply map_ext_in. intros k Hk. apply in_seq in Hk.
    rewrite !nth_firstn_lt by lia.
    rewrite (nth_indep _ 0 (Cabs (0, 0)))
      by (rewrite length_map, length_firstn, dft_length; lia).
    rewrite (map_nth Cabs), nth_firstn_lt by lia. reflexivity. }
  rewrite Hd.
  assert (Hn : map (fun k =>
                      Cdiv (nth k (map2 (fun d m0 : C => Cmult m0 d)
                                        (firstn m (dft row))
                                        (firstn m (map Cconj (firstn m (dft norm)))))
                                (0, 0))
                           (RtoC (nth k (firstn m Nxx) 0))) (seq 1 (m - 1))
               = map (fun k => Cscale (/ nth k Nxx 0)
                                 (Cmult (Cconj (nth k M (0, 0)))
                                        (nth k (dft row) (0, 0))))
                     (seq 1 (m - 1))).
  { apply map_ext_in. intros k Hk. apply in_seq in Hk.
    rewrite (@map2_nth _ _ _ (fun d m0 : C => Cmult m0 d) _ _ k (0, 0) (0, 0))
      by lia.
    rewrite !nth_firstn_lt by lia.
    rewrite (nth_indep _ (0, 0) (Cconj (0, 0)))
      by (rewrite length_map, length_firstn, dft_length; lia).
    rewrite (map_nth Cconj), nth_firstn_lt by lia.
    apply Cdiv_real. apply HN0. lia. }
  rewrite Hn.
  rewrite Cdiv_real by exact Hden.
  unfold spec_height, Cre, Cscale. cbn [fst]. fold M. field. exact Hden.
Qed.

(** C1.  With [pw = L // ssf] not of the form [4 q + 3], the height of every
    pulse is [Re(sum conj(M) D / N) / sum |M|^2 / N] over the bins
    [1 .. pw // 2] of the spectra of the peak-normalized template and of the
    pulse: the first [pw // 2 + 1] bins, without the DC bin. *)
Theorem optimal_filter_height_over_original_band
    (L : nat) (rows : list (list R)) (pulse_model Nxx : list R)
    (sf : R) (ssf : nat) :
  let pw := (L / effective_ssf ssf)%nat in
  let bins := (pw / 2 + 1)%nat in
  let M := dft (peak_normalized pulse_model) in
  (1 <= L)%nat ->
  (forall r, In r rows -> length r = L) ->
  length pulse_model = L ->
  sf <> 0 ->
  (pw mod 4 <> 3)%nat ->
  (bins <= length Nxx)%nat ->
  (forall k, (k < bins)%nat -> nth k Nxx 0 <> 0) ->
  Rsum (map (fun k => Cabs (nth k M (0, 0)) ^ 2 / nth k Nxx 0)
            (seq 1 (bins - 1))) <> 0 ->
  exists H R_sn mean_Dxx,
    optimal_filter (Array2 L rows) pulse_model sf ssf Nxx
      = Ok (H, R_sn, mean_Dxx)
    /\ length H = length rows
    /\ forall i, (i < length rows)%nat ->
         nth i H 0 = spec_height bins M (dft (nth i rows [])) Nxx.
Proof.
  intros pw bins M HL Hrows Hpm Hsf Hmod HN HN0 Hden.
  assert (Hbins : len_onesided_of (L / effective_ssf ssf) = bins).
  { rewrite len_onesided_of_spec. fold pw.
    destruct (Nat.eqb_spec (pw mod 4) 3); [contradiction|reflexivity]. }
  destruct (@optimal_filter_heights L rows pulse_model Nxx sf ssf)
    as (H & R_sn & mean_Dxx & Hrun & HH); try assumption;
    try (rewrite Hbins; assumption).
  exists H, R_sn, mean_Dxx. rewrite Hbins in HH.
  split; [assumption|]. subst H. split; [apply length_map|].
  intros i Hi.
  rewrite (nth_indep _ 0 (spec_height bins M (dft []) Nxx))
    by (rewrite length_map; assumption).
  apply (map_nth (fun row => spec_height bins M (dft row) Nxx)).
Qed.

(** The spectra used below: a template and a pulse of four samples. *)
Lemma Rmax_fold_1000 : fold_left Rmax [0; 0; 0] 1 = 1.
Proof.
  simpl. unfold Rmax. repeat destruct (Rle_dec _ _); lra.
Qed.

Lemma peak_normalized_1000 : peak_normalized [1; 0; 0; 0] = [1; 0; 0; 0].
Proof.
  unfold peak_normalized. cbn [tl hd]. rewrite Rmax_fold_1000.
  simpl. repeat (f_equal; [field|]). f_equal. field.
Qed.

Lemma template_spectrum (k : nat) :
  (k < 4)%nat -> nth k (dft (peak_normalized [1; 0; 0; 0])) (0, 0) = (1, 0).
Proof.
  intros Hk. rewrite peak_normalized_1000, dft_nth by (simpl; lia).
  apply (dft_bin_delta 1 3 k).
Qed.

Lemma pulse_spectrum (k : nat) :
  (k < 4)%nat ->
  nth k (dft [0; 0; 1; 0]) (0, 0) = (cos (INR k * PI), - sin (INR k * PI)).
Proof.
  intros Hk. rewrite dft_nth by (simpl; lia).
  unfold dft_bin. cbn [length seq combine map Csum fold_right fst snd].
  unfold Cplus, Cscale, twiddle. cbn [fst snd].
  replace (2 * PI * INR k * INR 2 / INR 4) with (INR k * PI)
    by (simpl; field).
  f_equal; ring.
Qed.

Lemma pulse_spectrum_1 : nth 1 (dft [0; 0; 1; 0]) (0, 0) = (-1, 0).
Proof.
  rewrite pulse_spectrum by lia.
  replace (INR 1 * PI) with PI by (simpl; ring).
  rewrite cos_PI, sin_PI.
  f_equal. ring.
Qed.

Lemma pulse_spectrum_2 : nth 2 (dft [0; 0; 1; 0]) (0, 0) = (1, 0).
Proof.
  rewrite pulse_spectrum by lia.
  replace (INR 2 * PI) with (2 * PI) by (simpl; ring).
  rewrite cos_2PI, sin_2PI.
  f_equal. ring.
Qed.

Lemma height_over_two_bins :
  spec_height 2 (dft (peak_normalized [1; 0; 0; 0])) (dft [0; 0; 1; 0])
              [1; 1; 1] = -1.
Proof.
  unfold spec_height. cbn [Nat.sub seq map].
  rewrite template_spectrum by lia. rewrite pulse_spectrum_1, Cabs_sq.
  unfold Csum, Rsum, Cre, Cscale, Cmult, Cconj, Cplus. simpl. field.
Qed.

Lemma height_over_three_bins :
  spec_height (4 / 2 + 1) (dft (peak_normalized [1; 0; 0; 0]))
              (dft [0; 0; 1; 0]) [1; 1; 1] = 0.
Proof.
  unfold spec_height. cbn [Nat.div Nat.divmod Nat.add Nat.sub fst seq map].
  rewrite !template_spectrum by lia.
  rewrite pulse_spectrum_1, pulse_spectrum_2, Cabs_sq.
  unfold Csum, Rsum, Cre, Cscale, Cmult, Cconj, Cplus. simpl. field.
Qed.

Lemma example_filter_hypotheses :
  len_onesided_of (4 / effective_ssf 2) = 2%nat
  /\ (forall k, (k < 2)%nat -> nth k [1; 1; 1] 0 <> 0)
  /\ Rsum (map (fun k => Cabs (nth k (dft (peak_normalized [1; 0; 0; 0])) (0, 0)) ^ 2
                         / nth k [1; 1; 1] 0) (seq 1 (2 - 1))) <> 0.
Proof.
  split; [reflexivity|]. split.
  - intros k Hk. destruct k as [|[|k]]; simpl; try lra. lia.
  - cbn [Nat.sub seq map]. rewrite template_spectrum by lia.
    rewrite Cabs_sq. unfold Rsum. simpl. lra.
Qed.

(** C1, refuting input: four samples per pulse,
    supersample factor 2, template [1, 0, 0, 0], pulse [0, 0, 1, 0], flat
    noise.  [pw = 2], so only bin 1 enters the sums and the height is [-1];
    over all [4 // 2 + 1 = 3] bins it would be [0]. *)
Lemma optimal_filter_leaves_out_upper_bins :
  exists H R_sn mean_Dxx,
    optimal_filter (Array2 4 [[0; 0; 1; 0]]) [1; 0; 0; 0] 1 2 [1; 1; 1]
      = Ok (H, R_sn, mean_Dxx)
    /\ nth 0 H 0 = -1
    /\ nth 0 H 0 <> spec_height (4 / 2 + 1)
                      (dft (peak_normalized [1; 0; 0; 0]))
                      (dft (nth 0 [[0; 0; 1; 0]] [])) [1; 1; 1].
Proof.
  destruct example_filter_hypotheses as (Hm & HN0 & Hden).
  destruct (@optimal_filter_heights 4 [[0; 0; 1; 0]] [1; 0; 0; 0] [1; 1; 1] 1 2)
    as (H & R_sn & mean_Dxx & Hrun & HH).
  - lia.
  - intros r [Hr|[]]. subst r. reflexivity.
  - reflexivity.
  - lra.
  - rewrite Hm. simpl. lia.
  - rewrite Hm. exact HN0.
  - rewrite Hm. exact Hden.
  - exists H, R_sn, mean_Dxx. split; [assumption|].
    rewrite Hm in HH. subst H. cbn [map nth].
    rewrite height_over_two_bins, height_over_three_bins. split; lra.
Qed.

Lemma optimal_filter_height_over_original_band_witness :
  exists H R_sn mean_Dxx,
    optimal_filter (Array2 4 [[0; 0; 1; 0]]) [1; 0; 0; 0] 1 2 [1; 1; 1]
      = Ok (H, R_sn, mean_Dxx)
    /\ length H = length [[0; 0; 1; 0]]
    /\ forall i, (i < length [[0; 0; 1; 0]])%nat ->
         nth i H 0 = spec_height (4 / effective_ssf 2 / 2 + 1)
                       (dft (peak_normalized [1; 0; 0; 0]))
                       (dft (nth i [[0; 0; 1; 0]] [])) [1; 1; 1].
Proof.
  destruct example_filter_hypotheses as (Hm & HN0 & Hden).
  apply (@optimal_filter_height_over_original_band
           4 [[0; 0; 1; 0]] [1; 0; 0; 0] [1; 1; 1] 1 2).
  - lia.
  - intros r [Hr|[]]. subst r. reflexivity.
  - reflexivity.
  - lra.
  - simpl. lia.
  - simpl. lia.
  - exact HN0.
  - exact Hden.
Defined.

End OptimalFilterFacts.

(** ** Spectral Estimator and Optimal Filter: further properties *)

Section SpectralLinearity.

Import Spectral.
Local Open Scope R_scope.

(** Bin 0 of the transform is the sum of the samples. *)
Lemma twiddle_dc (N n : nat) : twiddle N 0 n = (1, 0).
Proof.
  unfold twiddle. change (INR 0) with 0.
  replace (2 * PI * 0 * INR n / INR N) with 0 by (unfold Rdiv; ring).
  rewrite cos_0, sin_0. f_equal. ring.
Qed.

Lemma Csum_dc (N s : nat) (x : list R) :
  Csum (map (fun p => Cscale (snd p) (twiddle N 0 (fst p)))
            (combine (seq s (length x)) x)) = (Rsum x, 0).
Proof.
  revert s; induction x as [|v x IH]; intros s; [reflexivity|].
  cbn [length seq combine map Csum fold_right fst snd].
  fold (Csum (map (fun p => Cscale (snd p) (twiddle N 0 (fst p)))
                  (combine (seq (S s) (length x)) x))).
  rewrite IH, twiddle_dc. unfold Cplus, Cscale, Rsum. cbn [fst snd fold_right].
  f_equal; ring.
Qed.

Lemma dft_bin_dc (x : list R) : dft_bin x 0 = (Rsum x, 0).
Proof. unfold dft_bin. apply Csum_dc. Qed.

(** The transform is linear in the amplitude of the signal. *)
Lemma Csum_scaled (c : R) (N k s : nat) (x : list R) :
  Csum (map (fun p => Cscale (snd p) (twiddle N k (fst p)))
            (combine (seq s (length x)) (map (Rmult c) x)))
  = Cscale c (Csum (map (fun p => Cscale (snd p) (twiddle N k (fst p)))
                        (combine (seq s (length x)) x))).
Proof.
  revert s; induction x as [|v x IH]; intros s.
  - cbn. unfold Cscale. cbn [fst snd]. f_equal; ring.
  - cbn [length seq combine map Csum fold_right fst snd].
    fold (Csum (map (fun p => Cscale (snd p) (twiddle N k (fst p)))
                    (combine (seq (S s) (length x)) (map (Rmult c) x)))).
    fold (Csum (map (fun p => Cscale (snd p) (twiddle N k (fst p)))
                    (combine (seq (S s) (length x)) x))).
    rewrite IH. unfold Cplus, Cscale. cbn [fst snd]. f_equal; ring.
Qed.

Lemma dft_bin_scaled (c : R) (x : list R) (k : nat) :
  dft_bin (map (Rmult c) x) k = Cscale c (dft_bin x k).
Proof.
  unfold dft_bin. rewrite length_map. apply Csum_scaled.
Qed.

Lemma dft_scaled (c : R) (x : list R) :
  dft (map (Rmult c) x) = map (Cscale c) (dft x).
Proof.
  unfold dft. rewrite length_map, map_map. apply map_ext.
  intros k. apply dft_bin_scaled.
Qed.

Lemma Cabs_sq_scaled (c : R) (z : C) :
  Cabs (Cscale c z) ^ 2 = c ^ 2 * Cabs z ^ 2.
Proof. rewrite !Cabs_sq. unfold Cscale. cbn [fst snd]. ring. Qed.

Lemma double_inner_scaled (c : R) (a : list R) :
  double_inner (map (Rmult c) a) = map (Rmult c) (double_inner a).
Proof.
  apply (nth_ext _ _ 0 0).
  - rewrite length_map, !double_inner_length, length_map. reflexivity.
  - intros i Hi. rewrite double_inner_length, length_map in Hi.
    rewrite double_inner_nth by (rewrite length_map; exact Hi).
    rewrite length_map.
    rewrite (nth_indep (map (Rmult c) (double_inner a)) 0 (c * 0))
      by (rewrite length_map, double_inner_length; exact Hi).
    rewrite (map_nth (Rmult c)).
    rewrite double_inner_nth by exact Hi.
    rewrite (nth_indep (map (Rmult c) a) 0 (c * 0))
      by (rewrite length_map; exact Hi).
    rewrite (map_nth (Rmult c)).
    destruct ((1 <=? i) && (S i <? length a))%nat; ring.
Qed.

(** X18.  The spectrum of a signal scaled by [c] is the spectrum of the signal
    scaled by [c ^ 2]: [psd] is quadratic in the amplitude. *)
Theorem psd_is_quadratic_in_the_amplitude (c : R) (v : list R) (fs : R) :
  v <> [] -> fs <> 0 ->
  exists p, psd (Array1 v) fs = Ok (Array1 p)
    /\ psd (Array1 (map (Rmult c) v)) fs = Ok (Array1 (map (Rmult (c ^ 2)) p)).
Proof.
  intros Hv Hfs.
  assert (Hcv : map (Rmult c) v <> []) by (destruct v; [congruence|discriminate]).
  rewrite (psd_rank1 Hv Hfs), (psd_rank1 Hcv Hfs).
  eexists. split; [reflexivity|].
  do 2 f_equal. rewrite <- double_inner_scaled. f_equal.
  rewrite length_map, dft_scaled, firstn_map, !map_map.
  apply map_ext. intros z. rewrite Cabs_sq_scaled. ring.
Qed.

Lemma psd_is_quadratic_in_the_amplitude_witness :
  exists p, psd (Array1 [1; 2]) 1 = Ok (Array1 p)
    /\ psd (Array1 (map (Rmult 3) [1; 2])) 1 = Ok (Array1 (map (Rmult (3 ^ 2)) p)).
Proof.
  apply (@psd_is_quadratic_in_the_amplitude 3 [1; 2] 1).
  - discriminate.
  - lra.
Defined.

Lemma psd_rank1_first_bin (v : list R) (fs : R) :
  v <> [] -> fs <> 0 ->
  exists p, psd (Array1 v) fs = Ok (Array1 p)
    /\ nth 0 p 0 = Rsum v ^ 2 / (INR (length v) * fs).
Proof.
  intros Hv Hfs.
  destruct (psd_rank1_length Hv Hfs) as [p [Hp Hlen]].
  destruct (@psd_rank1_bin v fs 0%nat Hv Hfs) as [p' [Hp' Hbin]].
  rewrite Hp in Hp'. injection Hp' as <-.
  exists p. split; [exact Hp|].
  rewrite Hbin by (rewrite Hlen; destruct (length v mod 4 =? 3)%nat; lia).
  cbn [Nat.leb andb]. rewrite dft_bin_dc, Cabs_sq. cbn [fst snd].
  unfold Rdiv. ring.
Qed.

(** X19.  The first value of the spectrum is the squared sum of the samples over
    [N * fs]: a signal of zero mean has no power in its first bin. *)
Theorem psd_first_bin_is_the_squared_sum (v : list R) (fs : R) :
  v <> [] -> fs <> 0 ->
  exists p, psd (Array1 v) fs = Ok (Array1 p)
    /\ nth 0 p 0 = Rsum v ^ 2 / (INR (length v) * fs)
    /\ (Rsum v = 0 -> nth 0 p 0 = 0).
Proof.
  intros Hv Hfs.
  destruct (psd_rank1_first_bin Hv Hfs) as [p [Hp H0]].
  exists p. split; [exact Hp|]. split; [exact H0|].
  intros Hz. rewrite H0, Hz. unfold Rdiv. ring.
Qed.

Lemma psd_first_bin_is_the_squared_sum_witness :
  exists p, psd (Array1 [1; -1]) 1 = Ok (Array1 p)
    /\ nth 0 p 0 = Rsum [1; -1] ^ 2 / (INR (length [1; -1]) * 1)
    /\ (Rsum [1; -1] = 0 -> nth 0 p 0 = 0).
Proof.
  apply (@psd_first_bin_is_the_squared_sum [1; -1] 1).
  - discriminate.
  - lra.
Defined.

(** X20.  On a batch, [psd] computes for every row what it computes for that row
    alone. *)
Theorem psd_of_a_batch_is_psd_of_each_row
    (ncols : nat) (rows : list (list R)) (fs : R) :
  (1 <= ncols)%nat -> fs <> 0 ->
  (forall r, In r rows -> length r = ncols) ->
  exists out,
    psd (Array2 ncols rows) fs
      = Ok (Array2 (Nat.min (len_onesided_of ncols) ncols) out)
    /\ map (fun r => psd (Array1 r) fs) rows = map (fun p => Ok (Array1 p)) out.
Proof.
  intros Hn Hfs Hrows.
  unfold psd at 1. unfold fft_rows.
  destruct ncols as [|n]; [lia|]. cbn [bind].
  unfold py_div.
  destruct (Req_dec_T (INR (S n) * fs) 0) as [Hz|Hz].
  { exfalso. apply Rmult_integral in Hz. destruct Hz as [Hz|Hz].
    - apply (not_0_INR (S n)); [lia|exact Hz].
    - contradiction. }
  cbn [bind]. eexists. split; [reflexivity|].
  rewrite !map_map. apply map_ext_in. intros r Hr.
  assert (Hr0 : r <> []).
  { intros ->. specialize (Hrows [] Hr). simpl in Hrows. lia. }
  rewrite (psd_rank1 Hr0 Hfs), (Hrows r Hr). reflexivity.
Qed.

Lemma psd_of_a_batch_is_psd_of_each_row_witness :
  exists out,
    psd (Array2 2 [[1; 2]; [3; 4]]) 1
      = Ok (Array2 (Nat.min (len_onesided_of 2) 2) out)
    /\ map (fun r => psd (Array1 r) 1) [[1; 2]; [3; 4]]
       = map (fun p => Ok (Array1 p)) out.
Proof.
  apply (@psd_of_a_batch_is_psd_of_each_row 2 [[1; 2]; [3; 4]] 1).
  - lia.
  - lra.
  - intros r [<-|[<-|[]]]; reflexivity.
Defined.

End SpectralLinearity.

Section FilterAmplitude.

Import Spectral.
Local Open Scope R_scope.

Lemma Csum_fst (l : list C) : fst (Csum l) = Rsum (map fst l).
Proof.
  induction l as [|z l IH]; [reflexivity|].
  cbn [Csum fold_right map Rsum]. fold (Csum l). fold (Rsum (map fst l)).
  unfold Cplus. cbn [fst]. rewrite IH. reflexivity.
Qed.

Lemma Rsum_scaled (a : R) (l : list R) :
  Rsum (map (Rmult a) l) = a * Rsum l.
Proof.
  induction l as [|v l IH]; cbn [map Rsum fold_right].
  - ring.
  - fold (Rsum (map (Rmult a) l)). fold (Rsum l). rewrite IH. ring.
Qed.

(** The filter of a template scaled by [a]. *)
Lemma spec_height_of_scaled_template
    (m : nat) (M : list C) (N : list R) (a : R) :
  Rsum (map (fun k => Cabs (nth k M (0, 0)) ^ 2 / nth k N 0) (seq 1 (m - 1)))
    <> 0 ->
  spec_height m M (map (Cscale a) M) N = a.
Proof.
  intros Hden. unfold spec_height, Cre.
  rewrite Csum_fst, map_map.
  assert (Hnum :
    map (fun k => fst (Cscale (/ nth k N 0)
                         (Cmult (Cconj (nth k M (0, 0)))
                                (nth k (map (Cscale a) M) (0, 0)))))
        (seq 1 (m - 1))
    = map (Rmult a)
          (map (fun k => Cabs (nth k M (0, 0)) ^ 2 / nth k N 0) (seq 1 (m - 1)))).
  { rewrite map_map. apply map_ext. intros k.
    replace (nth k (map (Cscale a) M) (0, 0))
      with (Cscale a (nth k M (0, 0))).
    2:{ destruct (Nat.lt_ge_cases k (length M)) as [Hk|Hk].
        - rewrite (nth_indep (map (Cscale a) M) (0, 0) (Cscale a (0, 0)))
            by (rewrite length_map; exact Hk).
          symmetry. apply (map_nth (Cscale a)).
        - rewrite !nth_overflow by (try rewrite length_map; exact Hk).
          unfold Cscale. cbn [fst snd]. f_equal; ring. }
    rewrite Cabs_sq. unfold Cscale, Cmult, Cconj. cbn [fst snd].
    unfold Rdiv. ring. }
  rewrite Hnum, Rsum_scaled. field. exact Hden.
Qed.

(** X21.  A pulse that is the peak-normalized template scaled by [a] is given the
    height [a], whatever the noise spectrum. *)
Theorem optimal_filter_returns_the_amplitude_of_a_scaled_template
    (L : nat) (amps : list R) (pulse_model Nxx : list R)
    (sf : R) (ssf : nat) :
  let m := len_onesided_of (L / effective_ssf ssf) in
  let M := dft (peak_normalized pulse_model) in
  let rows := map (fun a => map (Rmult a) (peak_normalized pulse_model)) amps in
  (1 <= L)%nat ->
  length pulse_model = L ->
  sf <> 0 ->
  (m <= length Nxx)%nat ->
  (forall k, (k < m)%nat -> nth k Nxx 0 <> 0) ->
  Rsum (map (fun k => Cabs (nth k M (0, 0)) ^ 2 / nth k Nxx 0)
            (seq 1 (m - 1))) <> 0 ->
  exists R_sn mean_Dxx,
    optimal_filter (Array2 L rows) pulse_model sf ssf Nxx
      = Ok (amps, R_sn, mean_Dxx).
Proof.
  intros m M rows HL Hpm Hsf HN HN0 Hden.
  destruct (@optimal_filter_heights L rows pulse_model Nxx sf ssf)
    as (H & R_sn & mean_Dxx & Hrun & HH); try assumption.
  { intros r Hr. unfold rows in Hr. apply in_map_iff in Hr.
    destruct Hr as [a [<- _]].
    unfold peak_normalized. rewrite !length_map. exact Hpm. }
  exists R_sn, mean_Dxx. rewrite Hrun. do 3 f_equal.
  rewrite HH. unfold rows. rewrite map_map.
  rewrite <- (map_id amps) at 2. apply map_ext. intros a.
  rewrite dft_scaled. apply spec_height_of_scaled_template. exact Hden.
Qed.

Lemma optimal_filter_returns_the_amplitude_of_a_scaled_template_witness :
  exists R_sn mean_Dxx,
    optimal_filter
      (Array2 4 (map (fun a => map (Rmult a) (peak_normalized [1; 0; 0; 0]))
                     [3; -2]))
      [1; 0; 0; 0] 1 2 [1; 1; 1]
    = Ok ([3; -2], R_sn, mean_Dxx).
Proof.
  destruct example_filter_hypotheses as (Hm & HN0 & Hden).
  apply (@optimal_filter_returns_the_amplitude_of_a_scaled_template
           4 [3; -2] [1; 0; 0; 0] [1; 1; 1] 1 2).
  - lia.
  - reflexivity.
  - lra.
  - rewrite Hm. simpl. lia.
  - rewrite Hm. exact HN0.
  - rewrite Hm. exact Hden.
Defined.

(** X22.  A noise spectrum shorter than the [round(pw / 2) + 1] bins the filter
    uses (and not of length one) is not padded or cut: the division of the
    spectra by it fails. *)
Theorem optimal_filter_refuses_a_short_noise_spectrum
    (L : nat) (rows : list (list R)) (pulse_model Nxx : list R)
    (sf : R) (ssf : nat) :
  let pw := (L / effective_ssf ssf)%nat in
  (2 <= pw)%nat ->
  (forall r, In r rows -> length r = L) ->
  length pulse_model = L ->
  sf <> 0 ->
  (length Nxx < len_onesided_of pw)%nat ->
  length Nxx <> 1%nat ->
  optimal_filter (Array2 L rows) pulse_model sf ssf Nxx = Raise ValueError.
Proof.
  intros pw Hpw Hrows Hpm Hsf HN HN1.
  pose proof (effective_ssf_pos ssf) as Hs.
  assert (HL : (1 <= L)%nat).
  { destruct L; [|lia]. unfold pw in Hpw. rewrite Nat.Div0.div_0_l in Hpw. lia. }
  set (m := len_onesided_of pw) in *.
  assert (HmL : (m <= L)%nat) by (apply len_onesided_of_le; assumption).
  assert (Hm2 : (2 <= m)%nat).
  { unfold m. rewrite len_onesided_of_spec.
    assert (1 <= pw / 2)%nat by (apply Nat.div_le_lower_bound; lia).
    destruct (pw mod 4 =? 3)%nat; lia. }
  unfold optimal_filter. cbn [rows_of bind fst snd].
  fold pw. fold m.
  destruct pulse_model as [|x pm]; [simpl in Hpm; lia|].
  cbn [np_amax bind]. rewrite peak_normalized_eq.
  set (norm := peak_normalized (x :: pm)).
  assert (Hnorm : length norm = L)
    by (unfold norm, peak_normalized; rewrite length_map; assumption).
  assert (Hnorm0 : norm <> []) by (destruct norm; [simpl in Hnorm; lia|discriminate]).
  assert (Hfs : sf * INR (effective_ssf ssf) <> 0).
  { apply Rmult_integral_contrapositive. split; [assumption|].
    apply not_0_INR. lia. }
  destruct (psd_rank1_length Hnorm0 Hfs) as [Mxx [HMxx HMlen]].
  rewrite HMxx. cbn [bind vector_of].
  assert (Hfft : fft norm = Ok (dft norm))
    by (unfold fft; destruct norm; [congruence|reflexivity]).
  rewrite Hfft. cbn [bind].
  assert (Hfftr : fft_rows L rows = Ok (map dft rows))
    by (unfold fft_rows; destruct L; [lia|reflexivity]).
  rewrite Hfftr. cbn [bind].
  destruct (@psd_rank2 L rows _ HL Hfs) as [n [Dxx HDxx]].
  rewrite HDxx. cbn [bind rows_of fst snd].
  assert (HMf : length (firstn m (map Cconj (firstn m (dft norm)))) = m)
    by (rewrite length_firstn, length_map, length_firstn, dft_length; lia).
  rewrite broadcast_rows_same.
  2:{ rewrite HMf. lia. }
  2:{ intros r Hr. apply in_map_iff in Hr. destruct Hr as [d [Hd Hr]].
      apply in_map_iff in Hr. destruct Hr as [row [Hrow Hr]]. subst.
      rewrite length_firstn, dft_length, (Hrows row Hr). reflexivity. }
  cbn [bind]. rewrite HMf.
  unfold broadcast_rows at 1.
  assert (Hc : compatible (Nat.max (Nat.min m L) m) (length (firstn m Nxx)) = false).
  { rewrite length_firstn. unfold compatible.
    replace (Nat.max (Nat.min m L) m) with m by lia.
    replace (Nat.min m (length Nxx)) with (length Nxx) by lia.
    destruct (Nat.eqb_spec m (length Nxx)); [lia|].
    destruct (Nat.eqb_spec m 1); [lia|].
    destruct (Nat.eqb_spec (length Nxx) 1); [lia|]. reflexivity. }
  rewrite Hc. reflexivity.
Qed.

Lemma optimal_filter_refuses_a_short_noise_spectrum_witness :
  optimal_filter (Array2 4 [[0; 0; 1; 0]]) [1; 0; 0; 0] 1 1 [] = Raise ValueError.
Proof.
  apply (@optimal_filter_refuses_a_short_noise_spectrum
           4 [[0; 0; 1; 0]] [1; 0; 0; 0] [] 1 1).
  - simpl. lia.
  - intros r [Hr|[]]. subst r. reflexivity.
  - reflexivity.
  - lra.
  - simpl. unfold len_onesided_of. simpl. lia.
  - simpl. lia.
Defined.

End FilterAmplitude.

(** ** Decay Fitter *)

Section DecayFacts.

Import Decay.
Local Open Scope R_scope.

(** C6.  On a pulse of [pw * ssf] samples whose tail the fit resolves to the
    parameters [(a, b)] with covariance [cov], [fit_decaytime] returns
    [tau = 1 / (b * ssf)] and, as its error, the standard deviation of the
    rate [b] itself: the square root of the covariance entry of [b].  That
    value is not the standard deviation of [tau] unless [b * b * ssf = 1]. *)
Theorem fit_decaytime_error_is_that_of_the_rate
    (curve_fit : (R -> R -> R -> R) -> list R -> list R -> result fit)
    (pulse tail : list R) (pw ssf : nat) (fit_T : fit_T_arg)
    (a b : R) (cov : (R * R) * (R * R)) :
  (1 <= pw)%nat -> (1 <= ssf)%nat ->
  length pulse = (pw * ssf)%nat ->
  select_tail pulse (INR pw) fit_T = Ok tail ->
  curve_fit exp_decay (map INR (seq 0 (length tail))) tail = Ok ((a, b), cov) ->
  0 < b ->
  0 < sqrt (snd (snd cov)) ->
  b * b * INR ssf <> 1 ->
  exists tau dtau,
    fit_decaytime curve_fit pulse pw fit_T = Ok (tau, dtau, (a, b))
    /\ tau = 1 / (b * INR ssf)
    /\ dtau = sqrt (snd (snd cov))
    /\ dtau <> tau_error b (sqrt (snd (snd cov))) ssf.
Proof.
  intros Hpw Hssf Hlen Htail Hfit Hb Hsigma Hne.
  assert (Hs : 0 < INR ssf) by (apply lt_0_INR; lia).
  exists (1 / b / INR ssf), (sqrt (snd (snd cov))).
  repeat split.
  - unfold fit_decaytime. destruct pw as [|pw']; [lia|].
    rewrite Htail. cbn [bind]. rewrite Hfit. cbn [bind fst snd].
    rewrite Hlen, Nat.mul_comm, Nat.div_mul by lia. reflexivity.
  - field. split; lra.
  - unfold tau_error. intros Heq.
    apply Hne.
    assert (Hd : b * b * INR ssf <> 0).
    { apply Rgt_not_eq. apply Rmult_lt_0_compat; [|exact Hs].
      apply Rmult_lt_0_compat; exact Hb. }
    apply (Rmult_eq_compat_r (b * b * INR ssf)) in Heq.
    assert (Hx : sqrt (snd (snd cov)) / (b * b * INR ssf) * (b * b * INR ssf)
                 = sqrt (snd (snd cov))) by (field; split; lra).
    rewrite Hx in Heq.
    apply (Rmult_eq_reg_l (sqrt (snd (snd cov)))); lra.
Qed.

Lemma fit_decaytime_error_is_that_of_the_rate_witness :
  let pulse := [8; 5; 3; 2; 1; 1; 0; 0] in
  let curve_fit := fun (_ : R -> R -> R -> R) (_ _ : list R) =>
                     Ok ((8, 1 / 2), ((1, 0), (0, 1))) in
  exists tau dtau,
    fit_decaytime curve_fit pulse 4 (TScalar 1) = Ok (tau, dtau, (8, 1 / 2))
    /\ tau = 1 / (1 / 2 * INR 2)
    /\ dtau = sqrt (snd (snd ((1, 0), (0, 1))))
    /\ dtau <> tau_error (1 / 2) (sqrt (snd (snd ((1, 0), (0, 1))))) 2.
Proof.
  intros pulse curve_fit.
  apply (@fit_decaytime_error_is_that_of_the_rate curve_fit pulse
           (compress (map (fun ti => Rlt_bool 1 ti)
                          (linspace0 (INR 4) (length pulse))) pulse)
           4 2 (TScalar 1) 8 (1 / 2) ((1, 0), (0, 1))).
  - lia.
  - lia.
  - reflexivity.
  - reflexivity.
  - reflexivity.
  - lra.
  - simpl. rewrite sqrt_1. lra.
  - simpl. lra.
Defined.

End DecayFacts.

(** ** Decay Fitter: the tail selection and the unit of the decay time *)

Section DecayTail.

Import Decay.
Local Open Scope R_scope.

Lemma compress_all_false {A : Type} (mask : list bool) (a : list A) :
  (forall b, In b mask -> b = false) -> compress mask a = [].
Proof.
  revert a; induction mask as [|m mask IH]; intros a Hm; [reflexivity|].
  destruct a as [|x a]; [reflexivity|].
  cbn [compress]. rewrite (Hm m) by (left; reflexivity).
  apply IH. intros b Hb. apply Hm. right. exact Hb.
Qed.

Lemma compress_all_true {A : Type} (mask : list bool) (a : list A) :
  length mask = length a ->
  (forall b, In b mask -> b = true) -> compress mask a = a.
Proof.
  revert a; induction mask as [|m mask IH]; intros a Hlen Hm.
  - destruct a; [reflexivity|discriminate].
  - destruct a as [|x a]; [discriminate|].
    cbn [compress]. rewrite (Hm m) by (left; reflexivity).
    f_equal. apply IH; [simpl in Hlen; lia|].
    intros b Hb. apply Hm. right. exact Hb.
Qed.

(** The time axis [np.linspace(0, pw, l)] stays inside [[0, pw]]. *)
Lemma linspace0_inside (pw : R) (l : nat) (t : R) :
  0 <= pw -> In t (linspace0 pw l) -> 0 <= t <= pw.
Proof.
  intros Hpw Ht. unfold linspace0 in Ht. apply in_map_iff in Ht.
  destruct Ht as [i [<- Hi]]. apply in_seq in Hi.
  destruct (Nat.eq_dec (l - 1) 0) as [Hz|Hz].
  - assert (i = 0%nat) by lia. subst i. change (INR 0) with 0.
    split; [|apply Rle_trans with 0]; try lra.
  - assert (Hl : 0 < INR (l - 1)) by (apply lt_0_INR; lia).
    assert (Hil : INR i <= INR (l - 1)) by (apply le_INR; lia).
    assert (Hi0 : 0 <= INR i) by apply pos_INR.
    assert (Hq : 0 <= pw / INR (l - 1)).
    { unfold Rdiv. apply Rmult_le_pos; [exact Hpw|].
      left. apply Rinv_0_lt_compat. exact Hl. }
    split.
    + apply Rmult_le_pos; assumption.
    + replace pw with (INR (l - 1) * (pw / INR (l - 1))) at 2
        by (field; lra).
      apply Rmult_le_compat_r; assumption.
Qed.

Lemma linspace0_length (pw : R) (l : nat) : length (linspace0 pw l) = l.
Proof. unfold linspace0. rewrite length_map, length_seq. reflexivity. Qed.

(** X23.  A cut at or after the end of the pulse window selects no sample, so the
    fit is run on no data and its failure is the failure of
    [fit_decaytime]; a cut before time zero selects the whole pulse. *)
Theorem tail_cut_outside_the_pulse_window
    (curve_fit : (R -> R -> R -> R) -> list R -> list R -> result fit)
    (pulse : list R) (pw : nat) (t0 : R) (e : exn) :
  (1 <= pw)%nat ->
  curve_fit exp_decay [] [] = Raise e ->
  (INR pw <= t0 ->
     select_tail pulse (INR pw) (TScalar t0) = Ok []
     /\ fit_decaytime curve_fit pulse pw (TScalar t0) = Raise e)
  /\ (t0 < 0 -> select_tail pulse (INR pw) (TScalar t0) = Ok pulse).
Proof.
  intros Hpw Hfit.
  assert (H0 : 0 <= INR pw) by apply pos_INR.
  split.
  - intros Ht.
    assert (Hsel : select_tail pulse (INR pw) (TScalar t0) = Ok []).
    { unfold select_tail. f_equal. apply compress_all_false.
      intros b Hb. apply in_map_iff in Hb. destruct Hb as [t [<- Hin]].
      apply (@linspace0_inside _ _ _ H0) in Hin.
      unfold Rlt_bool. destruct (Rlt_dec t0 t); [lra|reflexivity]. }
    split; [exact Hsel|].
    unfold fit_decaytime. destruct pw as [|pw']; [lia|].
    rewrite Hsel. cbn [bind length seq map]. rewrite Hfit. reflexivity.
  - intros Ht. unfold select_tail. f_equal. apply compress_all_true.
    + rewrite length_map, linspace0_length. reflexivity.
    + intros b Hb. apply in_map_iff in Hb. destruct Hb as [t [<- Hin]].
      apply (@linspace0_inside _ _ _ H0) in Hin.
      unfold Rlt_bool. destruct (Rlt_dec t0 t); [reflexivity|lra].
Qed.

Lemma tail_cut_outside_the_pulse_window_witness :
  let curve_fit := fun (_ : R -> R -> R -> R) (x _ : list R) =>
                     match x with
                     | [] => Raise ValueError
                     | _ => Ok ((8, 1 / 2), ((1, 0), (0, 1)))
                     end in
  (INR 4 <= 5 ->
     select_tail [8; 5; 3; 2] (INR 4) (TScalar 5) = Ok []
     /\ fit_decaytime curve_fit [8; 5; 3; 2] 4 (TScalar 5) = Raise ValueError)
  /\ (5 < 0 -> select_tail [8; 5; 3; 2] (INR 4) (TScalar 5) = Ok [8; 5; 3; 2]).
Proof.
  intros curve_fit.
  apply (@tail_cut_outside_the_pulse_window curve_fit [8; 5; 3; 2] 4 5 ValueError).
  - lia.
  - reflexivity.
Defined.

(** X24.  The decay time is returned in samples of the pulse before supersampling:
    at tail sample [x] the fitted curve [a * exp(- b * x)] is
    [a * exp(- (x / ssf) / tau_qp)]. *)
Theorem decay_time_is_in_samples_before_supersampling
    (curve_fit : (R -> R -> R -> R) -> list R -> list R -> result fit)
    (pulse : list R) (pw : nat) (fit_T : fit_T_arg)
    (tau dtau a b : R) :
  (1 <= pw <= length pulse)%nat ->
  b <> 0 ->
  fit_decaytime curve_fit pulse pw fit_T = Ok (tau, dtau, (a, b)) ->
  forall x, exp_decay x a b = a * exp (- (x / INR (length pulse / pw)) / tau).
Proof.
  intros Hpw Hb Hrun x.
  unfold fit_decaytime in Hrun. destruct pw as [|pw']; [lia|].
  destruct (select_tail pulse (INR (S pw')) fit_T) as [tail|e];
    [|discriminate Hrun].
  cbn [bind] in Hrun.
  destruct (curve_fit exp_decay (map INR (seq 0 (length tail))) tail)
    as [[[a' b'] cov]|e]; [|discriminate Hrun].
  cbn [bind fst snd] in Hrun.
  injection Hrun as Htau _ Ha Hb'. subst a' b'.
  assert (Hs : 0 < INR (length pulse / S pw')).
  { apply lt_0_INR. apply Nat.div_str_pos. lia. }
  unfold exp_decay.
  replace (- (x / INR (length pulse / S pw')) / tau) with (- b * x);
    [reflexivity|].
  change (fst (Nat.divmod (length pulse) pw' 0 pw'))
    with (length pulse / S pw')%nat in Htau.
  rewrite <- Htau. field. split; lra.
Qed.

Lemma decay_time_is_in_samples_before_supersampling_witness :
  let pulse := [8; 5; 3; 2; 1; 1; 0; 0] in
  let curve_fit := fun (_ : R -> R -> R -> R) (_ _ : list R) =>
                     Ok ((8, 1 / 2), ((1, 0), (0, 1))) in
  exp_decay 3 8 (1 / 2)
  = 8 * exp (- (3 / INR (length pulse / 4)) / (1 / (1 / 2) / INR 2)).
Proof.
  intros pulse curve_fit.
  apply (@decay_time_is_in_samples_before_supersampling curve_fit pulse 4
           (TScalar 1) (1 / (1 / 2) / INR 2) (sqrt 1) 8 (1 / 2)).
  - simpl. lia.
  - lra.
  - reflexivity.
Defined.

End DecayTail.

(** ** Noise Estimator: what is returned *)

Section NoiseResults.

Import Noise.
Local Open Scope Q_scope.

(** X12.  A window of [pw * ssf = 4 q + 3] samples can never be averaged: the
    accumulator has [round(pw * ssf / 2) + 1] entries, one more than the
    [pw * ssf // 2 + 1] values a one-sided [welch] returns, so adding a
    segment raises and [noise_model] never returns a result. *)
Theorem window_of_4q_plus_3_samples_never_returns
    (find_peaks : list Q -> Q -> Q -> list (Z * Q))
    (welch : list Q -> Q -> nat -> result (list Q * list Q))
    (supersample : list Q -> nat -> result (list Q))
    (signal : list Q) (pw : nat) (sf : Q) (ssf nr_req_segments : nat)
    (mph mpp : Q) (sw : nat) (out : output) :
  (forall x fs k f s, welch x fs k = Ok (f, s) -> length s = (k / 2 + 1)%nat) ->
  ((pw * effective_ssf ssf) mod 4 = 3)%nat ->
  noise_model find_peaks welch supersample signal pw sf ssf nr_req_segments
              mph mpp sw <> Ok out.
Proof.
  intros Hw Hmod Hrun. unfold noise_model in Hrun.
  destruct (smooth signal sw) as [smoothed|e]; simpl in Hrun; [|discriminate].
  match type of Hrun with
  | bind (Noise.scan ?a ?b ?c ?d ?e ?f ?g ?h ?i ?j ?k ?l ?m) _ = _ =>
      destruct (Noise.scan a b c d e f g h i j k l m) as [st|e0] eqn:Hscan;
      simpl in Hrun; [|discriminate]
  end.
  set (n := (pw * effective_ssf ssf)%nat) in *.
  assert (Hn : (3 <= n)%nat).
  { pose proof (Nat.div_mod_eq n 4). lia. }
  apply scan_shape_mismatch in Hscan; auto.
  - unfold finish in Hrun. rewrite Hscan in Hrun. simpl in Hrun. discriminate.
  - unfold initial_state. cbn [sxx_segments]. rewrite repeat_length.
    change (Z.to_nat (py_round (QofN n / 2)) + 1)%nat
      with (Spectral.len_onesided_of n).
    rewrite len_onesided_of_spec.
    replace (n mod 4 =? 3)%nat with true
      by (symmetry; apply Nat.eqb_eq; assumption).
    reflexivity.
Qed.

Lemma window_of_4q_plus_3_samples_never_returns_witness :
  noise_model Detector.reference_find_peaks flat_welch (fun s _ => Ok s)
              (repeat 0 30) 7 1 1 2 1 1 0
  <> Ok example_output.
Proof.
  apply (@window_of_4q_plus_3_samples_never_returns
           Detector.reference_find_peaks flat_welch (fun s _ => Ok s)
           (repeat 0 30) 7 1 1 2 1 1 0 example_output).
  - intros x fs k f s Hw. unfold flat_welch in Hw.
    destruct k as [|k]; [discriminate|].
    inversion Hw; subst. apply repeat_length.
  - reflexivity.
Defined.

Lemma slice_length_le {A : Type} (a : list A) (start stop : nat) :
  (length (slice a start stop) <= stop - start)%nat.
Proof.
  unfold slice. rewrite length_firstn. lia.
Qed.

(** X13.  When the detector reports positions inside the array it is given, every
    location [noise_model] returns is an index into the signal. *)
Theorem reported_locations_index_the_signal
    (find_peaks : list Q -> Q -> Q -> list (Z * Q))
    (welch : list Q -> Q -> nat -> result (list Q * list Q))
    (supersample : list Q -> nat -> result (list Q))
    (signal : list Q) (pw : nat) (sf : Q) (ssf nr_req_segments : nat)
    (mph mpp : Q) (sw : nat) (out : output) :
  (forall x h p loc pk,
     In (loc, pk) (find_peaks x h p) -> (0 <= loc < Z.of_nat (length x))%Z) ->
  noise_model find_peaks welch supersample signal pw sf ssf nr_req_segments
              mph mpp sw = Ok out ->
  forall loc, In loc (all_locs out) ->
              (0 <= loc < Z.of_nat (length signal))%Z.
Proof.
  intros Hfp Hrun. unfold noise_model in Hrun.
  destruct (smooth signal sw) as [smoothed|e]; simpl in Hrun; [|discriminate].
  match type of Hrun with
  | bind (Noise.scan ?a ?b ?c ?d ?e ?f ?g ?h ?i ?j ?k ?l ?m) _ = _ =>
      destruct (Noise.scan a b c d e f g h i j k l m) as [st|e0] eqn:Hscan;
      simpl in Hrun; [|discriminate]
  end.
  pose proof (scan_invariant _ _ _ _ _ _ _ _ _ _ _ _ _ Hscan eq_refl)
    as (Hlocs & _ & _).
  pose proof (scan_stays_inside _ _ _ _ _ _ _ _ _ _ _ _ _ Hscan) as Hin.
  assert (Hin' : forall i, (i < nr st)%nat -> (i * pw + pw < length signal)%nat).
  { apply Hin. intros i Hi. simpl in Hi. lia. }
  unfold finish in Hrun.
  destruct (nr_good_segments st =? 0)%nat; [discriminate|].
  destruct (pw * effective_ssf ssf =? 0)%nat; [discriminate|].
  destruct (Qeq_bool sf 0); [discriminate|].
  destruct (Qeq_bool _ 0); [discriminate|].
  destruct (last_freqs st); [|discriminate].
  inversion Hrun; subst; clear Hrun. cbn [all_locs].
  intros loc Hloc. rewrite Hlocs in Hloc. unfold detected in Hloc.
  apply in_flat_map in Hloc. destruct Hloc as [i [Hi Hloc]].
  apply in_seq in Hi. unfold segment_locs in Hloc.
  apply in_map_iff in Hloc. destruct Hloc as [[p pk] [Heq Hp]].
  apply Hfp in Hp. cbn [fst] in Heq. subst loc.
  pose proof (slice_length_le smoothed (i * pw) (i * pw + pw)) as Hsl.
  specialize (Hin' i ltac:(lia)). lia.
Qed.

Lemma first_different_bound (v : Q) (rest : list Q) : forall j k y,
  Detector.first_different v rest j = Some (k, y) ->
  (j <= k < j + length rest)%nat.
Proof.
  induction rest as [|x rest IH]; intros j k y H; simpl in H; [discriminate|].
  destruct (Qeq_bool x v).
  - apply IH in H. simpl. lia.
  - inversion H; subst. simpl. lia.
Qed.

Lemma local_maxima_from_bound (x : list Q) : forall prev i p,
  In p (Detector.local_maxima_from prev x i) -> (p < i + length x)%nat.
Proof.
  induction x as [|v rest IH]; intros prev i p H;
    cbn [Detector.local_maxima_from In] in H; [contradiction|].
  apply in_app_or in H. destruct H as [H|H].
  - destruct (Qle_bool v prev); [contradiction|].
    destruct (Detector.first_different v rest (S i)) as [[k y]|] eqn:E;
      [|contradiction].
    destruct (Qle_bool v y); [contradiction|].
    cbn [In] in H. destruct H as [H|[]]. apply first_different_bound in E.
    pose proof (Nat.div_mod_eq (i + (k - 1)) 2).
    pose proof (Nat.mod_upper_bound (i + (k - 1)) 2 ltac:(lia)).
    simpl. lia.
  - apply IH in H. simpl. lia.
Qed.

(** The reference detector reports positions inside its input. *)
Lemma reference_find_peaks_in_range (x : list Q) (h p : Q) (loc : Z) (pk : Q) :
  In (loc, pk) (Detector.reference_find_peaks x h p) ->
  (0 <= loc < Z.of_nat (length x))%Z.
Proof.
  unfold Detector.reference_find_peaks. intros H.
  apply in_map_iff in H. destruct H as [q [Hq Hin]]. inversion Hq; subst.
  apply filter_In in Hin. destruct Hin as [Hin _].
  unfold Detector.local_maxima in Hin. destruct x as [|v rest]; [contradiction|].
  apply local_maxima_from_bound in Hin. simpl. lia.
Qed.

Lemma reported_locations_index_the_signal_witness :
  Forall (fun loc => (0 <= loc < Z.of_nat (length example_signal))%Z)
         (all_locs example_output).
Proof.
  apply Forall_forall.
  apply (@reported_locations_index_the_signal
           Detector.reference_find_peaks flat_welch (fun s _ => Ok s)
           example_signal 6 1 1 2 1 1 0 example_output).
  - intros x h p loc pk. apply reference_find_peaks_in_range.
  - vm_compute. reflexivity.
Defined.

End NoiseResults.

(** ** Coordinates: [bin2mat], [smith_coord], [coord_transformation] *)

Section CoordFacts.

Import Spectral Coord.
Local Open Scope R_scope.

(** *** Reading pairs *)

Lemma list_pair_ind {A : Type} (P : list A -> Prop) :
  P [] -> (forall x, P [x]) -> (forall x y l, P l -> P (x :: y :: l)) ->
  forall l, P l.
Proof.
  intros H0 H1 H2 l.
  assert (H : P l /\ forall x, P (x :: l)).
  { induction l as [|y l [IH1 IH2]].
    - split; [exact H0|exact H1].
    - split; [apply IH2|]. intros x. apply H2. exact IH1. }
  exact (proj1 H).
Qed.

Lemma reshape_pairs_spec (data : list R) :
  match reshape_pairs data with
  | Ok rows => length data = (2 * length rows)%nat
  | Raise e => e = ValueError /\ Nat.odd (length data) = true
  end.
Proof.
  induction data as [| x | x y l IH] using list_pair_ind.
  - reflexivity.
  - split; reflexivity.
  - cbn [reshape_pairs]. destruct (reshape_pairs l) as [rows|e]; cbn [bind].
    + cbn [length]. lia.
    + destruct IH as [-> IH]. split; [reflexivity|].
      change (length (x :: y :: l)) with (S (S (length l))).
      rewrite Nat.odd_succ_succ. exact IH.
Qed.

Lemma reshape_pairs_in (data : list R) (rows : list (R * R)) (v : R) :
  reshape_pairs data = Ok rows -> In v data ->
  exists row, In row rows /\ (fst row = v \/ snd row = v).
Proof.
  revert rows. induction data as [| x | x y l IH] using list_pair_ind;
    intros rows Hr Hin.
  - destruct Hin.
  - discriminate Hr.
  - cbn [reshape_pairs] in Hr.
    destruct (reshape_pairs l) as [rows'|e]; [|discriminate Hr].
    cbn [bind] in Hr. injection Hr as <-.
    destruct Hin as [<-|[<-|Hin]].
    + exists (x, y). split; [left; reflexivity|left; reflexivity].
    + exists (x, y). split; [left; reflexivity|right; reflexivity].
    + destruct (IH rows' eq_refl Hin) as [row [Hrow Hv]].
      exists row. split; [right; exact Hrow|exact Hv].
Qed.

Lemma map2_fst_snd {A B D : Type} (f : A -> B -> D) (rows : list (A * B)) :
  map2 f (map fst rows) (map snd rows) = map (fun r => f (fst r) (snd r)) rows.
Proof.
  induction rows as [|r rows IH]; [reflexivity|].
  cbn [map map2]. rewrite IH. reflexivity.
Qed.

Lemma map2_snd_fst {A B D : Type} (f : B -> A -> D) (rows : list (A * B)) :
  map2 f (map snd rows) (map fst rows) = map (fun r => f (snd r) (fst r)) rows.
Proof.
  induction rows as [|r rows IH]; [reflexivity|].
  cbn [map map2]. rewrite IH. reflexivity.
Qed.

(** X25.  [bin2mat] returns exactly when the file holds an even number of values,
    and then one radius and one phase per pair; otherwise the reshape
    fails. *)
Theorem bin2mat_reads_pairs (arctan2 : R -> R -> R) (data : list R) :
  match bin2mat arctan2 data with
  | Ok (radius, phase) =>
      length data = (2 * length radius)%nat /\ length phase = length radius
  | Raise e => e = ValueError /\ Nat.odd (length data) = true
  end.
Proof.
  unfold bin2mat. pose proof (reshape_pairs_spec data) as H.
  destruct (reshape_pairs data) as [rows|e]; cbn [bind]; [|exact H].
  rewrite map2_fst_snd, map2_snd_fst, !length_map. split; [exact H|reflexivity].
Qed.

(** *** Normalization *)

Lemma Rsum_nonneg (l : list R) :
  (forall v, In v l -> 0 <= v) -> 0 <= Rsum l.
Proof.
  induction l as [|x l IH]; intros H; cbn [Rsum fold_right]; [lra|].
  fold (Rsum l).
  assert (0 <= x) by (apply H; left; reflexivity).
  assert (0 <= Rsum l) by (apply IH; intros v Hv; apply H; right; exact Hv).
  lra.
Qed.

Lemma Rsum_pos (l : list R) (x : R) :
  (forall v, In v l -> 0 <= v) -> In x l -> 0 < x -> 0 < Rsum l.
Proof.
  induction l as [|y l IH]; intros H Hin Hx; [destruct Hin|].
  cbn [Rsum fold_right]. fold (Rsum l).
  assert (0 <= y) by (apply H; left; reflexivity).
  assert (0 <= Rsum l)
    by (apply Rsum_nonneg; intros v Hv; apply H; right; exact Hv).
  destruct Hin as [->|Hin]; [lra|].
  assert (0 < Rsum l).
  { apply IH; [intros v Hv; apply H; right; exact Hv|exact Hin|exact Hx]. }
  lra.
Qed.

Lemma Rsum_div (c : R) (l : list R) :
  Rsum (map (fun v => v / c) l) = Rsum l / c.
Proof.
  induction l as [|x l IH]; cbn [map Rsum fold_right].
  - unfold Rdiv. ring.
  - fold (Rsum (map (fun v => v / c) l)). fold (Rsum l). rewrite IH.
    unfold Rdiv. ring.
Qed.

Lemma py_mod_range (x m : R) : 0 < m -> 0 <= py_mod x m < m.
Proof.
  intros Hm. unfold py_mod.
  destruct (base_Int_part (x / m)) as [Hlo Hhi].
  set (k := IZR (Int_part (x / m))) in *.
  assert (Hx : x = m * (x / m)) by (field; lra).
  split.
  - assert (m * k <= m * (x / m)) by (apply Rmult_le_compat_l; lra). lra.
  - assert (m * (x / m - 1) < m * k) by (apply Rmult_lt_compat_l; lra).
    assert (m * (x / m - 1) = x - m) by (field; lra). lra.
Qed.

Lemma mean_normalized (r : list R) :
  0 < Rsum r -> mean (map (fun v => v / mean r) r) = 1.
Proof.
  intros Hpos.
  assert (Hlen : 0 < INR (length r)).
  { apply lt_0_INR. destruct r; [cbn in Hpos; lra|simpl; lia]. }
  unfold mean at 1. rewrite Rsum_div, length_map. unfold mean.
  field. split; lra.
Qed.

(** X26.  The radius [bin2mat] returns has mean one as soon as one value of the
    file is not zero, and every phase lies in [(-pi, pi]]. *)
Theorem bin2mat_radius_has_mean_one
    (arctan2 : R -> R -> R) (data radius phase : list R) :
  bin2mat arctan2 data = Ok (radius, phase) ->
  (exists v, In v data /\ v <> 0) ->
  mean radius = 1 /\ Forall (fun p => - PI < p <= PI) phase.
Proof.
  unfold bin2mat. intros Hrun [v [Hin Hv]].
  destruct (reshape_pairs data) as [rows|e] eqn:Hrows; [|discriminate Hrun].
  cbn [bind] in Hrun. rewrite map2_fst_snd, map2_snd_fst in Hrun.
  injection Hrun as <- <-.
  set (r := map (fun row : R * R => sqrt (fst row ^ 2 + snd row ^ 2)) rows).
  split.
  - destruct (@reshape_pairs_in data rows v Hrows Hin) as [row [Hrow Hcomp]].
    assert (Hnn : forall y, In y r -> 0 <= y).
    { intros y Hy. unfold r in Hy. apply in_map_iff in Hy.
      destruct Hy as [w [<- _]]. apply sqrt_pos. }
    assert (Hpos : 0 < Rsum r).
    { apply (@Rsum_pos r (sqrt (fst row ^ 2 + snd row ^ 2))).
      - exact Hnn.
      - unfold r. apply in_map_iff. exists row. split; [reflexivity|exact Hrow].
      - apply sqrt_lt_R0.
        destruct Hcomp as [Hc|Hc]; rewrite Hc.
        + assert (0 < v ^ 2)
            by (pose proof (pow2_ge_0 v); pose proof (pow_nonzero v 2 Hv); lra).
          assert (0 <= snd row ^ 2) by apply pow2_ge_0. lra.
        + assert (0 < v ^ 2)
            by (pose proof (pow2_ge_0 v); pose proof (pow_nonzero v 2 Hv); lra).
          assert (0 <= fst row ^ 2) by apply pow2_ge_0. lra. }
    apply mean_normalized. exact Hpos.
  - apply Forall_forall. intros p Hp. apply in_map_iff in Hp.
    destruct Hp as [a [<- _]].
    pose proof PI_RGT_0 as Hpi.
    assert (H2 : 0 < 2 * PI) by lra.
    pose proof (@py_mod_range a (2 * PI) H2). lra.
Qed.

Lemma bin2mat_radius_has_mean_one_witness :
  exists radius phase,
    bin2mat (fun y x => atan (y / x)) [3; 4; 0; 5] = Ok (radius, phase)
    /\ mean radius = 1 /\ Forall (fun p => - PI < p <= PI) phase.
Proof.
  eexists. eexists. split; [reflexivity|].
  apply (@bin2mat_radius_has_mean_one (fun y x => atan (y / x)) [3; 4; 0; 5]).
  - reflexivity.
  - exists 3. split; [left; reflexivity|lra].
Defined.

(** *** The overshoot correction *)

Lemma broadcast_map_l {A A' B D : Type} (f : A' -> B -> D) (u : A -> A')
    (a : list A) (b : list B) :
  broadcast f (map u a) b = broadcast (fun x => f (u x)) a b.
Proof.
  unfold broadcast. rewrite length_map.
  destruct (length a =? length b)%nat.
  - f_equal. revert b. induction a as [|x a IH]; intros [|y b];
      cbn [map map2]; try reflexivity. rewrite IH. reflexivity.
  - destruct a as [|x [|x' a]]; cbn [map]; try reflexivity.
    destruct b as [|y [|y' b]]; try reflexivity.
    f_equal. rewrite map_map. reflexivity.
Qed.

Lemma broadcast_ext {A B D : Type} (f g : A -> B -> D)
    (a : list A) (b : list B) :
  (forall x y, f x y = g x y) -> broadcast f a b = broadcast g a b.
Proof.
  intros H. unfold broadcast.
  destruct (length a =? length b)%nat.
  - f_equal. revert b. induction a as [|x a IH]; intros [|y b];
      cbn [map2]; try reflexivity. rewrite H, IH. reflexivity.
  - destruct a as [|x [|x' a]]; destruct b as [|y [|y' b]];
      try reflexivity; f_equal; apply map_ext; intros; apply H.
Qed.

Lemma smith_coord_unwrap (P amp : list R) :
  smith_coord (unwrap P) amp = smith_coord P amp.
Proof.
  unfold smith_coord, unwrap. rewrite !broadcast_map_l.
  rewrite (@broadcast_ext _ _ _
             (fun x r => - cos (if Rle_dec x overshoot then x + 2 * PI else x) * r)
             (fun p r => - cos p * r)).
  2:{ intros x y. destruct (Rle_dec x overshoot); [|reflexivity].
      rewrite cos_plus, cos_2PI, sin_2PI. ring. }
  rewrite (@broadcast_ext _ _ _
             (fun x r => sin (if Rle_dec x overshoot then x + 2 * PI else x) * r)
             (fun p r => sin p * r)).
  2:{ intros x y. destruct (Rle_dec x overshoot); [|reflexivity].
      rewrite sin_plus, cos_2PI, sin_2PI. ring. }
  reflexivity.
Qed.

(** X27.  In the Smith chart the correction of line 111 changes nothing: the value
    returned is what lines 115-128 compute from the phases as they were
    passed. *)
Theorem smith_response_ignores_the_overshoot_correction
    (response : response_type) (phase amp dark_phase dark_amp : list R) :
  returned (coord_transformation response Smith phase amp dark_phase dark_amp)
  = (RX <- smith_coord phase amp ;;
     dark <- (if negb (length dark_phase =? 0)%nat
              then d <- smith_coord dark_phase dark_amp ;; Ok (Some d)
              else Ok None) ;;
     match response with
     | ResponseR => Ok (fst RX, option_map fst dark)
     | ResponseX => Ok (snd RX, option_map snd dark)
     | _ => Raise ConfigurationError
     end).
Proof.
  unfold coord_transformation. cbn [returned].
  rewrite smith_coord_unwrap.
  destruct (negb (length dark_phase =? 0)%nat); [|reflexivity].
  rewrite smith_coord_unwrap. reflexivity.
Qed.

(** *** Mean of the signal *)

Lemma Rsum_minus_const (c : R) (l : list R) :
  Rsum (map (fun v => v - c) l) = Rsum l - INR (length l) * c.
Proof.
  induction l as [|x l IH].
  - cbn. ring.
  - cbn [map Rsum fold_right]. fold (Rsum (map (fun v => v - c) l)).
    fold (Rsum l). rewrite IH.
    change (length (x :: l)) with (S (length l)). rewrite S_INR. ring.
Qed.

Lemma Rsum_centered (l : list R) :
  l <> [] -> Rsum (map (fun v => v - mean l) l) = 0.
Proof.
  intros Hl. rewrite Rsum_minus_const. unfold mean.
  assert (0 < INR (length l)).
  { apply lt_0_INR. destruct l; [congruence|simpl; lia]. }
  field. lra.
Qed.

Lemma smith_coord_same_length (P amp : list R) :
  length amp = length P ->
  exists Rs Xs, smith_coord P amp = Ok (Rs, Xs)
    /\ length Rs = length P /\ length Xs = length P
    /\ (P <> [] -> Rsum Rs = 0 /\ Rsum Xs = 0).
Proof.
  intros Hlen. unfold smith_coord.
  rewrite !broadcast_same by (symmetry; exact Hlen). cbn [bind].
  eexists. eexists. split; [reflexivity|].
  assert (Hz : forall (g : C -> R),
           length (map g (map (fun g0 => Cdiv (Cplus (RtoC 1) g0)
                                              (Cminus (RtoC 1) g0))
                              (map2 (fun i q : R => (i, q))
                                 (map2 (fun p r => - cos p * r) P amp)
                                 (map2 (fun p r => sin p * r) P amp))))
           = length P).
  { intros g. rewrite !length_map, !map2_length. lia. }
  split; [|split].
  - rewrite length_map. apply Hz.
  - rewrite length_map. apply Hz.
  - intros HP.
    assert (HP' : length P <> 0%nat) by (destruct P; [congruence|discriminate]).
    split; apply Rsum_centered; intros Hnil;
      apply (f_equal (@length R)) in Hnil; rewrite Hz in Hnil;
      simpl in Hnil; lia.
Qed.

(** X28.  Without dark data, every accepted selection returns a signal of the
    length of the phase whose samples sum to zero, so that its spectrum has
    no power in the first bin.  For the Smith chart the statement is made
    where no reflection coefficient equals one, the division of line 92
    being undefined there. *)
Theorem transformed_signal_has_zero_mean
    (response : response_type) (coord : coord_type)
    (phase amp : list R) (fs : R) :
  accepted coord response = true ->
  phase <> [] ->
  length amp = length phase ->
  (coord = Smith ->
   forall k, (k < length phase)%nat ->
     (- cos (nth k phase 0) * nth k amp 0, sin (nth k phase 0) * nth k amp 0)
       <> (1, 0)) ->
  fs <> 0 ->
  exists signal p,
    returned (coord_transformation response coord phase amp [] [])
      = Ok (signal, None)
    /\ length signal = length phase
    /\ Rsum signal = 0
    /\ psd (Array1 signal) fs = Ok (Array1 p)
    /\ nth 0 p 0 = 0.
Proof.
  intros Hacc Hphase Hlen _ Hfs.
  assert (Hamp : amp <> []).
  { intros ->. destruct phase; [congruence|discriminate Hlen]. }
  assert (Hsig : exists signal,
             returned (coord_transformation response coord phase amp [] [])
               = Ok (signal, None)
             /\ length signal = length phase /\ Rsum signal = 0).
  { unfold coord_transformation. cbn [returned length Nat.eqb negb].
    destruct coord, response; try discriminate Hacc.
    - rewrite smith_coord_unwrap.
      destruct (@smith_coord_same_length phase amp Hlen)
        as (Rs & Xs & Hrun & HR & HX & Hz).
      rewrite Hrun. cbn [bind fst snd option_map].
      exists Rs. repeat split; [exact HR|apply Hz; exact Hphase].
    - rewrite smith_coord_unwrap.
      destruct (@smith_coord_same_length phase amp Hlen)
        as (Rs & Xs & Hrun & HR & HX & Hz).
      rewrite Hrun. cbn [bind fst snd option_map].
      exists Xs. repeat split; [exact HX|apply Hz; exact Hphase].
    - eexists. split; [reflexivity|]. split.
      + unfold unwrap. rewrite !length_map. reflexivity.
      + apply Rsum_centered. unfold unwrap.
        destruct phase; [congruence|discriminate].
    - eexists. split; [reflexivity|]. split.
      + rewrite !length_map. exact Hlen.
      + apply Rsum_centered. destruct amp; [congruence|discriminate]. }
  destruct Hsig as (signal & Hrun & Hl & Hsum).
  assert (Hs0 : signal <> []).
  { intros ->. destruct phase; [congruence|discriminate Hl]. }
  destruct (psd_rank1_first_bin Hs0 Hfs) as [p [Hp Hbin]].
  exists signal, p. repeat split; try assumption.
  rewrite Hbin, Hsum. unfold Rdiv. ring.
Qed.

Lemma transformed_signal_has_zero_mean_witness :
  exists signal p,
    returned (coord_transformation ResponsePhase Circle [1; 2] [1; 1] [] [])
      = Ok (signal, None)
    /\ length signal = length [1; 2]
    /\ Rsum signal = 0
    /\ psd (Array1 signal) 1 = Ok (Array1 p)
    /\ nth 0 p 0 = 0.
Proof.
  apply (@transformed_signal_has_zero_mean ResponsePhase Circle [1; 2] [1; 1] 1).
  - reflexivity.
  - discriminate.
  - reflexivity.
  - intros H. discriminate H.
  - lra.
Defined.

(** *** What a refused call leaves behind *)

(** X29.  A selection that is not accepted is refused, but only after line 111:
    the phases at or below the overshoot have been raised by [2 pi] in the
    array of the caller. *)
Theorem refused_call_has_rewritten_the_phase
    (response : response_type) (coord : coord_type)
    (phase amp dark_phase dark_amp : list R) :
  accepted coord response = false ->
  length amp = length phase ->
  length dark_amp = length dark_phase ->
  let out := coord_transformation response coord phase amp dark_phase dark_amp in
  returned out = Raise ConfigurationError
  /\ length (phase_after out) = length phase
  /\ forall k, (k < length phase)%nat ->
       nth k (phase_after out) 0
       = if Rle_dec (nth k phase 0) overshoot
         then nth k phase 0 + 2 * PI else nth k phase 0.
Proof.
  intros Hacc Hlen Hdark out. unfold out, coord_transformation.
  cbn [returned phase_after]. split; [|split].
  - destruct coord; [| |reflexivity].
    + rewrite smith_coord_unwrap.
      destruct (@smith_coord_same_length phase amp Hlen)
        as (Rs & Xs & Hrun & _). rewrite Hrun. cbn [bind].
      destruct (negb (length dark_phase =? 0)%nat).
      * rewrite smith_coord_unwrap.
        destruct (@smith_coord_same_length dark_phase dark_amp Hdark)
          as (Rd & Xd & Hrund & _). rewrite Hrund. cbn [bind].
        destruct response; try discriminate Hacc; reflexivity.
      * cbn [bind]. destruct response; try discriminate Hacc; reflexivity.
    + destruct response; try discriminate Hacc; reflexivity.
  - unfold unwrap. apply length_map.
  - intros k Hk. unfold unwrap.
    rewrite (nth_indep _ 0
               ((fun p => if Rle_dec p overshoot then p + 2 * PI else p) 0))
      by (rewrite length_map; exact Hk).
    rewrite (map_nth (fun p => if Rle_dec p overshoot then p + 2 * PI else p)).
    reflexivity.
Qed.

Lemma refused_call_has_rewritten_the_phase_witness :
  let phase : list R := [- 2; 1] in
  let out := coord_transformation ResponsePhase Smith phase [1; 1] [] [] in
  returned out = Raise ConfigurationError
  /\ length (phase_after out) = length phase
  /\ forall k, (k < length phase)%nat ->
       nth k (phase_after out) 0
       = if Rle_dec (nth k phase 0) overshoot
         then nth k phase 0 + 2 * PI else nth k phase 0.
Proof.
  intros phase.
  apply (@refused_call_has_rewritten_the_phase
           ResponsePhase Smith phase [1; 1] [] []); reflexivity.
Defined.

(** X30.  The phases [bin2mat] returns are, after a call of
    [coord_transformation], all above the overshoot and at most [3 pi / 2];
    a second call on the same array finds nothing left to correct. *)
Theorem phase_of_bin2mat_is_corrected_once
    (arctan2 : R -> R -> R) (data radius phase : list R)
    (response : response_type) (coord : coord_type) :
  bin2mat arctan2 data = Ok (radius, phase) ->
  let out := coord_transformation response coord phase radius [] [] in
  Forall (fun p => overshoot < p <= 3 / 2 * PI) (phase_after out)
  /\ phase_after
       (coord_transformation response coord (phase_after out) radius [] [])
     = phase_after out.
Proof.
  intros Hrun out.
  assert (Hrange : Forall (fun p => - PI < p <= PI) phase).
  { unfold bin2mat in Hrun.
    destruct (reshape_pairs data) as [rows|e]; [|discriminate Hrun].
    cbn [bind] in Hrun. injection Hrun as _ <-.
    apply Forall_forall. intros p Hp. apply in_map_iff in Hp.
    destruct Hp as [a [<- _]].
    pose proof PI_RGT_0 as Hpi.
    assert (H2 : 0 < 2 * PI) by lra.
    pose proof (@py_mod_range a (2 * PI) H2). lra. }
  pose proof PI_RGT_0 as Hpi.
  assert (Hafter : Forall (fun p => overshoot < p <= 3 / 2 * PI) (unwrap phase)).
  { unfold unwrap. apply Forall_forall. intros q Hq. apply in_map_iff in Hq.
    destruct Hq as [p [<- Hp]].
    rewrite Forall_forall in Hrange. specialize (Hrange p Hp). cbv beta in Hrange.
    unfold overshoot in *. destruct (Rle_dec p (- (5 / 10) * PI)); lra. }
  unfold out, coord_transformation. cbn [phase_after]. split; [exact Hafter|].
  rewrite <- (map_id (unwrap phase)) at 2. unfold unwrap at 1.
  apply map_ext_in. intros q Hq.
  rewrite Forall_forall in Hafter. specialize (Hafter q Hq). cbv beta in Hafter.
  destruct (Rle_dec q overshoot); [lra|reflexivity].
Qed.

Lemma phase_of_bin2mat_is_corrected_once_witness :
  let arctan2 := fun y x : R => atan (y / x) in
  let radius := fst (match bin2mat arctan2 [3; 4] with
                     | Ok rp => rp | Raise _ => ([], []) end) in
  let phase := snd (match bin2mat arctan2 [3; 4] with
                    | Ok rp => rp | Raise _ => ([], []) end) in
  let out := coord_transformation ResponsePhase Circle phase radius [] [] in
  Forall (fun p => overshoot < p <= 3 / 2 * PI) (phase_after out)
  /\ phase_after
       (coord_transformation ResponsePhase Circle (phase_after out) radius [] [])
     = phase_after out.
Proof.
  intros arctan2 radius phase.
  apply (@phase_of_bin2mat_is_corrected_once arctan2 [3; 4] radius phase
           ResponsePhase Circle).
  reflexivity.
Defined.

End CoordFacts.

(** ** Pulse Detector and Aligner: the alignment stage *)

Section AlignmentFacts.

Import Detector.
Local Open Scope Z_scope.

Variable find_peaks : list Q -> Q -> Q -> list (Z * Q).
Variable interp1d : list Q -> list Q -> list Q -> result (list Q).
Variable resample : list Q -> Z -> result (list Q).
Variable np_std : list Q -> Q.

(** *** No candidate left *)

Lemma filter_all {A : Type} (f : A -> bool) (l : list A) :
  (forall x, f x = true) -> filter f l = l.
Proof.
  intros H. induction l as [|x l IH]; [reflexivity|].
  cbn [filter]. rewrite H, IH. reflexivity.
Qed.

(** X6.  When the spacing filter has left no candidate, the stage returns no
    pulse and reports every detected location as filtered, the arrays
    untouched; the supersample factor is then used as it was passed, and a
    factor (or a pulse window) of zero or less makes the reshape of line
    299 fail. *)
Theorem stage_without_candidates
    (pw buffer align_shift ssf : Z) (filter_std : Q)
    (ts : timestreams) (det_locs : list Z) :
  align_and_reject_stage find_peaks interp1d resample np_std
    pw buffer align_shift ssf filter_std ts [] det_locs
  = if pw * ssf <=? 0 then Failed (Raised ValueError)
    else Done (ts, {| pulses_aligned := []; H := []; sel_locs := [];
                      filtered_locs := np_unique det_locs;
                      pks_smoothed := [] |}).
Proof.
  unfold align_and_reject_stage.
  cbn [align_loop stage_bind fst snd map flat_map compress].
  destruct (pw * ssf <=? 0); [reflexivity|].
  unfold outliers. cbn [map map2 compress].
  unfold np_setdiff1d. rewrite filter_all by (intros x; reflexivity).
  reflexivity.
Qed.

(** *** The mask of the outlier rejection *)

Lemma nth_map_seq {A : Type} (g : nat -> A) (n j : nat) (d : A) :
  (j < n)%nat -> nth j (map g (seq 0 n)) d = g j.
Proof.
  intros Hj. rewrite (nth_indep _ d (g 0%nat))
    by (rewrite length_map, length_seq; exact Hj).
  rewrite (map_nth g), seq_nth by exact Hj. reflexivity.
Qed.

Lemma forallb_map2_false {A B : Type} (f : A -> B -> bool)
    (a : list A) (b : list B) (j : nat) (da : A) (db : B) :
  (j < length a)%nat -> (j < length b)%nat ->
  f (nth j a da) (nth j b db) = false ->
  forallb (fun x => x) (map2 f a b) = false.
Proof.
  revert b j. induction a as [|x a IH]; intros [|y b] j Ha Hb Hf;
    cbn [length] in *; try lia.
  cbn [map2 forallb]. destruct j as [|j].
  - cbn [nth] in Hf. rewrite Hf. reflexivity.
  - cbn [nth] in Hf. rewrite (IH b j) by (try lia; exact Hf).
    apply andb_false_r.
Qed.

Lemma map2_andb_all_false {A : Type} (fa fb : A -> bool) (rows : list A) :
  (forall r, In r rows -> fa r && fb r = false) ->
  map2 andb (map fa rows) (map fb rows) = repeat false (length rows).
Proof.
  induction rows as [|r rows IH]; intros H; [reflexivity|].
  cbn [map map2 length repeat]. rewrite (H r) by (left; reflexivity).
  rewrite IH by (intros r' Hr'; apply H; right; exact Hr'). reflexivity.
Qed.

(** X8.  As soon as, at one sample, [filter_std] times the standard deviation of
    the aligned pulses is zero or less, no pulse passes the rejection: the
    two bounds are strict.  This is the case of a single aligned pulse, of
    aligned pulses that agree at one sample, and of [filter_std <= 0]. *)
Theorem no_pulse_survives_without_spread
    (filter_std : Q) (ncols : nat) (rows : list (list Q)) (j : nat) :
  (j < ncols)%nat ->
  (forall r, In r rows -> length r = ncols) ->
  (filter_std * np_std (column rows j) <= 0)%Q ->
  outliers np_std filter_std ncols rows = repeat false (length rows).
Proof.
  intros Hj Hrows Hspread. unfold outliers.
  apply map2_andb_all_false. intros r Hr.
  set (means := map (fun j0 => np_mean (column rows j0)) (seq 0 ncols)).
  set (stds := map (fun j0 => np_std (column rows j0)) (seq 0 ncols)).
  assert (Hlm : length means = ncols)
    by (unfold means; rewrite length_map, length_seq; reflexivity).
  assert (Hls : length stds = ncols)
    by (unfold stds; rewrite length_map, length_seq; reflexivity).
  assert (Hmax : nth j (map2 (fun m s => (m + filter_std * s)%Q) means stds) 0%Q
                 = (np_mean (column rows j)
                    + filter_std * np_std (column rows j))%Q).
  { rewrite (@map2_nth _ _ _ (fun m s => (m + filter_std * s)%Q)
               means stds j 0%Q 0%Q 0%Q) by lia.
    unfold means, stds. rewrite !nth_map_seq by exact Hj. reflexivity. }
  assert (Hmin : nth j (map2 (fun m s => (m - filter_std * s)%Q) means stds) 0%Q
                 = (np_mean (column rows j)
                    - filter_std * np_std (column rows j))%Q).
  { rewrite (@map2_nth _ _ _ (fun m s => (m - filter_std * s)%Q)
               means stds j 0%Q 0%Q 0%Q) by lia.
    unfold means, stds. rewrite !nth_map_seq by exact Hj. reflexivity. }
  assert (Hr1 : (j < length r)%nat) by (rewrite (Hrows r Hr); exact Hj).
  assert (Hl1 : (j < length (map2 (fun m s => (m + filter_std * s)%Q) means stds))%nat)
    by (rewrite map2_length; lia).
  assert (Hl2 : (j < length (map2 (fun m s => (m - filter_std * s)%Q) means stds))%nat)
    by (rewrite map2_length; lia).
  destruct (Qle_bool (np_mean (column rows j)
                      + filter_std * np_std (column rows j)) (nth j r 0%Q))
    eqn:Habove.
  - rewrite (@forallb_map2_false _ _ (fun p m => negb (Qle_bool m p))
               r _ j 0%Q 0%Q Hr1 Hl1).
    + reflexivity.
    + rewrite Hmax, Habove. reflexivity.
  - rewrite (@forallb_map2_false _ _ (fun p m => negb (Qle_bool p m))
               r (map2 (fun m s => (m - filter_std * s)%Q) means stds)
               j 0%Q 0%Q Hr1 Hl2).
    + apply andb_false_r.
    + rewrite Hmin.
      assert (Hle : (nth j r 0
                     <= np_mean (column rows j)
                        - filter_std * np_std (column rows j))%Q).
      { assert (Hlt : ~ (np_mean (column rows j)
                         + filter_std * np_std (column rows j)
                         <= nth j r 0)%Q).
        { intros Hc. apply Qle_bool_iff in Hc. congruence. }
        apply Qnot_le_lt in Hlt.
        revert Hlt Hspread.
        generalize (filter_std * np_std (column rows j))%Q,
                   (np_mean (column rows j)), (nth j r 0%Q).
        intros t m p Hlt Hspread.
        apply Qle_trans with (m + t)%Q; [apply Qlt_le_weak; exact Hlt|].
        unfold Qminus. apply Qplus_le_r.
        apply Qle_trans with 0%Q; [exact Hspread|].
        apply (Qopp_le_compat t 0) in Hspread. exact Hspread. }
      apply Qle_bool_iff in Hle. rewrite Hle. reflexivity.
Qed.

(** *** The cut of an aligned pulse *)

Lemma py_slice_length {A : Type} (a : list A) (s e : Z) :
  length (py_slice a s e)
  = Nat.min (snd (slice_bounds a s e) - fst (slice_bounds a s e))
            (length a - fst (slice_bounds a s e)).
Proof.
  unfold py_slice. cbn [slice_bounds fst snd].
  rewrite length_firstn, length_skipn. reflexivity.
Qed.

(** X7.  A pulse is kept only when its cut of [pw * ssf] samples lies inside the
    supersampled window: a start before the window, which Python would
    count from the end, never yields a kept pulse. *)
Theorem kept_pulse_is_cut_inside_the_window
    (pw buffer align_shift ssf : Z) (pulse aligned : list Q)
    (idx_max : Z) (full_max : Q) :
  1 <= pw -> 0 <= align_shift <= pw -> 1 <= ssf ->
  align_on_rising_edge pw buffer align_shift ssf pulse idx_max full_max
    = Ok (Some aligned) ->
  exists shift_start,
    0 <= shift_start
    /\ shift_start + pw * ssf <= Z.of_nat (length pulse)
    /\ aligned = firstn (Z.to_nat (pw * ssf)) (skipn (Z.to_nat shift_start) pulse)
    /\ Z.of_nat (length aligned) = pw * ssf.
Proof.
  intros Hpw Has Hssf Hrun. unfold align_on_rising_edge in Hrun.
  destruct (argmax_bool _) as [k|e]; [|discriminate Hrun].
  cbn [bind] in Hrun.
  destruct (Z.ltb_spec align_shift (idx_max - k)) as [Hrise|Hrise];
    [|discriminate Hrun].
  set (s := idx_max - k - align_shift * ssf) in *.
  destruct (Z.eqb_spec (Z.of_nat (length (py_slice pulse s (s + pw * ssf))))
                       (pw * ssf)) as [Hlen|Hlen]; [|discriminate Hrun].
  injection Hrun as <-.
  assert (Hk : 0 < pw * ssf) by nia.
  assert (He : 0 < s + pw * ssf) by (unfold s; nia).
  rewrite py_slice_length in Hlen.
  unfold slice_bounds, clamp_index in Hlen. cbn [fst snd] in Hlen.
  destruct (Z.ltb_spec s 0) as [Hs|Hs];
    destruct (Z.ltb_spec (s + pw * ssf) 0) as [He'|He']; try lia.
  exists s. split; [lia|]. split; [lia|]. split.
  - unfold py_slice, slice_bounds, clamp_index.
    destruct (Z.ltb_spec s 0) as [Hs'|Hs']; [lia|].
    destruct (Z.ltb_spec (s + pw * ssf) 0) as [He''|He'']; [lia|].
    f_equal; [|f_equal]; lia.
  - rewrite py_slice_length.
    unfold slice_bounds, clamp_index. cbn [fst snd].
    destruct (Z.ltb_spec s 0) as [Hs'|Hs']; [lia|].
    destruct (Z.ltb_spec (s + pw * ssf) 0) as [He''|He'']; [lia|].
    lia.
Qed.

Lemma kept_pulse_is_cut_inside_the_window_witness :
  exists shift_start,
    0 <= shift_start
    /\ shift_start + 4 * 1 <= Z.of_nat (length [0; 1; 2; 4; 8; 2; 0; -1]%Q)
    /\ [1; 2; 4; 8]%Q
       = firstn (Z.to_nat (4 * 1))
                (skipn (Z.to_nat shift_start) [0; 1; 2; 4; 8; 2; 0; -1]%Q)
    /\ Z.of_nat (length [1; 2; 4; 8]%Q) = 4 * 1.
Proof.
  apply (@kept_pulse_is_cut_inside_the_window 4 2 1 1
           [0; 1; 2; 4; 8; 2; 0; -1]%Q [1; 2; 4; 8]%Q 4 8%Q).
  - lia.
  - lia.
  - lia.
  - reflexivity.
Defined.

(** *** The arrays returned *)

Lemma compress_length_same {A B : Type} (mask : list bool)
    (a : list A) (b : list B) :
  length a = length b -> length (compress mask a) = length (compress mask b).
Proof.
  revert a b. induction mask as [|m mask IH]; intros [|x a] [|y b] H;
    try reflexivity; try discriminate H.
  cbn [compress]. injection H as H. destruct m; cbn [length];
    rewrite (IH a b H); reflexivity.
Qed.

Lemma kept_count {A : Type} (passes : list pass) (l : list A) :
  length l = length passes ->
  length (compress (map is_kept passes) l)
  = length (flat_map appended_of passes).
Proof.
  revert l. induction passes as [|p passes IH]; intros [|x l] H;
    try reflexivity; try discriminate H.
  injection H as H. cbn [map compress flat_map].
  unfold is_kept at 1, appended_of at 1. destruct (kept p).
  - cbn [length app]. rewrite (IH l H). reflexivity.
  - cbn [app]. apply IH. exact H.
Qed.

Lemma align_loop_length (pw buffer align_shift ssf : Z)
    (cands : list (Z * Q)) (ts ts' : timestreams) (passes : list pass) :
  align_loop find_peaks interp1d resample pw buffer align_shift ssf ts cands
    = Done (ts', passes) ->
  length passes = length cands.
Proof.
  revert ts ts' passes. induction cands as [|[loc pk] cands IH];
    intros ts ts' passes Hrun; cbn [align_loop] in Hrun.
  - injection Hrun as _ <-. reflexivity.
  - destruct (align_candidate _ _ _ _ _ _ _ _ _ _) as [p|e];
      [|discriminate Hrun].
    cbn [stage_bind] in Hrun.
    destruct (align_loop _ _ _ _ _ _ _ _ _) as [[ts1 ps]|e] eqn:Hrest;
      [|discriminate Hrun].
    cbn [stage_bind fst snd] in Hrun. injection Hrun as _ <-.
    cbn [length]. rewrite (IH _ _ _ Hrest). reflexivity.
Qed.

Lemma align_on_rising_edge_length (pw buffer align_shift ssf : Z)
    (pulse aligned : list Q) (idx_max : Z) (full_max : Q) :
  align_on_rising_edge pw buffer align_shift ssf pulse idx_max full_max
    = Ok (Some aligned) ->
  Z.of_nat (length aligned) = pw * ssf.
Proof.
  unfold align_on_rising_edge. intros Hrun.
  destruct (argmax_bool _) as [k|e]; [|discriminate Hrun].
  cbn [bind] in Hrun.
  destruct (align_shift <? idx_max - k); [|discriminate Hrun].
  destruct (Z.eqb_spec
              (Z.of_nat (length (py_slice pulse
                                   (idx_max - k - align_shift * ssf)
                                   (idx_max - k - align_shift * ssf + pw * ssf))))
              (pw * ssf)) as [Hlen|Hlen]; [|discriminate Hrun].
  injection Hrun as <-. exact Hlen.
Qed.

Lemma align_candidate_kept (pw buffer align_shift ssf : Z)
    (ts : timestreams) (loc : Z) (pk : Q) (p : pass) (a : list Q) (h : Q) :
  align_candidate find_peaks interp1d resample pw buffer align_shift ssf ts loc pk
    = Done p ->
  kept p = Some (a, h) ->
  Z.of_nat (length a) = pw * effective_ssf ssf.
Proof.
  unfold align_candidate. intros Hrun Hkept.
  destruct (if 1 <? ssf then _ else _) as [pulse|e]; [|discriminate Hrun].
  cbn [stage_bind] in Hrun.
  destruct (if 1 <? ssf then _ else _) as [spulse|e]; [|discriminate Hrun].
  cbn [stage_bind] in Hrun.
  destruct (py_index pulse _) as [uh|e]; [|discriminate Hrun].
  cbn [stage_bind] in Hrun.
  assert (Hfin : forall idx_max full_max,
             (aligned <~ lift (align_on_rising_edge pw buffer align_shift
                                 (effective_ssf ssf) pulse idx_max full_max) ;;
              Done {| arrays := fst (cut_and_correct ts loc align_shift buffer pw);
                      sel_loc := loc - align_shift - buffer + idx_max;
                      kept := option_map (fun a0 => (a0, full_max)) aligned |})
             = Done p ->
             Z.of_nat (length a) = pw * effective_ssf ssf).
  { intros idx_max full_max Hf.
    destruct (align_on_rising_edge _ _ _ _ _ _ _) as [[al|]|e] eqn:Hal;
      cbn [lift stage_bind] in Hf; try discriminate Hf.
    - injection Hf as <-. cbn [kept option_map] in Hkept.
      injection Hkept as <- _.
      apply (align_on_rising_edge_length _ _ _ _ _ _ _ Hal).
    - injection Hf as <-. discriminate Hkept. }
  destruct (find_peaks (py_slice pulse _ _) _ _) as [|[lr hr] rest].
  - destruct (find_peaks (py_slice pulse 0 _) _ _) as [|[ll hl] rest'].
    + injection Hrun as <-. discriminate Hkept.
    + apply (Hfin _ _ Hrun).
  - apply (Hfin _ _ Hrun).
Qed.

Lemma align_loop_kept (pw buffer align_shift ssf : Z)
    (cands : list (Z * Q)) (ts ts' : timestreams) (passes : list pass) :
  align_loop find_peaks interp1d resample pw buffer align_shift ssf ts cands
    = Done (ts', passes) ->
  Forall (fun ah => Z.of_nat (length (fst ah)) = pw * effective_ssf ssf)
         (flat_map appended_of passes).
Proof.
  revert ts ts' passes. induction cands as [|[loc pk] cands IH];
    intros ts ts' passes Hrun; cbn [align_loop] in Hrun.
  - injection Hrun as _ <-. constructor.
  - destruct (align_candidate _ _ _ _ _ _ _ _ _ _) as [p|e] eqn:Hp;
      [|discriminate Hrun].
    cbn [stage_bind] in Hrun.
    destruct (align_loop _ _ _ _ _ _ _ _ _) as [[ts1 ps]|e] eqn:Hrest;
      [|discriminate Hrun].
    cbn [stage_bind fst snd] in Hrun. injection Hrun as _ <-.
    cbn [flat_map]. apply Forall_app. split; [|apply (IH _ _ _ Hrest)].
    unfold appended_of. destruct (kept p) as [[a h]|] eqn:Hk; [|constructor].
    constructor; [|constructor]. cbn [fst].
    apply (align_candidate_kept _ _ _ _ _ _ _ Hp Hk).
Qed.

Lemma Forall_compress {A : Type} (P : A -> Prop) (mask : list bool) (l : list A) :
  Forall P l -> Forall P (compress mask l).
Proof.
  revert l. induction mask as [|m mask IH]; intros [|x l] H;
    cbn [compress]; try constructor.
  inversion H; subst. destruct m; [constructor; [assumption|]|]; apply IH;
    assumption.
Qed.

(** X9.  What the stage returns is parallel: one height, one location and one
    smoothed height per aligned pulse, and every aligned pulse has
    [pw * ssf] samples, with [ssf] the factor in force (one when the
    argument is one or less). *)
Theorem stage_returns_parallel_arrays
    (pw buffer align_shift ssf : Z) (filter_std : Q)
    (ts ts' : timestreams) (cands : list (Z * Q)) (det_locs : list Z)
    (out : output) :
  align_and_reject_stage find_peaks interp1d resample np_std
    pw buffer align_shift ssf filter_std ts cands det_locs = Done (ts', out) ->
  length (H out) = length (pulses_aligned out)
  /\ length (sel_locs out) = length (pulses_aligned out)
  /\ length (pks_smoothed out) = length (pulses_aligned out)
  /\ Forall (fun row => Z.of_nat (length row) = pw * effective_ssf ssf)
            (pulses_aligned out).
Proof.
  unfold align_and_reject_stage. intros Hrun.
  destruct (align_loop _ _ _ _ _ _ _ _ _) as [[ts1 passes]|e] eqn:Hloop;
    [|discriminate Hrun].
  cbn [stage_bind fst snd] in Hrun.
  destruct (pw * _ <=? 0); [discriminate Hrun|].
  injection Hrun as _ <-. cbn [H pulses_aligned sel_locs pks_smoothed].
  pose proof (align_loop_length _ _ _ _ _ _ Hloop) as Hlen.
  set (app := flat_map appended_of passes).
  set (mask := outliers np_std filter_std _ (map fst app)).
  assert (Hsel : length (compress (map is_kept passes) (map sel_loc passes))
                 = length app)
    by (apply kept_count; apply length_map).
  assert (Hpk : length (compress (map is_kept passes) (map snd cands))
                = length app)
    by (apply kept_count; rewrite length_map; symmetry; exact Hlen).
  split; [|split; [|split]].
  - apply compress_length_same. rewrite !length_map. reflexivity.
  - apply compress_length_same. rewrite Hsel, length_map. reflexivity.
  - apply compress_length_same. rewrite Hpk, length_map. reflexivity.
  - apply Forall_compress. apply Forall_map.
    apply (align_loop_kept _ _ _ _ _ _ Hloop).
Qed.

End AlignmentFacts.

Section AlignmentExample.

Import Detector.
Local Open Scope Z_scope.

(** Two pulses in a signal of 32 samples, at 9 and 25, behind the
    candidates 8 and 24 of smoothed heights 3 and 6. *)
Lemma stage_returns_parallel_arrays_witness :
  let signal :=
    ([0; 0; 0; 0; 0; 0; 1; 2; 4; 8; 2; 0; -1; 0; 0; 0;
      0; 0; 0; 0; 0; 0; 2; 4; 8; 16; 4; 0; -2; 0; 0; 0])%Q in
  let none := fun (_ _ _ : list Q) => Raise ValueError : result (list Q) in
  let same := fun (x : list Q) (_ : Z) => Ok x in
  exists ts' out,
    align_and_reject_stage reference_find_peaks none same reference_std
      4 2 1 1 2%Q (Shared signal) [(8, 3%Q); (24, 6%Q)] [8; 24]
    = Done (ts', out)
    /\ length (pulses_aligned out) = 2%nat
    /\ length (H out) = length (pulses_aligned out)
    /\ length (sel_locs out) = length (pulses_aligned out)
    /\ length (pks_smoothed out) = length (pulses_aligned out)
    /\ Forall (fun row => Z.of_nat (length row) = 4 * effective_ssf 1)
              (pulses_aligned out).
Proof.
  intros signal none same.
  eexists. eexists. split; [vm_compute; reflexivity|].
  split; [reflexivity|].
  eapply (@stage_returns_parallel_arrays reference_find_peaks none same
            reference_std 4 2 1 1 2%Q (Shared signal) _
            [(8, 3%Q); (24, 6%Q)] [8; 24] _).
  vm_compute. reflexivity.
Defined.

Lemma no_pulse_survives_without_spread_witness :
  outliers reference_std 3%Q 2 [[1; 2]; [1; 5]]%Q
  = repeat false (length [[1; 2]; [1; 5]]%Q).
Proof.
  apply (@no_pulse_survives_without_spread reference_std 3%Q 2
           [[1; 2]; [1; 5]]%Q 0).
  - lia.
  - intros r [<-|[<-|[]]]; reflexivity.
  - vm_compute. discriminate.
Defined.

End AlignmentExample.
